(** * marcw/ini: a shallow embedding of [ini.go] and its properties

    The package parses INI text with Go's [text/scanner] into a
    [map[string]map[string]string] and writes it back with [fmt.Fprintf].

    Conventions of the embedding.
    - A rune is a [Z] (Go's [int32]); the scanner's special results are the
      negative constants [EOF] = -1 and [TokString] = -6.
    - A Go string is the list of the runes it holds ([gostring]); the
      [io.Reader] handed to [ReadFrom]/[Load] is the list of runes the
      scanner's [next()] decodes from it.  A well-formed text holds valid
      runes only ([ValidRune]), which is what UTF-8 decoding delivers.
    - Loops of the package ([for { ... }]) take a fuel argument, one unit
      per iteration; [None] means the fuel ran out.  A call that returns
      [None] for every fuel is a call that never returns.
    - The [sync.RWMutex] is not modelled: every operation runs alone.
    - The two files of the package hold the same readers, once as methods
      and once as free functions; they are embedded once.

    The file has three parts: the embedding of the package and of what it
    uses of Go's library, the vocabulary of the statements, and the
    properties, which end with the tests of the repository run on the
    model. *)

From Stdlib Require Import ZArith List Bool Lia String Ascii.
From stdpp Require Import base option list gmap.

Local Open Scope Z_scope.

Abbreviation rune := Z (only parsing).
Abbreviation gostring := (list Z) (only parsing).

(** ** Constants of [ini.go] and of [text/scanner] *)

Definition tokenSectionStart : rune := 91.   (* '[' *)
Definition tokenSectionStop : rune := 93.    (* ']' *)
Definition tokenCommentClassic : rune := 59. (* ';' *)
Definition tokenCommentHash : rune := 35.    (* '#' *)
Definition tokenSpace : rune := 32.          (* ' ' *)
Definition tokenLF : rune := 10.             (* '\n' *)
Definition tokenCR : rune := 13.             (* '\r' *)

Definition tokenEqual : rune := 61.          (* '=' *)
Definition tokenTab : rune := 9.             (* '\t' *)
Definition tokenQuote : rune := 34.          (* the double quote *)
Definition tokenBackslash : rune := 92.      (* '\\' *)

Definition EOF : rune := -1.                 (* scanner.EOF *)
Definition TokString : rune := -6.           (* scanner.String *)
Definition BOM : rune := 65279.              (* U+FEFF, the byte order mark *)
Definition RuneError : rune := 65533.        (* utf8.RuneError *)

(** [s.Whitespace = 1 << '\t'] *)
Definition Whitespace : Z := Z.shiftl 1 tokenTab.

(** The runes of an ASCII literal, to write inputs the way the tests do. *)
Fixpoint runes (s : string) : gostring :=
  match s with
  | EmptyString => []
  | String a r => Z.of_N (N_of_ascii a) :: runes r
  end.

(** ** [unicode/utf8] and [bytes.Buffer] *)

(** [utf8.ValidRune] *)
Definition ValidRune (r : rune) : bool :=
  ((0 <=? r) && (r <? 55296)) || ((57343 <? r) && (r <=? 1114111)).

(** [buffer.WriteRune(r)]: a rune that cannot be encoded is written as
    [utf8.RuneError]. *)
Definition WriteRune (buffer : gostring) (r : rune) : gostring :=
  buffer ++ [if ValidRune r then r else RuneError].

(** ** [strings.TrimLeft] and [strings.TrimRight] *)

Definition inCutset (cutset : gostring) (r : rune) : bool :=
  existsb (Z.eqb r) cutset.

Fixpoint TrimLeft (s cutset : gostring) : gostring :=
  match s with
  | [] => []
  | r :: s' => if inCutset cutset r then TrimLeft s' cutset else s
  end.

Definition TrimRight (s cutset : gostring) : gostring :=
  rev (TrimLeft (rev s) cutset).

(** ** [text/scanner], as configured by the package

    [Mode = ScanStrings] and [Whitespace = 1 << '\t'].  The position kept is
    what [Position.String] prints: line and column. *)

Record Position := mkPosition { Line : Z; Column : Z }.

Record Scanner := mkScanner {
  src : gostring;      (* the source not yet read by next() *)
  ch : rune;           (* the character last read (look-ahead); -2 at first *)
  line : Z;
  column : Z;
  lastLineLen : Z;
  lastCharLen : Z;     (* 0 when nothing was read or end was reached *)
  tokBuf : gostring    (* the source between tokPos and the look-ahead *)
}.

(** [new(scanner.Scanner).Init(r)] *)
Definition Init (r : gostring) : Scanner :=
  {| src := r; ch := -2; line := 1; column := 0;
     lastLineLen := 0; lastCharLen := 0; tokBuf := [] |}.

(** [s.next()]: reads one character.  The character read before it, if any,
    now lies before the look-ahead and so belongs to the token text. *)
Definition next (s : Scanner) : Scanner :=
  let tb := if 0 <? lastCharLen s then tokBuf s ++ [ch s] else tokBuf s in
  match src s with
  | [] =>
      {| src := []; ch := EOF; line := line s;
         column := if 0 <? lastCharLen s then column s + 1 else column s;
         lastLineLen := lastLineLen s; lastCharLen := 0; tokBuf := tb |}
  | c :: rest =>
      if c =? tokenLF then
        {| src := rest; ch := c; line := line s + 1; column := 0;
           lastLineLen := column s + 1; lastCharLen := 1; tokBuf := tb |}
      else
        {| src := rest; ch := c; line := line s; column := column s + 1;
           lastLineLen := lastLineLen s; lastCharLen := 1; tokBuf := tb |}
  end.

(** [s.Peek()]: the look-ahead, read on the first call (a leading byte order
    mark is skipped). *)
Definition Peek (s : Scanner) : rune * Scanner :=
  if ch s =? -2 then
    let s1 := next s in
    let s2 := if ch s1 =? BOM then next s1 else s1 in
    (ch s2, s2)
  else (ch s, s).

(** [s.Pos()]: the position of the look-ahead. *)
Definition Pos (s : Scanner) : Position :=
  if 0 <? column s then mkPosition (line s) (column s)
  else if 0 <? lastLineLen s then mkPosition (line s - 1) (lastLineLen s)
  else mkPosition 1 1.

(** [s.TokenText()] *)
Definition TokenText (s : Scanner) : gostring := tokBuf s.

Definition isWhitespace (c : rune) : bool := Z.testbit Whitespace c.

(** [for s.Whitespace&(1<<uint(ch)) != 0 { ch = s.next() }] *)
Fixpoint skipWhitespace (fuel : nat) (s : Scanner) : Scanner :=
  match fuel with
  | O => s
  | S fuel =>
      if isWhitespace (ch s) then skipWhitespace fuel (next s) else s
  end.

Definition lower (c : rune) : rune := Z.lor 32 c.

Definition digitVal (c : rune) : Z :=
  if (48 <=? c) && (c <=? 57) then c - 48
  else if (97 <=? lower c) && (lower c <=? 102) then lower c - 97 + 10
  else 16.

(** [s.scanDigits(ch, base, n)] *)
Fixpoint scanDigits (s : Scanner) (base : Z) (n : nat) : Scanner :=
  match n with
  | O => s
  | S n' => if digitVal (ch s) <? base then scanDigits (next s) base n' else s
  end.

(** [s.scanEscape(quote)], the quote being the double quote *)
Definition scanEscape (s : Scanner) : Scanner :=
  let s := next s in
  let c := ch s in
  if existsb (Z.eqb c) [97; 98; 102; 110; 114; 116; 118; tokenBackslash; tokenQuote]
  then next s
  else if (48 <=? c) && (c <=? 55) then scanDigits s 8 3
  else if c =? 120 then scanDigits (next s) 16 2
  else if c =? 117 then scanDigits (next s) 16 4
  else if c =? 85 then scanDigits (next s) 16 8
  else s.

(** The loop of [s.scanString(quote)], entered after the opening quote. *)
Fixpoint scanStringLoop (fuel : nat) (s : Scanner) : Scanner :=
  match fuel with
  | O => s
  | S fuel =>
      if ch s =? tokenQuote then s
      else if (ch s =? tokenLF) || (ch s <? 0) then s
      else if ch s =? tokenBackslash then scanStringLoop fuel (scanEscape s)
      else scanStringLoop fuel (next s)
  end.

Definition scanString (s : Scanner) : Scanner :=
  let s := next s in
  scanStringLoop (2 + length (src s)) s.

Definition resetToken (s : Scanner) : Scanner :=
  {| src := src s; ch := ch s; line := line s; column := column s;
     lastLineLen := lastLineLen s; lastCharLen := lastCharLen s;
     tokBuf := [] |}.

(** [s.Scan()].  With [Mode = ScanStrings] every character but the double
    quote is a token of its own: identifiers, numbers, comments, character
    and raw string literals are not recognised. *)
Definition Scan (s : Scanner) : rune * Scanner :=
  let s := snd (Peek s) in
  let s := skipWhitespace (2 + length (src s)) s in
  let s := resetToken s in
  let tok := ch s in
  if tok =? EOF then (EOF, s)
  else if tok =? tokenQuote then (TokString, next (scanString s))
  else (tok, next s).

(** ** The store: [type Ini struct { data map[string]map[string]string }] *)

Record Ini := mkIni { data : gmap (list Z) (gmap (list Z) (list Z)) }.

(** [NewIni()] / [newIni()] *)
Definition NewIni : Ini := mkIni ∅.

(** [ini.Get(section, key)]: a missing key reads as the zero string. *)
Definition Get (ini : Ini) (section key : gostring) : gostring :=
  match data ini !! section with
  | None => []
  | Some m => default [] (m !! key)
  end.

(** [ini.Has(section, key)] *)
Definition Has (ini : Ini) (section key : gostring) : bool :=
  match data ini !! section with
  | None => false
  | Some m =>
      match m !! key with
      | None => false
      | Some _ => true
      end
  end.

(** [ini.set(section, key, value)]; [set] and [Set] are reserved words here,
    hence the names [set_] and [Set_]. *)
Definition set_ (ini : Ini) (section key value : gostring) : Ini :=
  let d :=
    match data ini !! section with
    | None => <[section := ∅]> (data ini)
    | Some _ => data ini
    end in
  mkIni (<[section := <[key := value]> (default ∅ (d !! section))]> d).

(** [ini.Set(section, key, value)]: [set] under the write lock. *)
Definition Set_ (ini : Ini) (section key value : gostring) : Ini :=
  set_ ini section key value.

(** ** The readers *)

(** The three [fmt.Errorf] calls of the package; each message ends with the
    position [pos.String()]. *)
Inductive error :=
  | ErrSectionNewline (pos : Position) (* While reading a section, got newline. *)
  | ErrKeyEOF (pos : Position)         (* While reading a key, got EOF. *)
  | ErrKeyString (pos : Position).     (* While reading a key, got string. *)

Definition errorPos (e : error) : Position :=
  match e with
  | ErrSectionNewline p | ErrKeyEOF p | ErrKeyString p => p
  end.

(** The pair [(string, error)] a reader returns. *)
Inductive result :=
  | Ok (value : gostring)
  | Err (e : error).

(** The loop of [readSection]; [buffer] is the [bytes.Buffer]. *)
Fixpoint readSectionLoop (fuel : nat) (s : Scanner) (buffer : gostring)
  : option (result * Scanner) :=
  match fuel with
  | O => None
  | S fuel =>
      let pos := Pos s in
      let '(token, s) := Scan s in
      if token =? tokenSectionStart then readSectionLoop fuel s buffer
      else if token =? tokenSectionStop then Some (Ok buffer, s)
      else if (token =? tokenLF) || (token =? tokenCR) then
        Some (Err (ErrSectionNewline pos), s)
      else readSectionLoop fuel s (WriteRune buffer token)
  end.

Definition readSection (fuel : nat) (s : Scanner) : option (result * Scanner) :=
  readSectionLoop fuel s [].

(** The loop of [readValue]. *)
Fixpoint readValueLoop (fuel : nat) (s : Scanner) (buffer : gostring)
  : option (result * Scanner) :=
  match fuel with
  | O => None
  | S fuel =>
      let '(token, s) := Scan s in
      if token =? EOF then Some (Ok buffer, s)
      else if token =? TokString then
        Some (Ok (TrimRight (TrimLeft (TokenText s) [tokenQuote]) [tokenQuote]), s)
      else if token =? tokenLF then Some (Ok buffer, s)
      else if token =? tokenCR then readValueLoop fuel s buffer
      else if token =? tokenSpace then
        if Nat.eqb (length buffer) 0 then readValueLoop fuel s buffer
        else readValueLoop fuel s (WriteRune buffer token)
      else readValueLoop fuel s (WriteRune buffer token)
  end.

Definition readValue (fuel : nat) (s : Scanner) : option (result * Scanner) :=
  readValueLoop fuel s [].

(** The loop of [readKey]. *)
Fixpoint readKeyLoop (fuel : nat) (s : Scanner) (buffer : gostring)
  : option (result * Scanner) :=
  match fuel with
  | O => None
  | S fuel =>
      let pos := Pos s in
      let '(token, s) := Scan s in
      if token =? EOF then Some (Err (ErrKeyEOF pos), s)
      else if token =? tokenSpace then readKeyLoop fuel s buffer
      else if token =? tokenEqual then Some (Ok buffer, s)
      else if token =? TokString then Some (Err (ErrKeyString pos), s)
      else readKeyLoop fuel s (WriteRune buffer token)
  end.

Definition readKey (fuel : nat) (s : Scanner) : option (result * Scanner) :=
  readKeyLoop fuel s [].

(** [readCommentLine]: scans until a line feed token. *)
Fixpoint readCommentLine (fuel : nat) (s : Scanner) : option Scanner :=
  match fuel with
  | O => None
  | S fuel =>
      let '(token, s) := Scan s in
      if token =? tokenLF then Some s else readCommentLine fuel s
  end.

(** The loop of [ReadFrom] and of [Load]: the store, the current section and
    the scanner are the loop's state.  The result is the store as the loop
    left it and the error, if any. *)
Fixpoint readLoop (fuel : nat) (s : Scanner) (currentSection : gostring)
  (ini : Ini) : option (Ini * option error) :=
  match fuel with
  | O => None
  | S fuel =>
      let '(token, s) := Peek s in
      if token =? EOF then Some (ini, None)
      else if (token =? tokenCommentClassic) || (token =? tokenCommentHash) then
        match readCommentLine fuel s with
        | None => None
        | Some s => readLoop fuel s currentSection ini
        end
      else if (token =? tokenLF) || (token =? tokenCR) then
        readLoop fuel (snd (Scan s)) currentSection ini
      else if token =? tokenSectionStart then
        match readSection fuel s with
        | None => None
        | Some (Err err, _) => Some (ini, Some err)
        | Some (Ok section, s) => readLoop fuel s section ini
        end
      else
        match readKey fuel s with
        | None => None
        | Some (Err err, _) => Some (ini, Some err)
        | Some (Ok key, s) =>
            match readValue fuel s with
            | None => None
            | Some (Err err, _) => Some (ini, Some err)
            | Some (Ok value, s) =>
                readLoop fuel s currentSection (set_ ini currentSection key value)
            end
        end
  end.

(** [ini.ReadFrom(r)]: the receiver after the call, the [int64] and the
    error returned. *)
Definition ReadFrom (fuel : nat) (ini : Ini) (r : gostring)
  : option (Ini * Z * option error) :=
  match readLoop fuel (Init r) [] ini with
  | None => None
  | Some (ini', None) => Some (ini', 0, None)
  | Some (ini', Some err) => Some (ini', -1, Some err)
  end.

(** [Load(r)]: the [*Ini] returned ([None] is [nil]) and the error. *)
Definition Load (fuel : nat) (r : gostring) : option (option Ini * option error) :=
  match readLoop fuel (Init r) [] NewIni with
  | None => None
  | Some (ini, None) => Some (Some ini, None)
  | Some (_, Some err) => Some (None, Some err)
  end.

Definition LF : gostring := [tokenLF].

(** ** The serializer *)

(** [utf8.RuneLen], for the byte counts. *)
Definition RuneLen (r : rune) : Z :=
  if r <? 0 then -1
  else if r <=? 127 then 1
  else if r <=? 2047 then 2
  else if (55296 <=? r) && (r <=? 57343) then -1
  else if r <=? 65535 then 3
  else if r <=? 1114111 then 4
  else -1.

(** [len(s)] of a string of valid runes, in bytes. *)
Definition byteLen (s : gostring) : Z :=
  foldr (λ r n, RuneLen r + n) 0 s.

Definition hexDigit (d : Z) : rune := if d <? 10 then 48 + d else 87 + d.

(** The digits [hex[r>>uint(s)&0xF]] for [s] from [4*(n-1)] down to 0. *)
Fixpoint hexDigits (n : nat) (r : rune) : gostring :=
  match n with
  | O => []
  | S n' => hexDigit (Z.land (Z.shiftr r (4 * Z.of_nat n')) 15) :: hexDigits n' r
  end.

Section Serializer.
(** [strconv] decides whether a rune above Latin-1 is printable with the
    tables [isPrint16], [isNotPrint16], [isPrint32] and [isNotPrint32],
    which are taken as a parameter. *)
Variable isPrintTable : rune → bool.

(** [strconv.IsPrint] *)
Definition IsPrint (r : rune) : bool :=
  if r <=? 255 then
    if (32 <=? r) && (r <=? 126) then true
    else if (161 <=? r) && (r <=? 255) then negb (r =? 173)
    else false
  else isPrintTable r.

(** [appendEscapedRune(buf, r, quote, false, false)] with the double quote
    as [quote]. *)
Definition escapedRune (r : rune) : gostring :=
  if (r =? tokenQuote) || (r =? tokenBackslash) then [tokenBackslash; r]
  else if IsPrint r then [r]
  else if r =? 7 then [tokenBackslash; 97]
  else if r =? 8 then [tokenBackslash; 98]
  else if r =? 12 then [tokenBackslash; 102]
  else if r =? 10 then [tokenBackslash; 110]
  else if r =? 13 then [tokenBackslash; 114]
  else if r =? 9 then [tokenBackslash; 116]
  else if r =? 11 then [tokenBackslash; 118]
  else if (r <? 32) || (r =? 127) then [tokenBackslash; 120] ++ hexDigits 2 r
  else if negb (ValidRune r) then [tokenBackslash; 117] ++ hexDigits 4 RuneError
  else if r <? 65536 then [tokenBackslash; 117] ++ hexDigits 4 r
  else [tokenBackslash; 85] ++ hexDigits 8 r.

(** [strconv.Quote(s)], which [%q] applies to a string. *)
Definition Quote (s : gostring) : gostring :=
  [tokenQuote] ++ concat (map escapedRune s) ++ [tokenQuote].

(** The text of [fmt.Fprintf(writer, "%s=%q\n", k, v)]. *)
Definition pairLine (k v : gostring) : gostring :=
  k ++ [tokenEqual] ++ Quote v ++ [tokenLF].

(** The text of [fmt.Fprintf(writer, "[%s]\n", section)]. *)
Definition headerLine (section : gostring) : gostring :=
  [tokenSectionStart] ++ section ++ [tokenSectionStop; tokenLF].

(** The sink: an [io.Writer] is a state with its [Write], which returns the
    count of bytes written and an error or none.  [fmt.Fprintf] formats the
    text and hands it to one [Write], whose results it returns. *)
Context {W E : Type}.
Variable Write : W → gostring → W * Z * option E.

(** A Go map is ranged over in an order of its own choosing:
    [rangeData] is the order in which [range ini.data] yields the
    sections, [rangeKeys section] the order in which ranging over
    [ini.data[section]] yields its keys. *)
Variable rangeData : list (list Z).
Variable rangeKeys : list Z → list (list Z).

(** The first loop: [for k := range data], [data] being [ini.data[""]].
    The result is the sink, the count [nw] and the error returned early,
    if any. *)
Fixpoint writeDefaultKeys (keys : list (list Z)) (m : gmap (list Z) (list Z))
    (w : W) (nw : Z) : W * Z * option E :=
  match keys with
  | [] => (w, nw, None)
  | k :: keys =>
      let '(w, n, err) := Write w (pairLine k (default [] (m !! k))) in
      let nw := nw + n in
      match err with
      | Some e => (w, nw, Some e)
      | None => writeDefaultKeys keys m w nw
      end
  end.

(** The inner loop: [for k := range ini.data[section]], with [index]. *)
Fixpoint writeSectionKeys (keys : list (list Z)) (section : gostring)
    (ini : Ini) (index : Z) (w : W) (nw : Z) : W * Z * option E :=
  match keys with
  | [] => (w, nw, None)
  | k :: keys =>
      let '(w, nw, err) :=
        if index =? 0 then
          let '(w, n, err) := Write w (headerLine section) in
          (w, nw + n, err)
        else (w, nw, None) in
      match err with
      | Some e => (w, nw, Some e)
      | None =>
          let '(w, n, err) :=
            Write w (pairLine k
                       (default [] (default ∅ (data ini !! section) !! k))) in
          let nw := nw + n in
          match err with
          | Some e => (w, nw, Some e)
          | None => writeSectionKeys keys section ini (index + 1) w nw
          end
      end
  end.

(** The outer loop: [for section := range ini.data]. *)
Fixpoint writeSections (sections : list (list Z)) (ini : Ini) (w : W) (nw : Z)
    : W * Z * option E :=
  match sections with
  | [] => (w, nw, None)
  | section :: sections =>
      if decide (section = []) then writeSections sections ini w nw
      else
        match writeSectionKeys (rangeKeys section) section ini 0 w nw with
        | (w, nw, Some e) => (w, nw, Some e)
        | (w, nw, None) => writeSections sections ini w nw
        end
  end.

(** [ini.WriteTo(writer)]: the sink after the call, the [int64] and the
    error returned. *)
Definition WriteTo (ini : Ini) (w : W) : W * Z * option E :=
  let '(w, nw, err) :=
    match data ini !! [] with
    | Some m => writeDefaultKeys (rangeKeys []) m w 0
    | None => (w, 0, None)
    end in
  match err with
  | Some e => (w, nw, Some e)
  | None => writeSections rangeData ini w nw
  end.

(** *** What the serializer is to write *)

(** The lines of a named section: none when it has no key, else its header
    and a line for each key. *)
Definition sectionLines (ini : Ini) (section : gostring) : list (list Z) :=
  match rangeKeys section with
  | [] => []
  | keys =>
      headerLine section ::
      map (λ k, pairLine k (default [] (default ∅ (data ini !! section) !! k))) keys
  end.

(** The lines of the default section, which has no header. *)
Definition defaultLines (ini : Ini) : list (list Z) :=
  match data ini !! [] with
  | Some m => map (λ k, pairLine k (default [] (m !! k))) (rangeKeys [])
  | None => []
  end.

(** All the lines: the default section first, then the named sections in
    the order of [rangeData]. *)
Definition outputLines (ini : Ini) : list (list Z) :=
  defaultLines ini
  ++ concat (map (sectionLines ini)
               (List.filter (λ s, negb (bool_decide (s = []))) rangeData)).

(** Writing lines one [Write] each, adding up the counts, until a [Write]
    fails: the error is returned at once and nothing more is written. *)
Fixpoint emit (lines : list (list Z)) (w : W) (nw : Z) : W * Z * option E :=
  match lines with
  | [] => (w, nw, None)
  | l :: lines =>
      let '(w, n, err) := Write w l in
      match err with
      | Some e => (w, nw + n, Some e)
      | None => emit lines w (nw + n)
      end
  end.

End Serializer.

(** * The vocabulary of the statements *)

(** A call [Set(section, key, value)], as data. *)
Record setCall := mkSetCall {
  scSection : gostring;
  scKey : gostring;
  scValue : gostring
}.

Definition applySet (ini : Ini) (c : setCall) : Ini :=
  Set_ ini (scSection c) (scKey c) (scValue c).

(** The store after a sequence of [Set] calls, the first call first. *)
Definition applySets (ini : Ini) (calls : list setCall) : Ini :=
  foldl applySet ini calls.

Definition setsKey (s k : gostring) (c : setCall) : Prop :=
  scSection c = s ∧ scKey c = k.

(** The position of the character that follows [c] at position [p]. *)
Definition advance (p : Position) (c : rune) : Position :=
  if c =? tokenLF then mkPosition (Line p + 1) 1
  else mkPosition (Line p) (Column p + 1).

(** The position reached from [p] once [text] is passed. *)
Definition positionAfter (p : Position) (text : gostring) : Position :=
  foldl advance p text.

(** The text the scanner has still to deliver, look-ahead included. *)
Definition lookingAt (s : Scanner) (text : gostring) : Prop :=
  match text with
  | [] => ch s = EOF ∧ src s = [] ∧ lastCharLen s = 0
  | c :: rest => ch s = c ∧ src s = rest ∧ lastCharLen s = 1
  end.

(** The line and column counters stand for position [p] of the look-ahead. *)
Definition posInv (s : Scanner) (p : Position) : Prop :=
  0 < Column p ∧
  if ch s =? tokenLF then
    column s = 0 ∧ lastLineLen s = Column p ∧ line s = Line p + 1
  else if ch s =? EOF then Pos s = p
  else column s = Column p ∧ line s = Line p.

Definition positioned (s : Scanner) (p : Position) (text : gostring) : Prop :=
  lookingAt s text ∧ posInv s p.

(** [Scan] once the white space is skipped. *)
Definition scanToken (s : Scanner) : rune * Scanner :=
  let s := resetToken s in
  if ch s =? EOF then (EOF, s)
  else if ch s =? tokenQuote then (TokString, next (scanString s))
  else (ch s, next s).

(** The first character of a text, when there is one, is a character. *)
Definition headOk (text : gostring) : Prop :=
  match text with
  | [] => True
  | c :: _ => 0 <= c
  end.

(** The text before the look-ahead of the [Scan] that ends a run: the
    scanner skips the tabs that precede a token only inside that [Scan], so
    [s.Pos()] taken before it is the position of the first of them. *)
Definition beforeToken (text : gostring) : gostring := TrimRight text [tokenTab].

(** A character of a key run: any character but the equals sign and the
    double quote. *)
Definition keyRunChar (c : rune) : Prop :=
  ValidRune c = true ∧ c ≠ tokenEqual ∧ c ≠ tokenQuote.

(** What [readKey] keeps of a run: spaces are dropped by the reader, tabs by
    the scanner. *)
Definition keptInKey (c : rune) : bool :=
  negb (c =? tokenSpace) && negb (c =? tokenTab).

(** The error [readKey] returns when a run ends in [tail]. *)
Definition keyError (tail : gostring) (pos : Position) : error :=
  match tail with
  | [] => ErrKeyEOF pos
  | _ :: _ => ErrKeyString pos
  end.

(** The scanner of a fresh [ReadFrom] or [Load], once the loop has peeked:
    it stands at line 1, column 1, before the whole input (a leading byte
    order mark apart). *)
Definition start (r : gostring) : Scanner := snd (Peek (Init r)).

(** A character of an unquoted value run: any character but the line feed
    and the double quote. *)
Definition valueRunChar (c : rune) : Prop :=
  ValidRune c = true ∧ c ≠ tokenLF ∧ c ≠ tokenQuote.

(** Carriage returns are dropped by the reader, tabs by the scanner. *)
Definition keptInValue (c : rune) : bool :=
  negb (c =? tokenCR) && negb (c =? tokenTab).

(** The value of an unquoted run: what is kept of it, less the leading
    spaces. *)
Definition unquotedValue (run : gostring) : gostring :=
  TrimLeft (List.filter keptInValue run) [tokenSpace].

(** The buffer of [readValue] once [run] is read on top of [buffer]. *)
Definition accumulate (buffer run : gostring) : gostring :=
  match buffer with
  | [] => unquotedValue run
  | _ :: _ => buffer ++ List.filter keptInValue run
  end.

(** A character of a section header: any character but the closing bracket,
    the line feed, the carriage return and the double quote. *)
Definition sectionRunChar (c : rune) : Prop :=
  ValidRune c = true ∧ c ≠ tokenSectionStop ∧ c ≠ tokenLF ∧ c ≠ tokenCR
  ∧ c ≠ tokenQuote.

(** Opening brackets are dropped by the reader, tabs by the scanner. *)
Definition keptInSection (c : rune) : bool :=
  negb (c =? tokenSectionStart) && negb (c =? tokenTab).

(** What [readSection] returns at the token [t] that ends the header. *)
Definition sectionEnd (t : rune) (buffer : gostring) (pos : Position) : result :=
  if t =? tokenSectionStop then Ok buffer else Err (ErrSectionNewline pos).

(** A character that stands for itself inside a string literal. *)
Definition stringChar (c : rune) : Prop :=
  0 <= c ∧ c ≠ tokenQuote ∧ c ≠ tokenBackslash ∧ c ≠ tokenLF.

(** The two trims of [readValue] on a token text. *)
Definition trimQuotes (text : gostring) : gostring :=
  TrimRight (TrimLeft text [tokenQuote]) [tokenQuote].

(** A character of a comment that no line feed ends. *)
Definition commentChar (c : rune) : Prop :=
  0 <= c ∧ c ≠ tokenLF ∧ c ≠ tokenQuote.

(** The [set] calls the loop of [ReadFrom] makes, in order, and the error it
    ends with, if any: [readLoop] without the store. *)
Fixpoint readCalls (fuel : nat) (s : Scanner) (currentSection : gostring)
  : option (list setCall * option error) :=
  match fuel with
  | O => None
  | S fuel =>
      let '(token, s) := Peek s in
      if token =? EOF then Some ([], None)
      else if (token =? tokenCommentClassic) || (token =? tokenCommentHash) then
        match readCommentLine fuel s with
        | None => None
        | Some s => readCalls fuel s currentSection
        end
      else if (token =? tokenLF) || (token =? tokenCR) then
        readCalls fuel (snd (Scan s)) currentSection
      else if token =? tokenSectionStart then
        match readSection fuel s with
        | None => None
        | Some (Err err, _) => Some ([], Some err)
        | Some (Ok section, s) => readCalls fuel s section
        end
      else
        match readKey fuel s with
        | None => None
        | Some (Err err, _) => Some ([], Some err)
        | Some (Ok key, s) =>
            match readValue fuel s with
            | None => None
            | Some (Err err, _) => Some ([], Some err)
            | Some (Ok value, s) =>
                match readCalls fuel s currentSection with
                | None => None
                | Some (calls, err) =>
                    Some (mkSetCall currentSection key value :: calls, err)
                end
            end
        end
  end.

(** [bytes.Buffer] as a sink: [Write] appends and cannot fail. *)
Definition bufferWrite (buffer p : gostring) : list Z * Z * option Empty_set :=
  (buffer ++ p, byteLen p, None).

(** The ranges visit every section of the store, and every key of a
    section, once. *)
Definition rangeOrder (ini : Ini) (rangeData : list (list Z))
    (rangeKeys : list Z → list (list Z)) : Prop :=
  rangeData ≡ₚ (map_to_list (data ini)).*1 ∧
  ∀ section m, data ini !! section = Some m →
    rangeKeys section ≡ₚ (map_to_list m).*1.

(** A key the reader reads back as it is: no space, tab, equals sign or
    double quote in it, and a first character that starts neither a comment,
    a header nor a blank line (nor is a byte order mark). *)
Definition keyChar (c : rune) : Prop :=
  ValidRune c = true ∧ c ≠ tokenEqual ∧ c ≠ tokenQuote ∧ c ≠ tokenSpace
  ∧ c ≠ tokenTab.

Definition keyStart (c : rune) : Prop :=
  c ≠ tokenCommentClassic ∧ c ≠ tokenCommentHash ∧ c ≠ tokenSectionStart
  ∧ c ≠ tokenLF ∧ c ≠ tokenCR ∧ c ≠ BOM.

Definition keyPlain (k : gostring) : Prop :=
  Forall keyChar k ∧ keyStart (hd tokenEqual k).

(** A section name the reader reads back as it is. *)
Definition sectionChar (c : rune) : Prop :=
  ValidRune c = true ∧ c ≠ tokenSectionStart ∧ c ≠ tokenSectionStop
  ∧ c ≠ tokenLF ∧ c ≠ tokenCR ∧ c ≠ tokenQuote ∧ c ≠ tokenTab.

Definition sectionPlain (section : gostring) : Prop := Forall sectionChar section.

(** What the serializer writes: a line [key="value"] or a header. *)
Inductive item :=
  | Pair (k v : gostring)
  | Header (section : gostring).

(** The [set] calls that reading a sequence of items back makes. *)
Fixpoint callsOfItems (cur : gostring) (items : list item) : list setCall :=
  match items with
  | [] => []
  | Pair k v :: items => mkSetCall cur k v :: callsOfItems cur items
  | Header section :: items => callsOfItems section items
  end.

Section Vocabulary.
Variable isPrintTable : rune → bool.
Variable rangeData : list (list Z).
Variable rangeKeys : list Z → list (list Z).

(** A value that [strconv.Quote] leaves as it is between the quotes:
    printable characters other than the double quote and the backslash. *)
Definition valueChar (c : rune) : Prop :=
  IsPrint isPrintTable c = true ∧ c ≠ tokenQuote ∧ c ≠ tokenBackslash.

Definition valuePlain (v : gostring) : Prop := Forall valueChar v.

(** A store without pathological characters. *)
Definition storePlain (ini : Ini) : Prop :=
  ∀ section m, data ini !! section = Some m →
    sectionPlain section ∧
    ∀ k v, m !! k = Some v → keyPlain k ∧ valuePlain v.

Definition itemText (i : item) : gostring :=
  match i with
  | Pair k v => pairLine isPrintTable k v
  | Header section => headerLine section
  end.

Definition itemPlain (i : item) : Prop :=
  match i with
  | Pair k v => keyPlain k ∧ valuePlain v
  | Header section => sectionPlain section
  end.

(** The value [ini.data[section][k]] that the serializer reads. *)
Definition valueAt (ini : Ini) (section k : gostring) : gostring :=
  default [] (default ∅ (data ini !! section) !! k).

Definition sectionItems (ini : Ini) (section : gostring) : list item :=
  match rangeKeys section with
  | [] => []
  | keys => Header section :: map (λ k, Pair k (valueAt ini section k)) keys
  end.

Definition defaultItems (ini : Ini) : list item :=
  match data ini !! [] with
  | Some m => map (λ k, Pair k (valueAt ini [] k)) (rangeKeys [])
  | None => []
  end.

Definition namedSections : list (list Z) :=
  List.filter (λ s, negb (bool_decide (s = []))) rangeData.

(** The items [WriteTo] writes for a store. *)
Definition itemsOf (ini : Ini) : list item :=
  defaultItems ini ++ concat (map (sectionItems ini) namedSections).

(** The calls that reading the items of a store back makes. *)
Definition callsOfKeys (ini : Ini) (section : gostring) (keys : list (list Z))
    : list setCall :=
  map (λ k, mkSetCall section k (valueAt ini section k)) keys.

(** The lines [key="value"] of a section, in the order of [map_to_list]. *)
Definition pairLinesOf (m : gmap (list Z) (list Z)) : list (list Z) :=
  map (λ kv, pairLine isPrintTable kv.1 kv.2) (map_to_list m).

End Vocabulary.

(** ** The text of the lines, spelled out *)

(** The lines that [WriteTo] is to write, character by character, written
    down from the format [key="value"] and [[section]] and from the quoting
    convention of the language's string literals, without the definitions
    of the serializer above: the theorem on [WriteTo] compares the two. *)

(** The characters that are written as a backslash and a letter, with the
    letter: bell, backspace, form feed, line feed, carriage return, tab,
    vertical tab, backslash and double quote. *)
Definition namedEscapes : list (rune * rune) :=
  [(7, 97); (8, 98); (12, 102); (10, 110); (13, 114); (9, 116); (11, 118);
   (92, 92); (34, 34)].

Definition escapeLetter (c : rune) : option rune :=
  snd <$> List.find (λ e, fst e =? c) namedEscapes.

Definition hexLetters : gostring := runes "0123456789abcdef".

(** [r] in base 16 on [n] digits, the most significant first. *)
Fixpoint hexOf (n : nat) (r : Z) : gostring :=
  match n with
  | O => []
  | S n' => hexOf n' (r / 16) ++ [nth (Z.to_nat (r mod 16)) hexLetters 0]
  end.

(** A character inside a quoted value: the backslash and its letter when it
    has one; itself when it is printable; else backslash, [x] and two
    digits for a control character, backslash, [u] and four digits for
    another character of the basic plane (those of U+FFFD when the
    character is no valid code point), backslash, [U] and eight digits
    beyond it. *)
Definition quotedChar (printable : rune → bool) (c : rune) : gostring :=
  match escapeLetter c with
  | Some letter => [92; letter]
  | None =>
      if printable c then [c]
      else if (c <? 32) || (c =? 127) then [92; 120] ++ hexOf 2 c
      else if ((55296 <=? c) && (c <=? 57343)) || (1114111 <? c)
           then [92; 117] ++ hexOf 4 65533
      else if c <? 65536 then [92; 117] ++ hexOf 4 c
      else [92; 85] ++ hexOf 8 c
  end.

(** The value between double quotes. *)
Definition quotedValue (printable : rune → bool) (v : gostring) : gostring :=
  [34] ++ concat (map (quotedChar printable) v) ++ [34].

(** The line [key="value"]: the key, the equals sign, the quoted value and a
    line feed. *)
Definition pairText (printable : rune → bool) (k v : gostring) : gostring :=
  k ++ [61] ++ quotedValue printable v ++ [10].

(** The line [[section]]: the name between brackets and a line feed. *)
Definition headerText (section : gostring) : gostring :=
  [91] ++ section ++ [93; 10].

(** The lines [key="value"] of the pairs of a section. *)
Definition pairTextsOf (printable : rune → bool) (m : gmap (list Z) (list Z))
    : list (list Z) :=
  map (λ kv, pairText printable kv.1 kv.2) (map_to_list m).

(** The store of the witness: the default section and a named one. *)
Definition exampleStore : Ini :=
  Set_ (Set_ (Set_ NewIni [] (runes "foo") (runes "bar"))
          (runes "PHP") (runes "engine") (runes "On"))
    (runes "PHP") (runes "a") (runes "b c").

Definition exampleRangeData : list (list Z) := [runes "PHP"; []].

Definition exampleRangeKeys (section : gostring) : list (list Z) :=
  if decide (section = []) then [runes "foo"] else [runes "a"; runes "engine"].

(** A sink that takes a given number of writes and then fails. *)
Definition limitedWrite (w : list Z * nat) (p : gostring)
    : (list Z * nat) * Z * option unit :=
  match w.2 with
  | O => (w, 0, Some tt)
  | S n => ((w.1 ++ p, n), byteLen p, None)
  end.

(** Enough fuel for a loop of the scanner in state [s]. *)
Definition enoughFuel (s : Scanner) (n : nat) : Prop :=
  (length (src s) + 2 ≤ n)%nat ∨ (ch s = EOF ∧ src s = [] ∧ (1 ≤ n)%nat).

(** ** More vocabulary: the store *)


(** ** More vocabulary: the names that reading sets *)

(** What no character of a key read by [readKey] is. *)
Definition cleanKeyChar (c : rune) : Prop :=
  c ≠ tokenSpace ∧ c ≠ tokenTab ∧ c ≠ tokenEqual ∧ c ≠ tokenQuote.

(** What no character of a section name read by [readSection] is. *)
Definition cleanSectionChar (c : rune) : Prop :=
  c ≠ tokenSectionStart ∧ c ≠ tokenSectionStop ∧ c ≠ tokenLF ∧ c ≠ tokenCR
  ∧ c ≠ tokenTab ∧ c ≠ tokenQuote.

Definition cleanCall (c : setCall) : Prop :=
  Forall cleanKeyChar (scKey c) ∧ Forall cleanSectionChar (scSection c).

(** ** More vocabulary: string literals *)

(** The characters that may follow a backslash with nothing more. *)
Definition simpleEscapes : gostring :=
  [97; 98; 102; 110; 114; 116; 118; tokenBackslash; tokenQuote].

(** What a literal is made of between its quotes: a character that stands
    for itself, a backslash with a character of [simpleEscapes], or a
    backslash with [x], [u] or [U] and 2, 4 or 8 hexadecimal digits. *)
Inductive litUnit :=
  | UChar (c : rune)
  | UEscape (c : rune)
  | UHex (letter : rune) (digits : gostring).

Definition unitText (u : litUnit) : gostring :=
  match u with
  | UChar c => [c]
  | UEscape c => [tokenBackslash; c]
  | UHex letter digits => tokenBackslash :: letter :: digits
  end.

Definition literalText (units : list litUnit) : gostring :=
  concat (map unitText units).

Definition hexLen (letter : rune) : nat :=
  if letter =? 120 then 2 else if letter =? 117 then 4 else 8.

Definition hexChar (d : rune) : Prop := 0 <= d ∧ digitVal d < 16.

Definition unitOk (u : litUnit) : Prop :=
  match u with
  | UChar c => stringChar c
  | UEscape c => existsb (Z.eqb c) simpleEscapes = true
  | UHex letter digits =>
      (letter = 120 ∨ letter = 117 ∨ letter = 85)
      ∧ length digits = hexLen letter ∧ Forall hexChar digits
  end.

(** Where the scanner stops a literal: at the closing quote, at a line feed
    or at the end of the input. *)
Definition literalEnd (tail : gostring) : Prop :=
  tail = [] ∨ ∃ rest, tail = tokenQuote :: rest ∨ tail = tokenLF :: rest.

(** ** More vocabulary: the files that are read to the end *)

(** What a file that [ReadFrom] reads without an error is made of: a line
    feed or a carriage return on its own; a comment with the line feed that
    ends it; a section header from bracket to bracket; a key with an
    unquoted value, up to the line feed or the end of the input that ends
    the value; a key with a value that holds a literal, up to the closing
    quote. *)
Inductive element :=
  | EBlank (c : rune)
  | EComment (c : rune) (text : gostring)
  | EHeader (run : gostring)
  | EPair (krun vrun : gostring)
  | EQuoted (krun pre : gostring) (units : list litUnit).

Definition elementText (e : element) : gostring :=
  match e with
  | EBlank c => [c]
  | EComment c text => c :: text ++ [tokenLF]
  | EHeader run => tokenSectionStart :: run ++ [tokenSectionStop]
  | EPair krun vrun => krun ++ tokenEqual :: vrun
  | EQuoted krun pre units =>
      krun ++ tokenEqual :: pre ++ tokenQuote :: literalText units ++ [tokenQuote]
  end.

Definition fileText (elems : list element) : gostring :=
  concat (map elementText elems).

(** A first character that the loop of [ReadFrom] takes for the start of a
    key. *)
Definition pairStart (c : rune) : Prop :=
  0 <= c ∧ c ≠ tokenCommentClassic ∧ c ≠ tokenCommentHash ∧ c ≠ tokenLF
  ∧ c ≠ tokenCR ∧ c ≠ tokenSectionStart.

Definition elementOk (e : element) : Prop :=
  match e with
  | EBlank c => c = tokenLF ∨ c = tokenCR
  | EComment c text =>
      (c = tokenCommentClassic ∨ c = tokenCommentHash) ∧ Forall commentChar text
  | EHeader run => Forall sectionRunChar run
  | EPair krun vrun =>
      Forall keyRunChar krun ∧ pairStart (hd tokenEqual krun)
      ∧ Forall valueRunChar vrun
  | EQuoted krun pre units =>
      Forall keyRunChar krun ∧ pairStart (hd tokenEqual krun)
      ∧ Forall valueRunChar pre ∧ Forall unitOk units
  end.

(** An unquoted value runs to the end of its line: what follows it in the
    file is a line feed or nothing. *)
Definition lineEnds (e : element) (rest : list element) : Prop :=
  match e with
  | EPair _ _ => rest = [] ∨ ∃ rest', rest = EBlank tokenLF :: rest'
  | _ => True
  end.

Fixpoint wellFormed (elems : list element) : Prop :=
  match elems with
  | [] => True
  | e :: rest => elementOk e ∧ lineEnds e rest ∧ wellFormed rest
  end.

(** The [set] call an element stands for, in the section of its place. *)
Definition callsOfElement (cur : gostring) (e : element) : list setCall :=
  match e with
  | EPair krun vrun =>
      [mkSetCall cur (List.filter keptInKey krun) (unquotedValue vrun)]
  | EQuoted krun pre units =>
      [mkSetCall cur (List.filter keptInKey krun)
         (TrimRight (literalText units) [tokenQuote])]
  | _ => []
  end.

(** The current section once an element is read. *)
Definition sectionAfter (cur : gostring) (e : element) : gostring :=
  match e with
  | EHeader run => List.filter keptInSection run
  | _ => cur
  end.

Fixpoint callsOf (cur : gostring) (elems : list element) : list setCall :=
  match elems with
  | [] => []
  | e :: rest => callsOfElement cur e ++ callsOf (sectionAfter cur e) rest
  end.

(** ** More vocabulary: the round trip of any value *)

(** What [strconv.Quote] puts between the quotes. *)
Definition escaped (isPrintTable : rune → bool) (v : gostring) : gostring :=
  concat (map (escapedRune isPrintTable) v).

(** What reading gives for the line [key="value"] written for [v]: the text
    between the quotes as it is written, less the quotes it ends with. *)
Definition readBack (isPrintTable : rune → bool) (v : gostring) : gostring :=
  TrimRight (escaped isPrintTable v) [tokenQuote].

Definition readBackCall (isPrintTable : rune → bool) (c : setCall) : setCall :=
  mkSetCall (scSection c) (scKey c) (readBack isPrintTable (scValue c)).

(** A store whose section names and keys are read back as they are,
    whatever its values. *)
Definition namesPlain (ini : Ini) : Prop :=
  ∀ section m, data ini !! section = Some m →
    sectionPlain section ∧ ∀ k v, m !! k = Some v → keyPlain k.

Definition itemNames (i : item) : Prop :=
  match i with
  | Pair k _ => keyPlain k
  | Header section => sectionPlain section
  end.

(** A store with a value that ends in a double quote. *)
Definition quoteStore : Ini :=
  Set_ NewIni [] (runes "k") (runes "a" ++ [tokenQuote]).

(** The current section once a sequence of elements is read. *)
Definition lastSection (cur : gostring) (elems : list element) : gostring :=
  foldl sectionAfter cur elems.

(** What may follow a sequence of elements: after an unquoted value, which
    runs to the end of its line, nothing. *)
Definition endOk (elems : list element) (tail : gostring) : Prop :=
  match last elems with
  | Some (EPair _ _) => tail = []
  | _ => True
  end.

(** Where reading fails: a key that the end of the input or a double quote
    ends before an equals sign, a header that a line feed or a carriage
    return ends before the closing bracket.  [syntaxError tail text mk]:
    reading the input [tail] fails once [text] is read, with the error
    [mk]. *)
Inductive syntaxError : gostring → gostring → (Position → error) → Prop :=
  | KeyAtEOF (run : gostring) :
      Forall keyRunChar run → pairStart (hd EOF run) →
      syntaxError run run ErrKeyEOF
  | KeyAtString (run rest : gostring) :
      Forall keyRunChar run → pairStart (hd tokenQuote run) →
      syntaxError (run ++ tokenQuote :: rest) run ErrKeyString
  | HeaderAtNewline (run rest : gostring) (c : rune) :
      Forall sectionRunChar run → c = tokenLF ∨ c = tokenCR →
      syntaxError (tokenSectionStart :: run ++ c :: rest)
        (tokenSectionStart :: run) ErrSectionNewline.

(** ** More vocabulary: comments that hold double quotes *)





(** * Properties *)

(** ** The store *)

Lemma data_set_ (ini : Ini) (section key value : gostring) :
  data (set_ ini section key value)
  = <[section := <[key := value]> (default ∅ (data ini !! section))]> (data ini).
Proof.
  unfold set_. destruct (data ini !! section) as [m|] eqn:E; simpl.
  - by rewrite E.
  - by rewrite lookup_insert_eq, insert_insert_eq.
Qed.

Lemma Get_set_ (ini : Ini) (s k v s' k' : gostring) :
  Get (set_ ini s k v) s' k' = if decide (s = s' ∧ k = k') then v else Get ini s' k'.
Proof.
  unfold Get. rewrite data_set_.
  destruct (decide (s = s')) as [->|Hs].
  - rewrite lookup_insert_eq.
    destruct (decide (k = k')) as [->|Hk].
    + rewrite lookup_insert_eq. by rewrite decide_True.
    + rewrite lookup_insert_ne by done.
      rewrite decide_False; [|intros [_ ?]; done].
      destruct (data ini !! s') as [m|]; simpl; [done|by rewrite lookup_empty].
  - rewrite lookup_insert_ne by done.
    by rewrite decide_False; [|intros [? _]; done].
Qed.

Lemma Has_set_ (ini : Ini) (s k v s' k' : gostring) :
  Has (set_ ini s k v) s' k' = if decide (s = s' ∧ k = k') then true else Has ini s' k'.
Proof.
  unfold Has. rewrite data_set_.
  destruct (decide (s = s')) as [->|Hs].
  - rewrite lookup_insert_eq.
    destruct (decide (k = k')) as [->|Hk].
    + rewrite lookup_insert_eq. by rewrite decide_True.
    + rewrite lookup_insert_ne by done.
      rewrite decide_False; [|intros [_ ?]; done].
      destruct (data ini !! s') as [m|]; simpl; [done|by rewrite lookup_empty].
  - rewrite lookup_insert_ne by done.
    by rewrite decide_False; [|intros [? _]; done].
Qed.

Lemma Get_applySets_other (calls : list setCall) (ini : Ini) (s k : gostring) :
  Forall (λ c, ¬ setsKey s k c) calls →
  Get (applySets ini calls) s k = Get ini s k.
Proof.
  revert ini. induction calls as [|c calls IH]; intros ini Hall; [done|].
  inversion Hall as [|? ? Hc Hrest]; subst. simpl.
  unfold applySets in IH. rewrite IH by done.
  unfold applySet, Set_. rewrite Get_set_. by rewrite decide_False.
Qed.

Lemma Has_applySets_other (calls : list setCall) (ini : Ini) (s k : gostring) :
  Forall (λ c, ¬ setsKey s k c) calls →
  Has (applySets ini calls) s k = Has ini s k.
Proof.
  revert ini. induction calls as [|c calls IH]; intros ini Hall; [done|].
  inversion Hall as [|? ? Hc Hrest]; subst. simpl.
  unfold applySets in IH. rewrite IH by done.
  unfold applySet, Set_. rewrite Has_set_. by rewrite decide_False.
Qed.

Lemma Has_applySets_mono (calls : list setCall) (ini : Ini) (s k : gostring) :
  Has ini s k = true → Has (applySets ini calls) s k = true.
Proof.
  revert ini. induction calls as [|c calls IH]; intros ini H; [done|].
  simpl. apply IH. unfold applySet, Set_. rewrite Has_set_.
  by destruct (decide _).
Qed.

Lemma Has_applySets_in (calls : list setCall) (ini : Ini) (c : setCall) :
  c ∈ calls → Has (applySets ini calls) (scSection c) (scKey c) = true.
Proof.
  revert ini. induction calls as [|c' calls IH]; intros ini Hin.
  - by apply elem_of_nil in Hin.
  - apply elem_of_cons in Hin as [->|Hin]; simpl.
    + apply Has_applySets_mono. unfold applySet, Set_. rewrite Has_set_.
      by rewrite decide_True.
    + by apply IH.
Qed.

(** C4. A section and key that no [Set] call named read as the empty string
    with [Get] and as absent with [Has], whatever calls were made on a new
    store; and right after [Set(s,k,v)], on any store, [Get(s,k)] is [v] and
    [Has(s,k)] is true, for all strings, the empty ones included. *)
Theorem store_accessor_contract :
  (∀ (calls : list setCall) (s k : gostring),
     Forall (λ c, ¬ setsKey s k c) calls →
     Get (applySets NewIni calls) s k = [] ∧
     Has (applySets NewIni calls) s k = false) ∧
  (∀ (ini : Ini) (s k v : gostring),
     Get (Set_ ini s k v) s k = v ∧ Has (Set_ ini s k v) s k = true).
Proof.
  split.
  - intros calls s k Hall.
    rewrite Get_applySets_other, Has_applySets_other by done.
    unfold Get, Has, NewIni. simpl. by rewrite lookup_empty.
  - intros ini s k v. unfold Set_. rewrite Get_set_, Has_set_.
    by rewrite !decide_True.
Qed.

Lemma store_accessor_contract_witness :
  (Get (applySets NewIni [mkSetCall [] (runes "foo") (runes "bar")]) (runes "bar") (runes "foo") = []
   ∧ Has (applySets NewIni [mkSetCall [] (runes "foo") (runes "bar")]) (runes "bar") (runes "foo") = false)
  ∧ (Get (Set_ NewIni [] [] []) [] [] = [] ∧ Has (Set_ NewIni [] [] []) [] [] = true).
Proof.
  split.
  - apply (proj1 store_accessor_contract).
    constructor; [|constructor]. unfold setsKey. simpl. intros [H _]. discriminate H.
  - apply (proj2 store_accessor_contract).
Defined.

(** ** The result of [ReadFrom] *)

(** C10. The [int64] of [ReadFrom] is no byte count: a call that returns
    without error returns 0 and a call that returns an error returns -1,
    whatever was read. *)
Theorem ReadFrom_int64 (fuel : nat) (ini : Ini) (r : gostring) :
  match ReadFrom fuel ini r with
  | Some (_, n, None) => n = 0
  | Some (_, n, Some _) => n = -1
  | None => True
  end.
Proof.
  unfold ReadFrom. destruct (readLoop fuel (Init r) [] ini) as [[ini' [e|]]|]; done.
Qed.

(** ** The scanner: what it reads and where it stands *)

Lemma isWhitespace_tab (c : rune) : isWhitespace c = (c =? tokenTab).
Proof.
  unfold isWhitespace, Whitespace, tokenTab.
  destruct (Z.ltb_spec c 0) as [Hneg|Hpos].
  - rewrite Z.testbit_neg_r by done. symmetry. apply Z.eqb_neq. lia.
  - rewrite Z.shiftl_1_l, Z.pow2_bits_eqb by lia. apply Z.eqb_sym.
Qed.

Lemma Pos_posInv (s : Scanner) (p : Position) : posInv s p → Pos s = p.
Proof.
  destruct p as [l j]. unfold posInv, Pos. simpl. intros [Hj H].
  destruct (ch s =? tokenLF).
  - destruct H as (-> & -> & ->). simpl.
    destruct (Z.ltb_spec 0 j); [|lia]. f_equal; lia.
  - destruct (ch s =? EOF); [done|]. destruct H as [-> ->].
    by destruct (Z.ltb_spec 0 j); [|lia].
Qed.

Lemma Pos_positioned (s : Scanner) (p : Position) (text : gostring) :
  positioned s p text → Pos s = p.
Proof. intros [_ H]. by apply Pos_posInv. Qed.

Lemma positionAfter_app (p : Position) (t1 t2 : gostring) :
  positionAfter p (t1 ++ t2) = positionAfter (positionAfter p t1) t2.
Proof. apply foldl_app. Qed.

Lemma positionAfter_step (p : Position) (t1 t2 : gostring) (c : rune) :
  positionAfter p (t1 ++ (c :: t2)) = positionAfter (advance (positionAfter p t1) c) t2.
Proof. by rewrite positionAfter_app. Qed.

Lemma next_cons (s : Scanner) (c : rune) (rest : gostring) :
  src s = c :: rest →
  next s =
  {| src := rest; ch := c;
     line := if c =? tokenLF then line s + 1 else line s;
     column := if c =? tokenLF then 0 else column s + 1;
     lastLineLen := if c =? tokenLF then column s + 1 else lastLineLen s;
     lastCharLen := 1;
     tokBuf := if 0 <? lastCharLen s then tokBuf s ++ [ch s] else tokBuf s |}.
Proof. intros H. unfold next. rewrite H. by destruct (c =? tokenLF). Qed.

Lemma next_nil (s : Scanner) :
  src s = [] →
  next s =
  {| src := []; ch := EOF; line := line s;
     column := if 0 <? lastCharLen s then column s + 1 else column s;
     lastLineLen := lastLineLen s; lastCharLen := 0;
     tokBuf := if 0 <? lastCharLen s then tokBuf s ++ [ch s] else tokBuf s |}.
Proof. intros H. unfold next. by rewrite H. Qed.

Lemma next_positioned (s : Scanner) (p : Position) (c : rune) (rest : gostring) :
  positioned s p (c :: rest) → c ≠ EOF →
  positioned (next s) (advance p c) rest ∧
  tokBuf (next s) = tokBuf s ++ [c].
Proof.
  destruct p as [pl pc].
  intros [(Hch & Hsrc & Hlen) [Hpc Hpos]] Hc. simpl in Hpc.
  unfold posInv in Hpos. rewrite Hch in Hpos. simpl in Hpos.
  rewrite (proj2 (Z.eqb_neq c EOF)) in Hpos by done.
  assert (Hcol : if c =? tokenLF
                 then column s = 0 ∧ line s = pl + 1
                 else column s = pc ∧ line s = pl).
  { destruct (c =? tokenLF); [by destruct Hpos as (? & _ & ?)|done]. }
  clear Hpos. unfold positioned, lookingAt, posInv, advance, Pos.
  destruct rest as [|c' rest].
  - rewrite (next_nil s Hsrc), Hlen, Hch. simpl.
    split; [|done]. split; [done|].
    destruct (c =? tokenLF); simpl; destruct Hcol as [-> ->]; simpl.
    + done.
    + split; [lia|]. by destruct (Z.ltb_spec 0 (pc + 1)); [|lia].
  - rewrite (next_cons s c' rest Hsrc), Hlen, Hch. simpl.
    split; [|done]. split; [done|].
    destruct (c =? tokenLF); simpl; destruct Hcol as [-> ->];
      destruct (c' =? tokenLF); simpl; try (split; [lia|done]);
      destruct (c' =? EOF); simpl; try (split; [lia|done]).
    + split; [lia|]. by destruct (Z.ltb_spec 0 (pc + 1)); [|lia].
Qed.

Lemma next_at_EOF (s : Scanner) (p : Position) :
  positioned s p [] → positioned (next s) p [] ∧ tokBuf (next s) = tokBuf s.
Proof.
  destruct s as [sr c0 l col lll lcl tb].
  unfold positioned, lookingAt, posInv, next, Pos. simpl.
  intros [(-> & -> & ->) [Hpc Hpos]]. simpl in *. done.
Qed.

Lemma resetToken_positioned (s : Scanner) (p : Position) (text : gostring) :
  positioned s p text → positioned (resetToken s) p text.
Proof. by destruct s, text. Qed.

Lemma Scan_unfold (s : Scanner) :
  Scan s =
  scanToken (skipWhitespace (2 + length (src (snd (Peek s)))) (snd (Peek s))).
Proof. reflexivity. Qed.

Lemma Peek_id (s : Scanner) (p : Position) (text : gostring) :
  positioned s p text → headOk text → Peek s = (hd EOF text, s).
Proof.
  intros [Hl _] Hc. unfold Peek.
  destruct text as [|c rest]; simpl in *.
  - by destruct Hl as (-> & _).
  - destruct Hl as (-> & _). by rewrite (proj2 (Z.eqb_neq c (-2))) by lia.
Qed.

Lemma Scan_EOF (s : Scanner) (p : Position) :
  positioned s p [] →
  Scan s = (EOF, resetToken s) ∧ positioned (resetToken s) p [].
Proof.
  intros H. split; [|by apply resetToken_positioned].
  rewrite Scan_unfold, (Peek_id s p []) by done. simpl.
  destruct H as [(Hch & Hsrc & _) _]. rewrite Hsrc. simpl.
  rewrite isWhitespace_tab, Hch. simpl.
  unfold scanToken. simpl. by rewrite Hch.
Qed.

Lemma Scan_simple (s : Scanner) (p : Position) (c : rune) (rest : gostring) :
  positioned s p (c :: rest) → 0 <= c → c ≠ tokenTab → c ≠ tokenQuote →
  ∃ s', Scan s = (c, s') ∧ positioned s' (advance p c) rest ∧ TokenText s' = [c].
Proof.
  intros H Hc Htab Hq.
  rewrite Scan_unfold, (Peek_id s p (c :: rest)) by done. simpl.
  pose proof H as [(Hch & _) _].
  rewrite isWhitespace_tab, Hch, (proj2 (Z.eqb_neq c tokenTab)) by done.
  unfold scanToken.
  replace (ch (resetToken s)) with c by (by destruct s).
  rewrite (proj2 (Z.eqb_neq c EOF)), (proj2 (Z.eqb_neq c tokenQuote))
    by (unfold EOF; first [done|lia]).
  exists (next (resetToken s)).
  destruct (next_positioned (resetToken s) p c rest) as [Hp Htb].
  { by apply resetToken_positioned. } { unfold EOF; lia. }
  split; [done|]. split; [done|].
  unfold TokenText. rewrite Htb. by destruct s.
Qed.

Lemma Scan_tabs (tabs text : gostring) (s : Scanner) (p : Position) :
  Forall (λ c, c = tokenTab) tabs → headOk text →
  positioned s p (tabs ++ text) →
  ∃ s1, positioned s1 (positionAfter p tabs) text ∧ Scan s = Scan s1.
Proof.
  intros Htabs Hhd. revert s p.
  induction Htabs as [|t tabs -> Htabs IH]; intros s p H; [by exists s|].
  simpl in H.
  destruct (next_positioned s p tokenTab (tabs ++ text) H) as [Hp _]; [done|].
  destruct (IH _ _ Hp) as (s1 & Hs1 & HScan).
  exists s1. split; [done|]. rewrite <- HScan.
  assert (Hhd' : headOk (tabs ++ text)).
  { destruct Htabs as [|t' tabs' ->]; [done|]. by simpl. }
  rewrite (Scan_unfold s), (Peek_id s p _ H) by done.
  rewrite (Scan_unfold (next s)), (Peek_id (next s) _ _ Hp) by done.
  simpl snd.
  destruct H as [(Hch & Hsrc & _) _]. destruct Hp as [Hl _].
  rewrite Hsrc.
  change (2 + length (tabs ++ text))%nat with (S (S (length (tabs ++ text)))).
  cbn [skipWhitespace]. rewrite isWhitespace_tab, Hch. simpl (tokenTab =? tokenTab).
  cbv iota.
  destruct (tabs ++ text) as [|c' rest']; simpl in Hl.
  - destruct Hl as (Hch' & Hsrc' & _). rewrite Hsrc'. simpl.
    by rewrite isWhitespace_tab, Hch'.
  - destruct Hl as (_ & Hsrc' & _). by rewrite Hsrc'.
Qed.

Lemma Scan_quote (s : Scanner) (p : Position) (rest : gostring) :
  positioned s p (tokenQuote :: rest) → fst (Scan s) = TokString.
Proof.
  intros H.
  rewrite Scan_unfold, (Peek_id s p (tokenQuote :: rest)) by done. simpl.
  pose proof H as [(Hch & _) _].
  rewrite isWhitespace_tab, Hch. simpl.
  unfold scanToken.
  replace (ch (resetToken s)) with tokenQuote by (by destruct s).
  done.
Qed.

Lemma ValidRune_nonneg (c : rune) : ValidRune c = true → 0 <= c.
Proof. unfold ValidRune. lia. Qed.

Lemma WriteRune_valid (buffer : gostring) (c : rune) :
  ValidRune c = true → WriteRune buffer c = buffer ++ [c].
Proof. unfold WriteRune. by intros ->. Qed.

Lemma TrimLeft_app_stop (x y cutset : gostring) (c : rune) :
  inCutset cutset c = false →
  TrimLeft (x ++ c :: y) cutset = TrimLeft x cutset ++ c :: y.
Proof.
  intros Hc. induction x as [|a x IH]; simpl.
  - by rewrite Hc.
  - by destruct (inCutset cutset a).
Qed.

Lemma TrimRight_app_stop (x y cutset : gostring) (c : rune) :
  inCutset cutset c = false →
  TrimRight (x ++ c :: y) cutset = x ++ c :: TrimRight y cutset.
Proof.
  intros Hc. unfold TrimRight.
  rewrite rev_app_distr. simpl. rewrite <- app_assoc. simpl.
  rewrite TrimLeft_app_stop by done.
  rewrite rev_app_distr. simpl. by rewrite rev_involutive, <- app_assoc.
Qed.

Lemma TrimLeft_all (x cutset : gostring) :
  Forall (λ c, inCutset cutset c = true) x → TrimLeft x cutset = [].
Proof. induction 1 as [|c x Hc _ IH]; simpl; [done|by rewrite Hc]. Qed.

Lemma TrimRight_all (x cutset : gostring) :
  Forall (λ c, inCutset cutset c = true) x → TrimRight x cutset = [].
Proof.
  intros H. unfold TrimRight. rewrite TrimLeft_all; [done|].
  by apply List.Forall_rev.
Qed.

Lemma tabs_inCutset (tabs : gostring) :
  Forall (λ c, c = tokenTab) tabs →
  Forall (λ c, inCutset [tokenTab] c = true) tabs.
Proof. intros H. eapply Forall_impl; [exact H|]. by intros c ->. Qed.

Lemma beforeToken_tabs (tabs : gostring) :
  Forall (λ c, c = tokenTab) tabs → beforeToken tabs = [].
Proof. intros H. apply TrimRight_all. by apply tabs_inCutset. Qed.

Lemma beforeToken_step (tabs run : gostring) (c : rune) :
  c ≠ tokenTab →
  beforeToken (tabs ++ c :: run) = (tabs ++ [c]) ++ beforeToken run.
Proof.
  intros Hc. unfold beforeToken. rewrite TrimRight_app_stop.
  - by rewrite <- app_assoc.
  - simpl. by rewrite (proj2 (Z.eqb_neq c tokenTab)).
Qed.

Lemma beforeToken_no_tab (text : gostring) :
  Forall (λ c, c ≠ tokenTab) text → beforeToken text = text.
Proof.
  induction 1 as [|c text Hc _ IH]; [done|].
  pose proof (beforeToken_step [] text c Hc) as E. simpl in E.
  by rewrite E, IH.
Qed.

(** ** [readKey] *)

Lemma readKeyLoop_equal (run tabs rest : gostring) :
  ∀ (s : Scanner) (p : Position) (buffer : gostring) (fuel : nat),
  Forall (λ c, c = tokenTab) tabs → Forall keyRunChar run →
  positioned s p (tabs ++ run ++ tokenEqual :: rest) →
  (length run < fuel)%nat →
  ∃ s', readKeyLoop fuel s buffer
        = Some (Ok (buffer ++ List.filter keptInKey run), s')
      ∧ positioned s' (positionAfter p (tabs ++ run ++ [tokenEqual])) rest.
Proof.
  revert tabs. induction run as [|c run IH]; intros tabs s p buffer fuel Htabs Hrun H Hfuel.
  - destruct fuel as [|fuel]; [simpl in Hfuel; lia|].
    destruct (Scan_tabs tabs (tokenEqual :: rest) s p) as (s1 & Hs1 & HScan); try done.
    destruct (Scan_simple s1 _ tokenEqual rest Hs1) as (s' & HS & Hs' & _); try done.
    exists s'. simpl. rewrite HScan, HS. simpl. rewrite app_nil_r.
    split; [done|]. by rewrite positionAfter_app.
  - inversion Hrun as [|? ? (Hv & Heq & Hq) Hrun']; subst.
    destruct (decide (c = tokenTab)) as [->|Htab].
    + destruct (IH (tabs ++ [tokenTab]) s p buffer fuel) as (s' & HR & Hs'); try done.
      * apply Forall_app. by split; [|constructor].
      * by rewrite <- app_assoc.
      * simpl in Hfuel. lia.
      * exists s'. split; [done|]. by rewrite <- app_assoc in Hs'.
    + destruct fuel as [|fuel]; [simpl in Hfuel; lia|].
      destruct (Scan_tabs tabs (c :: run ++ tokenEqual :: rest) s p) as (s1 & Hs1 & HScan);
        try done.
      { simpl. by apply ValidRune_nonneg. }
      destruct (Scan_simple s1 _ c _ Hs1) as (s2 & HS & Hs2 & _); try done.
      { by apply ValidRune_nonneg. }
      cbn [readKeyLoop]. rewrite HScan, HS.
      assert (HnEOF : (c =? EOF) = false).
      { apply Z.eqb_neq. apply ValidRune_nonneg in Hv. unfold EOF. lia. }
      assert (HnStr : (c =? TokString) = false).
      { apply Z.eqb_neq. apply ValidRune_nonneg in Hv. unfold TokString. lia. }
      rewrite HnEOF, (proj2 (Z.eqb_neq c tokenEqual)), HnStr by done.
      destruct (Z.eqb_spec c tokenSpace) as [->|Hsp].
      * destruct (IH [] s2 (advance (positionAfter p tabs) tokenSpace) buffer fuel)
          as (s' & HR & Hs'); try done.
        { simpl in Hfuel. lia. }
        exists s'. split; [done|].
        rewrite <- app_comm_cons, positionAfter_step. exact Hs'.
      * destruct (IH [] s2 (advance (positionAfter p tabs) c) (WriteRune buffer c) fuel)
          as (s' & HR & Hs'); try done.
        { simpl in Hfuel. lia. }
        exists s'. split.
        -- assert (Hk : keptInKey c = true).
           { unfold keptInKey.
             by rewrite (proj2 (Z.eqb_neq c tokenSpace)), (proj2 (Z.eqb_neq c tokenTab)). }
           rewrite HR, WriteRune_valid by done. cbn [List.filter].
           by rewrite Hk, <- app_assoc.
        -- rewrite <- app_comm_cons, positionAfter_step. exact Hs'.
Qed.

Lemma readKeyLoop_error (run tabs tail : gostring) :
  ∀ (s : Scanner) (p : Position) (buffer : gostring) (fuel : nat),
  Forall (λ c, c = tokenTab) tabs → Forall keyRunChar run →
  (tail = [] ∨ ∃ rest, tail = tokenQuote :: rest) →
  positioned s p (tabs ++ run ++ tail) →
  (length run < fuel)%nat →
  ∃ s', readKeyLoop fuel s buffer
        = Some (Err (keyError tail (positionAfter p (beforeToken (tabs ++ run)))), s').
Proof.
  revert tabs. induction run as [|c run IH];
    intros tabs s p buffer fuel Htabs Hrun Htail H Hfuel.
  - destruct fuel as [|fuel]; [simpl in Hfuel; lia|].
    rewrite app_nil_r, beforeToken_tabs by done. simpl in H.
    destruct (Scan_tabs tabs tail s p) as (s1 & Hs1 & HScan); try done.
    { by destruct Htail as [->|[rest ->]]. }
    cbn [readKeyLoop]. rewrite (Pos_positioned s p _ H), HScan.
    destruct Htail as [->|[rest ->]].
    + destruct (Scan_EOF s1 _ Hs1) as [-> _]. by eexists.
    + pose proof (Scan_quote s1 _ rest Hs1) as Hq.
      destruct (Scan s1) as [tok s']. simpl in Hq. subst tok. by eexists.
  - inversion Hrun as [|? ? (Hv & Heq & Hq) Hrun']; subst.
    destruct (decide (c = tokenTab)) as [->|Htab].
    + destruct (IH (tabs ++ [tokenTab]) s p buffer fuel) as (s' & HR); try done.
      * apply Forall_app. by split; [|constructor].
      * by rewrite <- app_assoc.
      * simpl in Hfuel. lia.
      * exists s'. by rewrite <- app_assoc in HR.
    + destruct fuel as [|fuel]; [simpl in Hfuel; lia|].
      destruct (Scan_tabs tabs (c :: run ++ tail) s p) as (s1 & Hs1 & HScan);
        try done.
      { simpl. by apply ValidRune_nonneg. }
      destruct (Scan_simple s1 _ c _ Hs1) as (s2 & HS & Hs2 & _); try done.
      { by apply ValidRune_nonneg. }
      cbn [readKeyLoop]. rewrite HScan, HS.
      assert (HnEOF : (c =? EOF) = false).
      { apply Z.eqb_neq. apply ValidRune_nonneg in Hv. unfold EOF. lia. }
      assert (HnStr : (c =? TokString) = false).
      { apply Z.eqb_neq. apply ValidRune_nonneg in Hv. unfold TokString. lia. }
      rewrite HnEOF, (proj2 (Z.eqb_neq c tokenEqual)), HnStr by done.
      rewrite beforeToken_step, positionAfter_app by done.
      replace (positionAfter p (tabs ++ [c]))
        with (advance (positionAfter p tabs) c)
        by (by rewrite positionAfter_app).
      destruct (c =? tokenSpace).
      * destruct (IH [] s2 (advance (positionAfter p tabs) c) buffer fuel)
          as (s' & HR); try done.
        { simpl in Hfuel. lia. }
        by exists s'.
      * destruct (IH [] s2 (advance (positionAfter p tabs) c) (WriteRune buffer c) fuel)
          as (s' & HR); try done.
        { simpl in Hfuel. lia. }
        by exists s'.
Qed.

(** C7 (as amended). Key reading, for a scanner that stands at position [p]
    before a run of characters other than the equals sign and the double
    quote: when the run is followed by an equals sign, [readKey] returns the
    run without its spaces and without its horizontal tabs, and the scanner
    stands after the equals sign; when the input ends after the run it fails
    with the key-EOF error, and when a double quote follows the run it fails
    with the key-string error, both carrying the position of the failing
    token (that of the first tab before it, when tabs precede it). *)
Theorem readKey_contract (s : Scanner) (p : Position) (run rest : gostring)
    (fuel : nat) :
  Forall keyRunChar run → (length run < fuel)%nat →
  (positioned s p (run ++ tokenEqual :: rest) →
   ∃ s', readKey fuel s = Some (Ok (List.filter keptInKey run), s')
       ∧ positioned s' (positionAfter p (run ++ [tokenEqual])) rest) ∧
  (positioned s p run →
   ∃ s', readKey fuel s
         = Some (Err (ErrKeyEOF (positionAfter p (beforeToken run))), s')) ∧
  (positioned s p (run ++ tokenQuote :: rest) →
   ∃ s', readKey fuel s
         = Some (Err (ErrKeyString (positionAfter p (beforeToken run))), s')).
Proof.
  intros Hrun Hfuel. unfold readKey. repeat split.
  - intros H.
    destruct (readKeyLoop_equal run [] rest s p [] fuel) as (s' & HR & Hs'); try done.
    by exists s'.
  - intros H.
    destruct (readKeyLoop_error run [] [] s p [] fuel) as (s' & HR); try done.
    + by left.
    + by rewrite app_nil_r.
    + by exists s'.
  - intros H.
    destruct (readKeyLoop_error run [] (tokenQuote :: rest) s p [] fuel)
      as (s' & HR); try done.
    + right. by eexists.
    + by exists s'.
Qed.

Lemma start_positioned (r : gostring) :
  headOk r → hd EOF r ≠ BOM →
  Peek (Init r) = (hd EOF r, start r) ∧ positioned (start r) (mkPosition 1 1) r.
Proof.
  intros Hhd HBOM. unfold start, Peek. simpl (ch (Init r) =? -2). cbv iota.
  destruct r as [|c r]; simpl in *.
  - by vm_compute.
  - rewrite (next_cons (Init (c :: r)) c r eq_refl). simpl.
    rewrite (proj2 (Z.eqb_neq c BOM)) by done. simpl.
    split; [done|]. split; [done|].
    unfold posInv, Pos. simpl.
    destruct (c =? tokenLF); simpl; [done|].
    by destruct (c =? EOF).
Qed.

Lemma Peek_start (r : gostring) :
  headOk r → hd EOF r ≠ BOM → Peek (start r) = (hd EOF r, start r).
Proof.
  intros Hhd HBOM.
  destruct (start_positioned r Hhd HBOM) as [_ H].
  by apply (Peek_id _ _ _ H).
Qed.

Lemma readKey_contract_witness :
  ∃ s', readKey 10 (start (runes "a b=1")) = Some (Ok (runes "ab"), s')
      ∧ positioned s' (mkPosition 1 5) (runes "1").
Proof.
  refine (proj1 (readKey_contract (start (runes "a b=1")) (mkPosition 1 1)
                   (runes "a b") (runes "1") 10 _ _) _).
  - repeat (constructor; [by vm_compute|]). constructor.
  - simpl. lia.
  - by apply (start_positioned (runes "a b=1")).
Defined.

(** The claim of C7 as stated fails on a tab: the key read from [a<TAB>b=1]
    is [ab], not the run with its tab. *)
Lemma readKey_drops_tab :
  fst <$> readKey 10 (start (runes "a" ++ [tokenTab] ++ runes "b=1"))
  = Some (Ok (runes "ab"))
  ∧ runes "ab" ≠ runes "a" ++ [tokenTab] ++ runes "b".
Proof. split; [by vm_compute|discriminate]. Qed.

(** ** [readValue], unquoted *)

Lemma accumulate_snoc (buffer run : gostring) (c : rune) :
  accumulate (buffer ++ [c]) run = buffer ++ c :: List.filter keptInValue run.
Proof.
  destruct buffer as [|b buffer]; simpl; [done|].
  by rewrite <- app_assoc.
Qed.

Lemma readValueLoop_run (run tabs tail : gostring) :
  ∀ (s : Scanner) (p : Position) (buffer : gostring) (fuel : nat),
  Forall (λ c, c = tokenTab) tabs → Forall valueRunChar run →
  (tail = [] ∨ ∃ rest, tail = tokenLF :: rest) →
  positioned s p (tabs ++ run ++ tail) →
  (length run < fuel)%nat →
  ∃ s', readValueLoop fuel s buffer = Some (Ok (accumulate buffer run), s')
      ∧ positioned s' (positionAfter p (tabs ++ run ++ take 1 tail)) (drop 1 tail).
Proof.
  revert tabs. induction run as [|c run IH];
    intros tabs s p buffer fuel Htabs Hrun Htail H Hfuel.
  - destruct fuel as [|fuel]; [simpl in Hfuel; lia|].
    assert (Hacc : accumulate buffer [] = buffer).
    { destruct buffer; [done|]. unfold accumulate. simpl. by rewrite app_nil_r. }
    rewrite Hacc. simpl in H.
    destruct (Scan_tabs tabs tail s p) as (s1 & Hs1 & HScan); try done.
    { by destruct Htail as [->|[rest ->]]. }
    cbn [readValueLoop]. rewrite HScan.
    destruct Htail as [->|[rest ->]].
    + destruct (Scan_EOF s1 _ Hs1) as [-> Hs']. eexists. split; [done|].
      simpl. by rewrite app_nil_r.
    + destruct (Scan_simple s1 _ tokenLF rest Hs1) as (s' & -> & Hs' & _); try done.
      exists s'. split; [done|]. simpl. by rewrite positionAfter_step.
  - inversion Hrun as [|? ? (Hv & HLF & Hq) Hrun']; subst.
    destruct (decide (c = tokenTab)) as [->|Htab].
    + destruct (IH (tabs ++ [tokenTab]) s p buffer fuel) as (s' & HR & Hs'); try done.
      * apply Forall_app. by split; [|constructor].
      * by rewrite <- app_assoc.
      * simpl in Hfuel. lia.
      * exists s'. split.
        -- rewrite HR. by destruct buffer.
        -- by rewrite <- app_assoc in Hs'.
    + destruct fuel as [|fuel]; [simpl in Hfuel; lia|].
      destruct (Scan_tabs tabs (c :: run ++ tail) s p) as (s1 & Hs1 & HScan);
        try done.
      { simpl. by apply ValidRune_nonneg. }
      destruct (Scan_simple s1 _ c _ Hs1) as (s2 & HS & Hs2 & _); try done.
      { by apply ValidRune_nonneg. }
      cbn [readValueLoop]. rewrite HScan, HS.
      assert (HnEOF : (c =? EOF) = false).
      { apply Z.eqb_neq. apply ValidRune_nonneg in Hv. unfold EOF. lia. }
      assert (HnStr : (c =? TokString) = false).
      { apply Z.eqb_neq. apply ValidRune_nonneg in Hv. unfold TokString. lia. }
      rewrite HnEOF, HnStr, (proj2 (Z.eqb_neq c tokenLF)) by done.
      assert (Hpos : ∀ s', positioned s'
                (positionAfter (advance (positionAfter p tabs) c)
                   ([] ++ run ++ take 1 tail)) (drop 1 tail) →
              positioned s' (positionAfter p (tabs ++ (c :: run) ++ take 1 tail))
                (drop 1 tail)).
      { intros s' Hs'. rewrite <- app_comm_cons, positionAfter_step. exact Hs'. }
      assert (Hlt : (length run < fuel)%nat) by (simpl in Hfuel; lia).
      destruct (Z.eqb_spec c tokenCR) as [->|HCR].
      * destruct (IH [] s2 (advance (positionAfter p tabs) tokenCR) buffer fuel)
          as (s' & HR & Hs'); try done.
        exists s'. split; [|by apply Hpos]. rewrite HR. by destruct buffer.
      * assert (Hk : keptInValue c = true).
        { unfold keptInValue.
          by rewrite (proj2 (Z.eqb_neq c tokenCR)), (proj2 (Z.eqb_neq c tokenTab)). }
        destruct (Z.eqb_spec c tokenSpace) as [->|Hsp].
        -- destruct buffer as [|b buffer]; cbn [length Nat.eqb].
           ++ destruct (IH [] s2 (advance (positionAfter p tabs) tokenSpace) [] fuel)
                as (s' & HR & Hs'); try done.
              exists s'. split; [|by apply Hpos]. by rewrite HR.
           ++ destruct (IH [] s2 (advance (positionAfter p tabs) tokenSpace)
                         (WriteRune (b :: buffer) tokenSpace) fuel)
                as (s' & HR & Hs'); try done.
              exists s'. split; [|by apply Hpos].
              rewrite HR, WriteRune_valid, accumulate_snoc by done.
              unfold accumulate. cbn [List.filter]. by rewrite Hk.
        -- destruct (IH [] s2 (advance (positionAfter p tabs) c)
                       (WriteRune buffer c) fuel)
             as (s' & HR & Hs'); try done.
           exists s'. split; [|by apply Hpos].
           rewrite HR, WriteRune_valid, accumulate_snoc by done.
           unfold accumulate, unquotedValue. cbn [List.filter]. rewrite Hk.
           destruct buffer as [|b buffer].
           ++ simpl. by rewrite (proj2 (Z.eqb_neq c tokenSpace)).
           ++ done.
Qed.

(** C8. Unquoted value reading, for a scanner that stands before a run of
    characters other than the line feed and the double quote: [readValue]
    stops at the line feed that follows the run, or at the end of the input,
    and returns the run without its carriage returns (and without the tabs
    the scanner skips) and without its leading spaces; the spaces after the
    first kept character are all there.  After a line feed the scanner
    stands behind it. *)
Theorem readValue_unquoted (s : Scanner) (p : Position) (run rest : gostring)
    (fuel : nat) :
  Forall valueRunChar run → (length run < fuel)%nat →
  (positioned s p (run ++ tokenLF :: rest) →
   ∃ s', readValue fuel s = Some (Ok (unquotedValue run), s')
       ∧ positioned s' (positionAfter p (run ++ [tokenLF])) rest) ∧
  (positioned s p run →
   ∃ s', readValue fuel s = Some (Ok (unquotedValue run), s')
       ∧ positioned s' (positionAfter p run) []).
Proof.
  intros Hrun Hfuel. unfold readValue. split; intros H.
  - destruct (readValueLoop_run run [] (tokenLF :: rest) s p [] fuel)
      as (s' & HR & Hs'); try done.
    + right. by eexists.
    + by exists s'.
  - destruct (readValueLoop_run run [] [] s p [] fuel) as (s' & HR & Hs'); try done.
    + by left.
    + by rewrite app_nil_r.
    + exists s'. split; [done|]. simpl in Hs'. by rewrite app_nil_r in Hs'.
Qed.

Lemma unquotedValue_no_CR (run : gostring) : tokenCR ∉ unquotedValue run.
Proof.
  unfold unquotedValue.
  assert (H : tokenCR ∉ List.filter keptInValue run).
  { intros Hin. apply list_elem_of_In, filter_In in Hin as [_ Hk]. done. }
  revert H. induction (List.filter keptInValue run) as [|c l IH]; [done|].
  intros Hc. cbn [TrimLeft]. destruct (inCutset [tokenSpace] c); [|done].
  apply IH. intros Hin. apply Hc. by right.
Qed.

Lemma unquotedValue_spaces (spaces run : gostring) (c : rune) :
  Forall (λ x, x = tokenSpace) spaces →
  keptInValue c = true → c ≠ tokenSpace →
  unquotedValue (spaces ++ c :: run) = c :: List.filter keptInValue run.
Proof.
  intros Hsp Hk Hc. unfold unquotedValue.
  induction Hsp as [|x spaces -> _ IH]; simpl.
  - rewrite Hk. simpl. by rewrite (proj2 (Z.eqb_neq c tokenSpace)).
  - done.
Qed.

Lemma readValue_unquoted_witness :
  ∃ s', readValue 10 (start (runes " v   " ++ LF)) = Some (Ok (runes "v   "), s')
      ∧ positioned s' (mkPosition 2 1) [].
Proof.
  refine (proj1 (readValue_unquoted (start (runes " v   " ++ LF)) (mkPosition 1 1)
                   (runes " v   ") [] 10 _ _) _).
  - repeat (constructor; [by vm_compute|]). constructor.
  - simpl. lia.
  - by apply (start_positioned (runes " v   " ++ LF)).
Defined.

(** The example of the claim: [k=v   ] and a line feed store [v] with its
    three trailing spaces. *)
Example ReadFrom_trailing_spaces :
  (λ '(ini, _, _), Get ini [] (runes "k")) <$> ReadFrom 10 NewIni (runes "k=v   " ++ LF)
  = Some (runes "v   ").
Proof. by vm_compute. Qed.

(** ** [readSection] *)

Lemma readSectionLoop_run (run tabs rest : gostring) (t : rune) :
  ∀ (s : Scanner) (p : Position) (buffer : gostring) (fuel : nat),
  Forall (λ c, c = tokenTab) tabs → Forall sectionRunChar run →
  t = tokenSectionStop ∨ t = tokenLF ∨ t = tokenCR →
  positioned s p (tabs ++ run ++ t :: rest) →
  (length run < fuel)%nat →
  ∃ s', readSectionLoop fuel s buffer
        = Some (sectionEnd t (buffer ++ List.filter keptInSection run)
                  (positionAfter p (beforeToken (tabs ++ run))), s')
      ∧ positioned s' (positionAfter p (tabs ++ run ++ [t])) rest.
Proof.
  revert tabs. induction run as [|c run IH];
    intros tabs s p buffer fuel Htabs Hrun Ht H Hfuel.
  - destruct fuel as [|fuel]; [simpl in Hfuel; lia|].
    rewrite !app_nil_r, beforeToken_tabs by done. simpl in H.
    destruct (Scan_tabs tabs (t :: rest) s p) as (s1 & Hs1 & HScan); try done.
    { simpl. unfold tokenSectionStop, tokenLF, tokenCR in Ht. lia. }
    destruct (Scan_simple s1 _ t rest Hs1) as (s' & HS & Hs' & _).
    { unfold tokenSectionStop, tokenLF, tokenCR in Ht. lia. }
    { unfold tokenSectionStop, tokenLF, tokenCR, tokenTab in *. lia. }
    { unfold tokenSectionStop, tokenLF, tokenCR, tokenQuote in *. lia. }
    exists s'. split; [|cbn [app]; by rewrite positionAfter_step].
    cbn [readSectionLoop]. rewrite (Pos_positioned s p _ H), HScan, HS.
    unfold sectionEnd. by destruct Ht as [->|[->| ->]].
  - inversion Hrun as [|? ? (Hv & Hstop & HLF & HCR & Hq) Hrun']; subst.
    destruct (decide (c = tokenTab)) as [->|Htab].
    + destruct (IH (tabs ++ [tokenTab]) s p buffer fuel) as (s' & HR & Hs'); try done.
      * apply Forall_app. by split; [|constructor].
      * by rewrite <- app_assoc.
      * simpl in Hfuel. lia.
      * exists s'. rewrite <- !app_assoc in HR, Hs'. by split.
    + destruct fuel as [|fuel]; [simpl in Hfuel; lia|].
      destruct (Scan_tabs tabs (c :: run ++ t :: rest) s p) as (s1 & Hs1 & HScan);
        try done.
      { simpl. by apply ValidRune_nonneg. }
      destruct (Scan_simple s1 _ c _ Hs1) as (s2 & HS & Hs2 & _); try done.
      { by apply ValidRune_nonneg. }
      cbn [readSectionLoop]. rewrite HScan, HS.
      rewrite (proj2 (Z.eqb_neq c tokenSectionStop)), (proj2 (Z.eqb_neq c tokenLF)),
        (proj2 (Z.eqb_neq c tokenCR)) by done.
      cbn [orb].
      rewrite beforeToken_step, positionAfter_app by done.
      replace (positionAfter p (tabs ++ [c]))
        with (advance (positionAfter p tabs) c)
        by (by rewrite positionAfter_app).
      assert (Hlt : (length run < fuel)%nat) by (simpl in Hfuel; lia).
      destruct (Z.eqb_spec c tokenSectionStart) as [->|Hstart].
      * destruct (IH [] s2 (advance (positionAfter p tabs) tokenSectionStart)
                    buffer fuel) as (s' & HR & Hs'); try done.
        exists s'. split; [done|].
        rewrite <- app_comm_cons, positionAfter_step. exact Hs'.
      * destruct (IH [] s2 (advance (positionAfter p tabs) c)
                    (WriteRune buffer c) fuel) as (s' & HR & Hs'); try done.
        exists s'. split.
        -- assert (Hk : keptInSection c = true).
           { unfold keptInSection.
             by rewrite (proj2 (Z.eqb_neq c tokenSectionStart)),
               (proj2 (Z.eqb_neq c tokenTab)). }
           rewrite HR, WriteRune_valid by done. cbn [List.filter].
           by rewrite Hk, <- app_assoc.
        -- rewrite <- app_comm_cons, positionAfter_step. exact Hs'.
Qed.

Lemma positionAfter_no_LF (text : gostring) (p : Position) :
  Forall (λ c, c ≠ tokenLF) text →
  positionAfter p text = mkPosition (Line p) (Column p + Z.of_nat (length text)).
Proof.
  intros H. revert p. induction H as [|c text Hc _ IH]; intros p.
  - destruct p. simpl. f_equal. lia.
  - cbn [positionAfter foldl]. fold (positionAfter (advance p c) text).
    rewrite IH. unfold advance. rewrite (proj2 (Z.eqb_neq c tokenLF)) by done.
    simpl Line. simpl Column. f_equal. rewrite length_cons. lia.
Qed.

(** C6 (as amended). Section-name reading, for an input that begins with an
    opening bracket followed by header text free of double quotes: up to the
    closing bracket, the header text without its opening brackets and
    without its horizontal tabs (which the scanner skips) becomes the
    current section of the loop; and when a line feed or a carriage return
    comes before any closing bracket, [ReadFrom] fails with the
    section-newline error, leaves the store as it was, and reports the
    position of that newline (that of the first tab before it, when tabs
    precede it). *)
Theorem readSection_contract (name rest : gostring) (fuel : nat) :
  Forall sectionRunChar name → (S (length name) < fuel)%nat →
  (∃ s', readSection fuel (start (tokenSectionStart :: name ++ tokenSectionStop :: rest))
         = Some (Ok (List.filter keptInSection name), s')
       ∧ positioned s'
           (positionAfter (mkPosition 1 1)
              (tokenSectionStart :: name ++ [tokenSectionStop])) rest
       ∧ ∀ cur ini,
           readLoop (S fuel)
             (Init (tokenSectionStart :: name ++ tokenSectionStop :: rest)) cur ini
           = readLoop fuel s' (List.filter keptInSection name) ini) ∧
  (∀ nl ini, nl = tokenLF ∨ nl = tokenCR →
     ReadFrom (S fuel) ini (tokenSectionStart :: name ++ nl :: rest)
     = Some (ini, -1,
             Some (ErrSectionNewline
                     (positionAfter (mkPosition 1 1)
                        (beforeToken (tokenSectionStart :: name)))))) ∧
  (Forall (λ c, c ≠ tokenTab) name →
   positionAfter (mkPosition 1 1) (beforeToken (tokenSectionStart :: name))
   = mkPosition 1 (Z.of_nat (length name) + 2)).
Proof.
  intros Hname Hfuel.
  assert (Hrun : Forall sectionRunChar (tokenSectionStart :: name)).
  { constructor; [|done]. by vm_compute. }
  split; [|split].
  - set (input := tokenSectionStart :: name ++ tokenSectionStop :: rest).
    destruct (start_positioned input) as [HPeek Hstart]; [done|done|].
    destruct (readSectionLoop_run (tokenSectionStart :: name) [] rest tokenSectionStop
                (start input) (mkPosition 1 1) [] fuel)
      as (s' & HR & Hs');
      [done|done|by left|exact Hstart|simpl; lia|].
    exists s'. split; [exact HR|]. split; [exact Hs'|].
    intros cur ini. cbn [readLoop]. rewrite HPeek. simpl hd.
    unfold readSection. by rewrite HR.
  - intros nl ini Hnl.
    set (input := tokenSectionStart :: name ++ nl :: rest).
    destruct (start_positioned input) as [HPeek Hstart]; [done|done|].
    destruct (readSectionLoop_run (tokenSectionStart :: name) [] rest nl
                (start input) (mkPosition 1 1) [] fuel)
      as (s' & HR & Hs');
      [done|done|by right|exact Hstart|simpl; lia|].
    unfold ReadFrom. cbn [readLoop]. rewrite HPeek. simpl hd.
    unfold readSection. rewrite HR. simpl app.
    unfold sectionEnd. by destruct Hnl as [-> | ->].
  - intros Htab. rewrite beforeToken_no_tab.
    + rewrite positionAfter_no_LF.
      * simpl Line. simpl Column. f_equal. rewrite length_cons. lia.
      * constructor; [done|]. eapply Forall_impl; [exact Hname|].
        by intros c (_ & _ & H & _).
    + by constructor.
Qed.

Lemma readSection_contract_witness :
  ∃ s', readSection 10 (start (runes "[a[b]" ++ LF ++ runes "k=v"))
        = Some (Ok (runes "ab"), s')
      ∧ positioned s' (mkPosition 1 6) (LF ++ runes "k=v")
      ∧ ∀ cur ini,
          readLoop 11 (Init (runes "[a[b]" ++ LF ++ runes "k=v")) cur ini
          = readLoop 10 s' (runes "ab") ini.
Proof.
  refine (proj1 (readSection_contract (runes "a[b") (LF ++ runes "k=v") 10 _ _)).
  - repeat (constructor; [by vm_compute|]). constructor.
  - simpl. lia.
Defined.

(** The claim of C6 as stated fails on a tab: the section read from
    [[a<TAB>b]] is [ab], not the text between the brackets. *)
Lemma readSection_drops_tab :
  fst <$> readSection 10
            (start ([tokenSectionStart] ++ runes "a" ++ [tokenTab] ++ runes "b"
                    ++ [tokenSectionStop]))
  = Some (Ok (runes "ab"))
  ∧ runes "ab" ≠ runes "a" ++ [tokenTab] ++ runes "b".
Proof. split; [by vm_compute|discriminate]. Qed.

(** ** Quoted strings *)

Lemma scanStringLoop_plain (content rest : gostring) :
  ∀ (s : Scanner) (p : Position) (fuel : nat),
  Forall stringChar content →
  positioned s p (content ++ tokenQuote :: rest) →
  (length content < fuel)%nat →
  positioned (scanStringLoop fuel s) (positionAfter p content) (tokenQuote :: rest)
  ∧ tokBuf (scanStringLoop fuel s) = tokBuf s ++ content.
Proof.
  induction content as [|c content IH]; intros s p fuel Hc H Hfuel.
  - destruct fuel as [|fuel]; [simpl in Hfuel; lia|].
    simpl in H. pose proof H as [(Hch & _) _].
    cbn [scanStringLoop]. rewrite Hch. simpl.
    split; [done|by rewrite app_nil_r].
  - destruct fuel as [|fuel]; [simpl in Hfuel; lia|].
    inversion Hc as [|? ? (Hpos & Hq & Hb & HLF) Hc']; subst.
    simpl in H. pose proof H as [(Hch & _) _].
    cbn [scanStringLoop]. rewrite Hch.
    rewrite (proj2 (Z.eqb_neq c tokenQuote)), (proj2 (Z.eqb_neq c tokenLF)),
      (proj2 (Z.eqb_neq c tokenBackslash)) by done.
    destruct (Z.ltb_spec c 0) as [?|_]; [lia|]. cbn [orb].
    destruct (next_positioned s p c _ H) as [Hn Htb]; [unfold EOF; lia|].
    destruct (IH (next s) (advance p c) fuel Hc' Hn) as [Hp Htb'].
    { simpl in Hfuel. lia. }
    split; [exact Hp|]. rewrite Htb', Htb. by rewrite <- app_assoc.
Qed.

Lemma Scan_string_plain (s : Scanner) (p : Position) (content rest : gostring) :
  Forall stringChar content →
  positioned s p (tokenQuote :: content ++ tokenQuote :: rest) →
  ∃ s', Scan s = (TokString, s')
      ∧ positioned s' (positionAfter p (tokenQuote :: content ++ [tokenQuote])) rest
      ∧ TokenText s' = tokenQuote :: content ++ [tokenQuote].
Proof.
  intros Hc H.
  rewrite Scan_unfold, (Peek_id s p _ H) by done. simpl snd.
  pose proof H as [(Hch & Hsrc & _) _].
  cbn [Nat.add skipWhitespace]. rewrite isWhitespace_tab, Hch. simpl (_ =? _).
  cbv iota. unfold scanToken.
  replace (ch (resetToken s)) with tokenQuote by (by destruct s).
  simpl (_ =? _). cbv iota.
  pose proof (resetToken_positioned s p _ H) as H0.
  destruct (next_positioned _ _ _ _ H0) as [H1 Htb1]; [done|].
  unfold scanString.
  destruct (scanStringLoop_plain content rest (next (resetToken s)) _
              (2 + length (src (next (resetToken s)))) Hc H1) as [H2 Htb2].
  { destruct H1 as [Hl _]. destruct content as [|c content]; simpl in Hl.
    - simpl. lia.
    - destruct Hl as (_ & -> & _). rewrite length_app. simpl. lia. }
  destruct (next_positioned _ _ _ _ H2) as [H3 Htb3]; [done|].
  eexists. split; [reflexivity|]. split.
  - cbn [positionAfter foldl]. fold (positionAfter (advance p tokenQuote) (content ++ [tokenQuote])).
    rewrite positionAfter_app. exact H3.
  - unfold TokenText. rewrite Htb3, Htb2, Htb1.
    replace (tokBuf (resetToken s)) with (@nil Z) by (by destruct s).
    simpl. by rewrite <- ?app_assoc.
Qed.

Lemma TrimRight_snoc_in (x cutset : gostring) (c : rune) :
  inCutset cutset c = true → TrimRight (x ++ [c]) cutset = TrimRight x cutset.
Proof. intros Hc. unfold TrimRight. rewrite rev_unit. simpl. by rewrite Hc. Qed.

Lemma TrimRight_none (x cutset : gostring) :
  Forall (λ c, inCutset cutset c = false) x → TrimRight x cutset = x.
Proof.
  induction 1 as [|c x Hc _ IH]; [done|].
  pose proof (TrimRight_app_stop [] x cutset c Hc) as E. simpl in E.
  by rewrite E, IH.
Qed.

(** [readValue] on a literal whose content holds no double quote, no
    backslash and no line feed: the content is the value. *)
Lemma readValue_quoted_plain (s : Scanner) (p : Position) (content rest : gostring)
    (fuel : nat) :
  Forall stringChar content →
  positioned s p (tokenQuote :: content ++ tokenQuote :: rest) →
  ∃ s', readValue (S fuel) s = Some (Ok content, s')
      ∧ positioned s' (positionAfter p (tokenQuote :: content ++ [tokenQuote])) rest.
Proof.
  intros Hc H.
  destruct (Scan_string_plain s p content rest Hc H) as (s' & HS & Hs' & Htext).
  exists s'. split; [|exact Hs'].
  unfold readValue. cbn [readValueLoop]. rewrite HS. simpl (_ =? _). cbv iota.
  rewrite Htext. do 3 f_equal.
  cbn [TrimLeft]. simpl (inCutset _ _). cbv iota.
  assert (Hnq : Forall (λ c, inCutset [tokenQuote] c = false) content).
  { eapply Forall_impl; [exact Hc|]. intros c (_ & Hq & _). simpl.
    by rewrite (proj2 (Z.eqb_neq c tokenQuote)). }
  destruct content as [|c content]; [done|].
  assert (E : TrimLeft ((c :: content) ++ [tokenQuote]) [tokenQuote]
              = (c :: content) ++ [tokenQuote]).
  { inversion Hnq as [|? ? Hq _]; subst. cbn [app TrimLeft]. by rewrite Hq. }
  rewrite E, TrimRight_snoc_in by done. by apply TrimRight_none.
Qed.

(** On a terminated literal with a content that is not empty, the trims
    take the two delimiters and, with them, every double quote the content
    ends with. *)
Lemma trimQuotes_literal (c : rune) (inner : gostring) :
  c ≠ tokenQuote →
  trimQuotes (tokenQuote :: (c :: inner) ++ [tokenQuote])
  = TrimRight (c :: inner) [tokenQuote].
Proof.
  intros Hc. unfold trimQuotes. cbn [TrimLeft app]. simpl (inCutset _ tokenQuote).
  cbv iota. simpl (inCutset _ c). rewrite (proj2 (Z.eqb_neq c tokenQuote)) by done.
  cbn [orb]. cbv iota.
  pose proof (TrimRight_snoc_in (c :: inner) [tokenQuote] tokenQuote eq_refl) as E.
  cbn [app] in E. exact E.
Qed.

(** C1 (the code departs from the claim). The input [k=], then the literal
    made of [a], a backslash and a double quote between double quotes: the
    scanner returns the whole literal as the text of one string token, and
    the value stored is [a] and the backslash, without the escaped quote
    that the content ends with. *)
Theorem readValue_escaped_quote_at_end :
  let literal := [tokenQuote] ++ runes "a\" ++ [tokenQuote; tokenQuote] in
  (λ '(tok, s), (tok, TokenText s)) (Scan (start literal)) = (TokString, literal)
  ∧ (λ '(ini, n, err), (Get ini [] (runes "k"), n, err))
      <$> ReadFrom 10 NewIni (runes "k=" ++ literal)
    = Some (runes "a\", 0, None)
  ∧ runes "a\" ≠ runes "a\" ++ [tokenQuote].
Proof.
  intros literal. split; [by vm_compute|]. split; [by vm_compute|discriminate].
Qed.

(** ** Inputs on which the loop never returns *)

Lemma leading_tabs (text : gostring) :
  ∃ tabs text', text = tabs ++ text' ∧ Forall (λ c, c = tokenTab) tabs
              ∧ hd 0 text' ≠ tokenTab.
Proof.
  induction text as [|c text (tabs & text' & -> & Htabs & Hhd)].
  - by exists [], [].
  - destruct (decide (c = tokenTab)) as [->|Hc].
    + exists (tokenTab :: tabs), text'. by repeat split; [constructor|].
    + by exists [], (c :: tabs ++ text').
Qed.

Lemma readCommentLine_no_LF (fuel : nat) :
  ∀ (s : Scanner) (p : Position) (text : gostring),
  Forall commentChar text → positioned s p text →
  readCommentLine fuel s = None.
Proof.
  induction fuel as [|fuel IH]; intros s p text Htext H; [done|].
  destruct (leading_tabs text) as (tabs & text' & -> & Htabs & Hhd).
  apply Forall_app in Htext as [_ Htext'].
  destruct (Scan_tabs tabs text' s p) as (s1 & Hs1 & HScan); try done.
  { destruct Htext' as [|c text' (Hc & _) _]; [done|]. done. }
  cbn [readCommentLine]. rewrite HScan.
  destruct text' as [|c text'].
  - destruct (Scan_EOF s1 _ Hs1) as [-> Hs']. simpl (_ =? _). cbv iota.
    by eapply (IH _ _ []).
  - inversion Htext' as [|? ? (Hc & HLF & Hq) Hrest]; subst.
    destruct (Scan_simple s1 _ c text' Hs1) as (s2 & -> & Hs2 & _); try done.
    rewrite (proj2 (Z.eqb_neq c tokenLF)) by done.
    by eapply (IH _ _ text').
Qed.

Lemma readSectionLoop_no_end (fuel : nat) :
  ∀ (s : Scanner) (p : Position) (text buffer : gostring),
  Forall sectionRunChar text → positioned s p text →
  readSectionLoop fuel s buffer = None.
Proof.
  induction fuel as [|fuel IH]; intros s p text buffer Htext H; [done|].
  destruct (leading_tabs text) as (tabs & text' & -> & Htabs & Hhd).
  apply Forall_app in Htext as [_ Htext'].
  destruct (Scan_tabs tabs text' s p) as (s1 & Hs1 & HScan); try done.
  { destruct Htext' as [|c text' (Hc & _) _]; [done|]. simpl.
    by apply ValidRune_nonneg. }
  cbn [readSectionLoop]. rewrite HScan.
  destruct text' as [|c text'].
  - destruct (Scan_EOF s1 _ Hs1) as [-> Hs']. simpl (_ =? _). cbv iota.
    cbn [orb]. cbv iota. by eapply (IH _ _ []).
  - inversion Htext' as [|? ? (Hv & Hstop & HLF & HCR & Hq) Hrest]; subst.
    destruct (Scan_simple s1 _ c text' Hs1) as (s2 & -> & Hs2 & _); try done.
    { by apply ValidRune_nonneg. }
    rewrite (proj2 (Z.eqb_neq c tokenSectionStop)), (proj2 (Z.eqb_neq c tokenLF)),
      (proj2 (Z.eqb_neq c tokenCR)) by done.
    cbn [orb].
    destruct (c =? tokenSectionStart); by eapply (IH _ _ text').
Qed.

(** A comment that the input ends without a line feed, and a section header
    that the input ends without a closing bracket, wherever the scanner
    stands: the reader never comes back. *)
Lemma readers_never_return (s : Scanner) (p : Position) (text : gostring)
    (fuel : nat) :
  positioned s p text →
  (Forall commentChar text → readCommentLine fuel s = None) ∧
  (Forall sectionRunChar text → readSection fuel s = None).
Proof.
  intros H. split; intros Htext.
  - by apply (readCommentLine_no_LF fuel s p text).
  - by apply (readSectionLoop_no_end fuel s p text).
Qed.

Lemma ReadFrom_comment_no_LF (text : gostring) (c : rune) (fuel : nat) (ini : Ini) :
  c = tokenCommentClassic ∨ c = tokenCommentHash →
  Forall commentChar text → ReadFrom fuel ini (c :: text) = None.
Proof.
  intros Hc Htext. unfold ReadFrom.
  destruct fuel as [|fuel]; [done|].
  destruct (start_positioned (c :: text)) as [HPeek Hstart].
  { simpl. unfold tokenCommentClassic, tokenCommentHash in Hc. lia. }
  { simpl. unfold tokenCommentClassic, tokenCommentHash, BOM in *. lia. }
  cbn [readLoop]. rewrite HPeek. simpl hd.
  rewrite (readCommentLine_no_LF fuel (start (c :: text)) (mkPosition 1 1) (c :: text)).
  - by destruct Hc as [-> | ->].
  - constructor; [|done]. unfold commentChar, tokenCommentClassic, tokenCommentHash,
      tokenLF, tokenQuote in *. lia.
  - done.
Qed.

Lemma ReadFrom_section_no_end (text : gostring) (fuel : nat) (ini : Ini) :
  Forall sectionRunChar text →
  ReadFrom fuel ini (tokenSectionStart :: text) = None.
Proof.
  intros Htext. unfold ReadFrom.
  destruct fuel as [|fuel]; [done|].
  destruct (start_positioned (tokenSectionStart :: text)) as [HPeek Hstart];
    [done|done|].
  cbn [readLoop]. rewrite HPeek. simpl hd. simpl (_ =? _). cbn [orb]. cbv iota.
  unfold readSection.
  rewrite (readSectionLoop_no_end fuel (start (tokenSectionStart :: text))
             (mkPosition 1 1) (tokenSectionStart :: text)); [done| |done].
  constructor; [by vm_compute|done].
Qed.

(** C2 (the code departs from the claim). On the input [; c], a comment the
    input ends without a line feed, and on the input [[sec], a section
    header the input ends without a closing bracket, [ReadFrom] and [Load]
    return for no amount of fuel: the calls never return. *)
Theorem ReadFrom_never_returns (fuel : nat) (ini : Ini) :
  ReadFrom fuel ini (runes "; c") = None
  ∧ ReadFrom fuel ini (runes "[sec") = None
  ∧ Load fuel (runes "; c") = None
  ∧ Load fuel (runes "[sec") = None.
Proof.
  assert (H1 : ∀ ini', ReadFrom fuel ini' (runes "; c") = None).
  { intros ini'. apply (ReadFrom_comment_no_LF (runes " c")); [by left|].
    repeat (constructor; [by vm_compute|]). constructor. }
  assert (H2 : ∀ ini', ReadFrom fuel ini' (runes "[sec") = None).
  { intros ini'. apply (ReadFrom_section_no_end (runes "sec")).
    repeat (constructor; [by vm_compute|]). constructor. }
  repeat split; try done.
  - specialize (H1 NewIni). unfold ReadFrom, Load in *.
    by destruct (readLoop fuel (Init (runes "; c")) [] NewIni) as [[? [?|]]|].
  - specialize (H2 NewIni). unfold ReadFrom, Load in *.
    by destruct (readLoop fuel (Init (runes "[sec")) [] NewIni) as [[? [?|]]|].
Qed.

(** ** A failed parse and the store *)

Lemma readLoop_readCalls (fuel : nat) :
  ∀ (s : Scanner) (cur : gostring) (ini : Ini),
  readLoop fuel s cur ini
  = (λ '(calls, err), (applySets ini calls, err)) <$> readCalls fuel s cur.
Proof.
  induction fuel as [|fuel IH]; intros s cur ini; [done|].
  cbn [readLoop readCalls].
  destruct (Peek s) as [token s0].
  destruct (token =? EOF); [done|].
  destruct ((token =? tokenCommentClassic) || (token =? tokenCommentHash)).
  { destruct (readCommentLine fuel s0); [apply IH|done]. }
  destruct ((token =? tokenLF) || (token =? tokenCR)); [apply IH|].
  destruct (token =? tokenSectionStart).
  { destruct (readSection fuel s0) as [[[section|err] s1]|]; [apply IH|done|done]. }
  destruct (readKey fuel s0) as [[[key|err] s1]|]; [|done|done].
  destruct (readValue fuel s1) as [[[value|err] s2]|]; [|done|done].
  rewrite IH. by destruct (readCalls fuel s2 cur) as [[calls err]|].
Qed.

Lemma Get_applySets_last (before after : list setCall) (c : setCall) (ini : Ini) :
  Forall (λ c', ¬ setsKey (scSection c) (scKey c) c') after →
  Get (applySets ini (before ++ c :: after)) (scSection c) (scKey c) = scValue c.
Proof.
  intros Hafter. unfold applySets. rewrite foldl_app. cbn [foldl].
  fold (applySets (applySet (foldl applySet ini before) c) after).
  rewrite Get_applySets_other by done.
  unfold applySet, Set_. rewrite Get_set_. by rewrite decide_True.
Qed.

(** C3 (as amended). When [ReadFrom] returns a syntax error it returns -1,
    and [Load] on the same input returns the same error and no store.  The
    receiver of [ReadFrom] is not rolled back: it is the store before the
    call with the [set] calls made before the error applied in order, so
    every key it held and every key set during the failed pass is still
    there for [Has], and [Get] returns the value of the last such call. *)
Theorem failed_parse_store (fuel : nat) (ini ini' : Ini) (r : gostring) (n : Z)
    (err : error) :
  ReadFrom fuel ini r = Some (ini', n, Some err) →
  n = -1
  ∧ Load fuel r = Some (None, Some err)
  ∧ ∃ calls,
      readCalls fuel (Init r) [] = Some (calls, Some err)
      ∧ ini' = applySets ini calls
      ∧ (∀ s k, Has ini s k = true → Has ini' s k = true)
      ∧ (∀ c, c ∈ calls → Has ini' (scSection c) (scKey c) = true)
      ∧ (∀ before c after, calls = before ++ c :: after →
           Forall (λ c', ¬ setsKey (scSection c) (scKey c) c') after →
           Get ini' (scSection c) (scKey c) = scValue c).
Proof.
  unfold ReadFrom, Load. rewrite !readLoop_readCalls.
  destruct (readCalls fuel (Init r) []) as [[calls [e|]]|]; simpl; [|done|done].
  intros [= <- <- <-]. split; [done|]. split; [done|].
  exists calls. split; [done|]. split; [done|]. split; [|split].
  - intros s k. apply Has_applySets_mono.
  - intros c. apply Has_applySets_in.
  - intros before c after -> Hafter. by apply Get_applySets_last.
Qed.

Lemma failed_parse_store_witness :
  ∃ ini' : Ini,
    ReadFrom 10 NewIni (runes "a=1" ++ LF ++ runes "[x" ++ LF)
    = Some (ini', -1, Some (ErrSectionNewline (mkPosition 2 3)))
    ∧ Load 10 (runes "a=1" ++ LF ++ runes "[x" ++ LF)
      = Some (None, Some (ErrSectionNewline (mkPosition 2 3)))
    ∧ Has ini' [] (runes "a") = true.
Proof.
  eexists. split; [by vm_compute|].
  destruct (failed_parse_store 10 NewIni _ (runes "a=1" ++ LF ++ runes "[x" ++ LF)
              (-1) (ErrSectionNewline (mkPosition 2 3)) eq_refl)
    as (_ & HLoad & calls & Hcalls & _ & _ & Hin & _).
  split; [exact HLoad|].
  vm_compute in Hcalls. injection Hcalls as <-.
  apply (Hin (mkSetCall [] (runes "a") (runes "1"))). by left.
Defined.

(** The claim of C3 as stated fails for [ReadFrom]: on [a=1], a line feed
    and an unterminated header, the call returns the error and the receiver
    holds the pair set before it. *)
Lemma ReadFrom_keeps_partial_store :
  (λ '(ini, n, err), (Has ini [] (runes "a"), Get ini [] (runes "a"), n, err))
    <$> ReadFrom 10 NewIni (runes "a=1" ++ LF ++ runes "[x" ++ LF)
  = Some (true, runes "1", -1, Some (ErrSectionNewline (mkPosition 2 3))).
Proof. by vm_compute. Qed.

(** ** The serializer *)

Section SerializerFacts.
Variable isPrintTable : rune → bool.
Context {W E : Type}.
Variable Write : W → list Z → W * Z * option E.
Variable rangeData : list (list Z).
Variable rangeKeys : list Z → list (list Z).

Lemma emit_app (l1 l2 : list (list Z)) (w : W) (nw : Z) :
  emit Write (l1 ++ l2) w nw =
  match emit Write l1 w nw with
  | (w, nw, Some e) => (w, nw, Some e)
  | (w, nw, None) => emit Write l2 w nw
  end.
Proof.
  revert w nw. induction l1 as [|l l1 IH]; intros w nw; simpl; [done|].
  destruct (Write w l) as [[w' n] [e|]]; [done|apply IH].
Qed.

Lemma writeDefaultKeys_emit (keys : list (list Z)) (m : gmap (list Z) (list Z))
    (w : W) (nw : Z) :
  writeDefaultKeys isPrintTable Write keys m w nw
  = emit Write (map (λ k, pairLine isPrintTable k (default [] (m !! k))) keys) w nw.
Proof.
  revert w nw. induction keys as [|k keys IH]; intros w nw; simpl; [done|].
  destruct (Write w _) as [[w' n] [e|]]; [done|apply IH].
Qed.

Lemma writeSectionKeys_emit (keys : list (list Z)) (section : gostring)
    (ini : Ini) (index : Z) (w : W) (nw : Z) :
  0 < index →
  writeSectionKeys isPrintTable Write keys section ini index w nw
  = emit Write (map (λ k, pairLine isPrintTable k
                      (default [] (default ∅ (data ini !! section) !! k))) keys)
      w nw.
Proof.
  revert index w nw. induction keys as [|k keys IH]; intros index w nw Hi; simpl;
    [done|].
  rewrite (proj2 (Z.eqb_neq index 0)) by lia.
  destruct (Write w _) as [[w' n] [e|]]; [done|]. apply IH. lia.
Qed.

Lemma writeSectionKeys_lines (section : gostring) (ini : Ini) (w : W) (nw : Z) :
  writeSectionKeys isPrintTable Write (rangeKeys section) section ini 0 w nw
  = emit Write (sectionLines isPrintTable rangeKeys ini section) w nw.
Proof.
  unfold sectionLines. destruct (rangeKeys section) as [|k keys]; [done|].
  cbn [writeSectionKeys emit map]. simpl (0 =? 0). cbv iota.
  destruct (Write w (headerLine section)) as [[w1 n1] [e|]]; [done|].
  destruct (Write w1 _) as [[w2 n2] [e|]]; [done|].
  apply writeSectionKeys_emit. lia.
Qed.

Lemma writeSections_emit (sections : list (list Z)) (ini : Ini) (w : W) (nw : Z) :
  writeSections isPrintTable Write rangeKeys sections ini w nw
  = emit Write (concat (map (sectionLines isPrintTable rangeKeys ini)
                    (List.filter (λ s, negb (bool_decide (s = []))) sections)))
      w nw.
Proof.
  revert w nw. induction sections as [|section sections IH]; intros w nw; [done|].
  cbn [writeSections List.filter].
  destruct (decide (section = [])) as [->|Hne].
  - rewrite bool_decide_eq_true_2 by done. apply IH.
  - rewrite bool_decide_eq_false_2 by done. cbn [negb map concat].
    rewrite emit_app, writeSectionKeys_lines.
    destruct (emit Write (sectionLines isPrintTable rangeKeys ini section) w nw)
      as [[w' nw'] [e|]]; [done|apply IH].
Qed.

(** [WriteTo] writes the lines of [outputLines], one [Write] each, the
    default section first; it returns the sum of the counts the writes
    returned and, when a write fails, that error at once, the later lines
    unwritten. *)
Theorem WriteTo_lines (ini : Ini) (w : W) :
  WriteTo isPrintTable Write rangeData rangeKeys ini w
  = emit Write (outputLines isPrintTable rangeData rangeKeys ini) w 0.
Proof.
  unfold WriteTo, outputLines, defaultLines. rewrite emit_app.
  destruct (data ini !! []) as [m|].
  - rewrite writeDefaultKeys_emit.
    destruct (emit Write _ w 0) as [[w' nw'] [e|]]; [done|apply writeSections_emit].
  - simpl. apply writeSections_emit.
Qed.

End SerializerFacts.

(** ** The round trip *)

Section RoundTrip.
Variable isPrintTable : rune → bool.

Lemma escapedRune_plain (c : rune) :
  valueChar isPrintTable c → escapedRune isPrintTable c = [c].
Proof.
  intros (Hp & Hq & Hb). unfold escapedRune.
  by rewrite (proj2 (Z.eqb_neq c tokenQuote)),
    (proj2 (Z.eqb_neq c tokenBackslash)), Hp.
Qed.

Lemma Quote_plain (v : gostring) :
  valuePlain isPrintTable v → Quote isPrintTable v = tokenQuote :: v ++ [tokenQuote].
Proof.
  intros Hv. unfold Quote. cbn [app]. do 2 f_equal.
  induction Hv as [|c v Hc _ IH]; [done|].
  cbn [map concat]. by rewrite escapedRune_plain, IH.
Qed.

Lemma valueChar_stringChar (c : rune) : valueChar isPrintTable c → stringChar c.
Proof.
  intros (Hp & Hq & Hb). unfold stringChar. repeat split; try done.
  - unfold IsPrint in Hp. destruct (Z.leb_spec c 255); [|lia].
    destruct (Z.leb_spec 32 c); [lia|]. simpl in Hp.
    destruct (Z.leb_spec 161 c); [lia|]. done.
  - intros ->. by vm_compute in Hp.
Qed.

Lemma pairLine_plain (k v rest : gostring) :
  valuePlain isPrintTable v →
  pairLine isPrintTable k v ++ rest
  = k ++ tokenEqual :: tokenQuote :: v ++ tokenQuote :: tokenLF :: rest.
Proof.
  intros Hv. unfold pairLine. rewrite Quote_plain by done.
  repeat (rewrite <- app_assoc; cbn [app]). done.
Qed.

Lemma readCalls_skip_LF (s : Scanner) (p : Position) (rest cur : gostring)
    (fuel : nat) :
  positioned s p (tokenLF :: rest) →
  ∃ s', positioned s' (advance p tokenLF) rest
      ∧ readCalls (S fuel) s cur = readCalls fuel s' cur.
Proof.
  intros H.
  destruct (Scan_simple s p tokenLF rest H) as (s' & HS & Hs' & _); try done.
  exists s'. split; [done|].
  cbn [readCalls]. rewrite (Peek_id s p _ H) by done. simpl hd.
  simpl (_ =? _). cbn [orb]. cbv iota. by rewrite HS.
Qed.

Lemma readCalls_pair (s : Scanner) (p : Position) (k v rest cur : gostring)
    (fuel : nat) :
  keyPlain k → valuePlain isPrintTable v →
  positioned s p (pairLine isPrintTable k v ++ rest) →
  (length k + 2 ≤ fuel)%nat →
  ∃ s' p', positioned s' p' rest
      ∧ readCalls (S (S fuel)) s cur
        = (λ '(calls, err), (mkSetCall cur k v :: calls, err))
            <$> readCalls fuel s' cur.
Proof.
  intros [Hk Hstart] Hv H Hfuel.
  rewrite pairLine_plain in H by done.
  assert (Hrun : Forall keyRunChar k).
  { eapply Forall_impl; [exact Hk|]. by intros c (? & ? & ? & _). }
  assert (Hkeep : List.filter keptInKey k = k).
  { clear -Hk. induction Hk as [|c k (_ & _ & _ & Hsp & Htab) _ IH]; [done|].
    cbn [List.filter]. unfold keptInKey at 1.
    rewrite (proj2 (Z.eqb_neq c tokenSpace)), (proj2 (Z.eqb_neq c tokenTab)) by done.
    simpl. by rewrite IH. }
  destruct (readKeyLoop_equal k [] (tokenQuote :: (v ++ tokenQuote :: tokenLF :: rest))
              s p [] (S fuel)) as (s1 & HK & Hs1); [done|done|exact H|lia|].
  fold (readKey (S fuel) s) in HK. cbn [app] in HK, Hs1.
  rewrite Hkeep in HK.
  destruct (readValue_quoted_plain s1 (positionAfter p (k ++ [tokenEqual])) v
              (tokenLF :: rest) fuel) as (s2 & HV & Hs2).
  { eapply Forall_impl; [exact Hv|]. apply valueChar_stringChar. }
  { exact Hs1. }
  destruct (readCalls_skip_LF s2 _ rest cur fuel Hs2) as (s3 & Hs3 & HL).
  exists s3. eexists. split; [exact Hs3|].
  remember (S fuel) as f eqn:Hf in *. cbn [readCalls].
  assert (HPeek : Peek s = (hd tokenEqual (k ++ [tokenEqual]), s)).
  { destruct k as [|c k]; simpl in H |- *.
    - by rewrite (Peek_id s p _ H).
    - rewrite (Peek_id s p _ H); [done|]. simpl.
      inversion Hk as [|? ? (Hc & _) _]. by apply ValidRune_nonneg. }
  rewrite HPeek.
  assert (Hhd : keyStart (hd tokenEqual (k ++ [tokenEqual]))
                ∧ 0 <= hd tokenEqual (k ++ [tokenEqual])).
  { destruct k as [|c k]; simpl in *; [by vm_compute|]. split; [done|].
    inversion Hk as [|? ? (Hc & _) _]. by apply ValidRune_nonneg. }
  destruct Hhd as [(H1 & H2 & H3 & H4 & H5 & _) H0].
  set (c0 := hd tokenEqual (k ++ [tokenEqual])) in *.
  rewrite (proj2 (Z.eqb_neq c0 EOF)) by (unfold EOF; lia).
  rewrite (proj2 (Z.eqb_neq c0 tokenCommentClassic)),
    (proj2 (Z.eqb_neq c0 tokenCommentHash)), (proj2 (Z.eqb_neq c0 tokenLF)),
    (proj2 (Z.eqb_neq c0 tokenCR)), (proj2 (Z.eqb_neq c0 tokenSectionStart)) by done.
  cbn [orb]. rewrite HK, HV, HL.
  by destruct (readCalls fuel s3 cur) as [[calls err]|].
Qed.

Lemma readCalls_header (s : Scanner) (p : Position) (section rest cur : gostring)
    (fuel : nat) :
  sectionPlain section →
  positioned s p (headerLine section ++ rest) →
  (length section + 1 ≤ fuel)%nat →
  ∃ s' p', positioned s' p' rest
      ∧ readCalls (S (S fuel)) s cur = readCalls fuel s' section.
Proof.
  intros Hsec H Hfuel.
  unfold headerLine in H. repeat (rewrite <- app_assoc in H; cbn [app] in H).
  assert (Hrun : Forall sectionRunChar (tokenSectionStart :: section)).
  { constructor; [by vm_compute|].
    eapply Forall_impl; [exact Hsec|]. by intros c (? & ? & ? & ? & ? & ? & _). }
  assert (Hkeep : List.filter keptInSection section = section).
  { clear -Hsec. induction Hsec as [|c l (_ & Hst & _ & _ & _ & _ & Htab) _ IH];
      [done|].
    cbn [List.filter]. unfold keptInSection at 1.
    rewrite (proj2 (Z.eqb_neq c tokenSectionStart)), (proj2 (Z.eqb_neq c tokenTab))
      by done.
    simpl. by rewrite IH. }
  destruct (readSectionLoop_run (tokenSectionStart :: section) [] (tokenLF :: rest)
              tokenSectionStop s p [] (S fuel))
    as (s1 & HR & Hs1); [done|done|by left|exact H|simpl; lia|].
  unfold sectionEnd in HR. simpl (_ =? _) in HR. cbv iota in HR.
  cbn [List.filter app] in HR. simpl (keptInSection _) in HR. cbv iota in HR.
  rewrite Hkeep in HR.
  destruct (readCalls_skip_LF s1 _ rest section fuel Hs1) as (s2 & Hs2 & HL).
  exists s2. eexists. split; [exact Hs2|].
  remember (S fuel) as f eqn:Hf in *. cbn [readCalls].
  rewrite (Peek_id s p _ H) by done. simpl hd. simpl (_ =? _). cbn [orb]. cbv iota.
  unfold readSection. rewrite HR. exact HL.
Qed.

Lemma readCalls_items (items : list item) :
  ∀ (s : Scanner) (p : Position) (cur : gostring) (fuel : nat),
  Forall (itemPlain isPrintTable) items →
  positioned s p (concat (map (itemText isPrintTable) items)) →
  (length (concat (map (itemText isPrintTable) items)) + 2 ≤ fuel)%nat →
  readCalls fuel s cur = Some (callsOfItems cur items, None).
Proof.
  induction items as [|i items IH]; intros s p cur fuel Hplain H Hfuel.
  - destruct fuel as [|fuel]; [simpl in Hfuel; lia|].
    cbn [readCalls]. by rewrite (Peek_id s p _ H).
  - inversion Hplain as [|? ? Hi Hrest]; subst.
    cbn [map concat] in H, Hfuel.
    destruct i as [k v|section]; cbn [itemText itemPlain] in *.
    + destruct Hi as [Hk Hv].
      rewrite pairLine_plain in Hfuel by done.
      rewrite length_app in Hfuel. simpl in Hfuel. rewrite length_app in Hfuel.
      simpl in Hfuel.
      destruct fuel as [|[|fuel]]; [lia|lia|].
      destruct (readCalls_pair s p k v _ cur fuel Hk Hv H) as (s' & p' & Hs' & HR);
        [lia|].
      rewrite HR, (IH s' p' cur fuel); [done|done|done|lia].
    + unfold headerLine in Hfuel. rewrite !length_app in Hfuel. simpl in Hfuel.
      destruct fuel as [|[|fuel]]; [lia|lia|].
      destruct (readCalls_header s p section _ cur fuel Hi H) as (s' & p' & Hs' & HR);
        [lia|].
      rewrite HR. apply (IH s' p'); [done|done|lia].
Qed.

End RoundTrip.

Lemma byteLen_app (a b : gostring) : byteLen (a ++ b) = byteLen a + byteLen b.
Proof. induction a as [|c a IH]; simpl; [done|]. rewrite IH. lia. Qed.

(** Into a [bytes.Buffer] every line is written: the buffer ends with the
    lines in order and the count is their length in bytes. *)
Lemma emit_bufferWrite (lines : list (list Z)) (buffer : gostring) (nw : Z) :
  emit bufferWrite lines buffer nw
  = (buffer ++ concat lines, nw + byteLen (concat lines), None).
Proof.
  revert buffer nw. induction lines as [|l lines IH]; intros buffer nw; simpl.
  - rewrite app_nil_r. do 2 f_equal. lia.
  - rewrite IH, byteLen_app, <- app_assoc. do 2 f_equal. lia.
Qed.

Lemma Has_true_lookup (ini : Ini) (s k : gostring) :
  Has ini s k = true ↔ ∃ m v, data ini !! s = Some m ∧ m !! k = Some v.
Proof.
  unfold Has. split.
  - destruct (data ini !! s) as [m|]; [|done].
    destruct (m !! k) as [v|] eqn:E; [|done]. by exists m, v.
  - intros (m & v & -> & ->). done.
Qed.

Lemma Get_lookup (ini : Ini) (s k : gostring) (m : gmap (list Z) (list Z))
    (v : gostring) :
  data ini !! s = Some m → m !! k = Some v → Get ini s k = v.
Proof. unfold Get. by intros -> ->. Qed.

Lemma Get_Has_false (ini : Ini) (s k : gostring) :
  Has ini s k = false → Get ini s k = [].
Proof.
  unfold Has, Get. destruct (data ini !! s) as [m|]; [|done].
  by destruct (m !! k).
Qed.

(** When every call of a sequence sets the value that [target] holds, the
    store after the calls agrees with [target] on every key some call set. *)
Lemma applySets_agree (target : Ini) (calls : list setCall) :
  ∀ (ini : Ini) (s k : gostring),
  Forall (λ c, Get target (scSection c) (scKey c) = scValue c) calls →
  Exists (setsKey s k) calls →
  Get (applySets ini calls) s k = Get target s k
  ∧ Has (applySets ini calls) s k = true.
Proof.
  induction calls as [|c calls IH]; intros ini s k Hall Hex.
  - by apply Exists_nil in Hex.
  - inversion Hall as [|? ? Hc Hrest]; subst. cbn [applySets foldl].
    fold (applySets (applySet ini c) calls).
    destruct (decide (Exists (setsKey s k) calls)) as [Hlater|Hnone].
    + by apply IH.
    + apply Exists_cons in Hex as [[<- <-]|Hex]; [|done].
      apply not_Exists_Forall in Hnone; [|apply _].
      rewrite Get_applySets_other, Has_applySets_other by done.
      unfold applySet, Set_. rewrite Get_set_, Has_set_.
      by rewrite !decide_True.
Qed.

Lemma readCalls_Init (r cur : gostring) (fuel : nat) :
  headOk r → hd EOF r ≠ BOM →
  readCalls fuel (Init r) cur = readCalls fuel (start r) cur.
Proof.
  intros Hhd HBOM. destruct fuel as [|fuel]; [done|].
  cbn [readCalls].
  destruct (start_positioned r Hhd HBOM) as [-> _].
  by rewrite (Peek_start r Hhd HBOM).
Qed.

Section RoundTripStore.
Variable isPrintTable : rune → bool.
Variable rangeData : list (list Z).
Variable rangeKeys : list Z → list (list Z).

Lemma itemsOf_outputLines (ini : Ini) :
  map (itemText isPrintTable) (itemsOf rangeData rangeKeys ini)
  = outputLines isPrintTable rangeData rangeKeys ini.
Proof.
  unfold itemsOf, outputLines. rewrite map_app. f_equal.
  - unfold defaultItems, defaultLines, valueAt.
    destruct (data ini !! []) as [m|] eqn:E; [|done].
    rewrite map_map. by apply map_ext.
  - fold (namedSections rangeData).
    induction (namedSections rangeData) as [|sec secs IH]; [done|].
    cbn [map concat]. rewrite map_app, IH. f_equal.
    unfold sectionItems, sectionLines.
    destruct (rangeKeys sec) as [|k keys]; [done|].
    cbn [map itemText]. f_equal. f_equal. rewrite map_map. by apply map_ext.
Qed.

Lemma callsOfItems_pairs (ini : Ini) (cur section : gostring)
    (keys : list (list Z)) (items : list item) :
  callsOfItems cur (map (λ k, Pair k (valueAt ini section k)) keys ++ items)
  = map (λ k, mkSetCall cur k (valueAt ini section k)) keys
    ++ callsOfItems cur items.
Proof. induction keys as [|k keys IH]; [done|]. simpl. by rewrite IH. Qed.

Lemma callsOfItems_sections (ini : Ini) (secs : list (list Z)) (cur : gostring) :
  callsOfItems cur (concat (map (sectionItems rangeKeys ini) secs))
  = concat (map (λ sec, callsOfKeys ini sec (rangeKeys sec)) secs).
Proof.
  revert cur. induction secs as [|sec secs IH]; intros cur; [done|].
  cbn [map concat]. unfold sectionItems at 1, callsOfKeys at 1.
  destruct (rangeKeys sec) as [|k keys] eqn:E; [apply IH|].
  rewrite <- app_comm_cons. cbn [callsOfItems].
  rewrite callsOfItems_pairs. by rewrite IH.
Qed.

Lemma callsOfItems_itemsOf (ini : Ini) :
  callsOfItems [] (itemsOf rangeData rangeKeys ini)
  = match data ini !! [] with
    | Some _ => callsOfKeys ini [] (rangeKeys [])
    | None => []
    end
    ++ concat (map (λ sec, callsOfKeys ini sec (rangeKeys sec)) (namedSections rangeData)).
Proof.
  unfold itemsOf, defaultItems.
  destruct (data ini !! []) as [m|].
  - by rewrite callsOfItems_pairs, callsOfItems_sections.
  - apply callsOfItems_sections.
Qed.

End RoundTripStore.

Section RoundTripProof.
Variable isPrintTable : rune → bool.
Variable rangeData : list (list Z).
Variable rangeKeys : list Z → list (list Z).
Variable ini : Ini.
Hypothesis Horder : rangeOrder ini rangeData rangeKeys.

Lemma rangeKeys_lookup (section k : gostring) (m : gmap (list Z) (list Z)) :
  data ini !! section = Some m →
  In k (rangeKeys section) ↔ ∃ v, m !! k = Some v.
Proof.
  intros Hsec. destruct Horder as [_ Hk]. specialize (Hk section m Hsec).
  rewrite <- list_elem_of_In, Hk, list_elem_of_fmap. split.
  - intros ([k' v] & -> & Hin). exists v. by apply elem_of_map_to_list.
  - intros (v & Hv). exists (k, v). split; [done|]. by apply elem_of_map_to_list.
Qed.

Lemma rangeData_lookup (section : gostring) :
  In section rangeData ↔ ∃ m, data ini !! section = Some m.
Proof.
  destruct Horder as [Hd _].
  rewrite <- list_elem_of_In, Hd, list_elem_of_fmap. split.
  - intros ([s m] & -> & Hin). exists m. by apply elem_of_map_to_list.
  - intros (m & Hm). exists (section, m). split; [done|].
    by apply elem_of_map_to_list.
Qed.

Lemma namedSections_lookup (section : gostring) :
  In section (namedSections rangeData) ↔
  section ≠ [] ∧ ∃ m, data ini !! section = Some m.
Proof.
  unfold namedSections. rewrite filter_In, rangeData_lookup.
  rewrite negb_true_iff, bool_decide_eq_false. tauto.
Qed.

Lemma valueAt_lookup (section k v : gostring) (m : gmap (list Z) (list Z)) :
  data ini !! section = Some m → m !! k = Some v → valueAt ini section k = v.
Proof. unfold valueAt. intros -> Hv. simpl. by rewrite Hv. Qed.

(** The calls of the read-back name keys of the store with their values. *)
Lemma calls_in_store (c : setCall) :
  In c (callsOfItems [] (itemsOf rangeData rangeKeys ini)) →
  ∃ m, data ini !! scSection c = Some m ∧ m !! scKey c = Some (scValue c).
Proof.
  rewrite callsOfItems_itemsOf. intros [Hin|Hin]%in_app_or.
  - destruct (data ini !! []) as [m|] eqn:E; [|done].
    apply in_map_iff in Hin as (k & <- & Hk). simpl.
    apply (rangeKeys_lookup [] k m E) in Hk as (v & Hv).
    exists m. by rewrite (valueAt_lookup [] k v m).
  - apply in_concat in Hin as (l & Hl & Hin).
    apply in_map_iff in Hl as (sec & <- & Hsec).
    apply namedSections_lookup in Hsec as (_ & m & Hm).
    apply in_map_iff in Hin as (k & <- & Hk). simpl.
    apply (rangeKeys_lookup sec k m Hm) in Hk as (v & Hv).
    exists m. by rewrite (valueAt_lookup sec k v m).
Qed.

(** Every key of the store is named by a call of the read-back. *)
Lemma store_in_calls (s k v : gostring) (m : gmap (list Z) (list Z)) :
  data ini !! s = Some m → m !! k = Some v →
  Exists (setsKey s k) (callsOfItems [] (itemsOf rangeData rangeKeys ini)).
Proof.
  intros Hm Hv. apply List.Exists_exists.
  exists (mkSetCall s k (valueAt ini s k)). split; [|done].
  rewrite callsOfItems_itemsOf. apply in_or_app.
  assert (Hk : In k (rangeKeys s)).
  { apply (rangeKeys_lookup s k m Hm). by exists v. }
  destruct (decide (s = [])) as [->|Hne].
  - left. rewrite Hm.
    by apply (in_map (λ k, mkSetCall [] k (valueAt ini [] k))).
  - right. apply in_concat.
    exists (callsOfKeys ini s (rangeKeys s)). split.
    + apply (in_map (λ sec, callsOfKeys ini sec (rangeKeys sec))).
      apply namedSections_lookup. split; [done|by exists m].
    + by apply (in_map (λ k, mkSetCall s k (valueAt ini s k))).
Qed.

Hypothesis Hplain : storePlain isPrintTable ini.

Lemma pairs_plain (section : gostring) (m : gmap (list Z) (list Z)) (i : item) :
  data ini !! section = Some m →
  In i (map (λ k, Pair k (valueAt ini section k)) (rangeKeys section)) →
  itemPlain isPrintTable i.
Proof.
  intros Hm (k & <- & Hk)%in_map_iff.
  apply (rangeKeys_lookup section k m Hm) in Hk as (v & Hv).
  rewrite (valueAt_lookup section k v m) by done.
  by apply (proj2 (Hplain section m Hm) k v).
Qed.

Lemma itemsOf_plain : Forall (itemPlain isPrintTable) (itemsOf rangeData rangeKeys ini).
Proof.
  apply List.Forall_forall. intros i [Hin|Hin]%in_app_or.
  - unfold defaultItems in Hin.
    destruct (data ini !! []) as [m|] eqn:E; [|done].
    by apply (pairs_plain [] m).
  - apply in_concat in Hin as (l & Hl & Hin).
    apply in_map_iff in Hl as (sec & <- & Hsec).
    apply namedSections_lookup in Hsec as (_ & m & Hm).
    unfold sectionItems in Hin.
    destruct (rangeKeys sec) as [|k keys] eqn:E; [done|].
    destruct Hin as [<-|Hin].
    + apply (Hplain sec m Hm).
    + apply (pairs_plain sec m); [done|]. by rewrite E.
Qed.

Lemma items_head (items : list item) :
  Forall (itemPlain isPrintTable) items →
  headOk (concat (map (itemText isPrintTable) items))
  ∧ hd EOF (concat (map (itemText isPrintTable) items)) ≠ BOM.
Proof.
  intros [|i items' Hi _]; [done|]. cbn [map concat].
  destruct i as [k v|section]; [|done].
  destruct Hi as [[Hk Hstart] Hv]. cbn [itemText].
  rewrite pairLine_plain by done.
  destruct Hk as [|c k (Hc & _) _]; [done|].
  simpl in *. split; [by apply ValidRune_nonneg|]. apply Hstart.
Qed.
End RoundTripProof.

(** C5. Round trip.  For a store whose section names, keys and values hold
    no pathological character ([storePlain]) and for every order in which
    the ranges of [WriteTo] may visit its sections and keys, [WriteTo] into
    an empty buffer succeeds, and [Load] on the text written returns, with
    enough fuel, a store with the same value under every section and key:
    [Get] and [Has] agree on the two stores everywhere. *)
Theorem round_trip (isPrintTable : rune → bool) (rangeData : list (list Z))
    (rangeKeys : list Z → list (list Z)) (ini : Ini) :
  storePlain isPrintTable ini → rangeOrder ini rangeData rangeKeys →
  ∃ out,
    WriteTo isPrintTable bufferWrite rangeData rangeKeys ini []
    = (out, byteLen out, None)
    ∧ ∀ fuel, (length out + 2 ≤ fuel)%nat →
        ∃ ini', Load fuel out = Some (Some ini', None)
              ∧ ∀ s k, Get ini' s k = Get ini s k ∧ Has ini' s k = Has ini s k.
Proof.
  intros Hplain Horder.
  set (items := itemsOf rangeData rangeKeys ini).
  set (calls := callsOfItems [] items).
  exists (concat (map (itemText isPrintTable) items)). split.
  - rewrite WriteTo_lines, emit_bufferWrite. unfold items.
    by rewrite itemsOf_outputLines.
  - intros fuel Hfuel. exists (applySets NewIni calls).
    pose proof (itemsOf_plain isPrintTable rangeData rangeKeys ini Horder Hplain)
      as Hitems.
    destruct (items_head isPrintTable items Hitems) as [Hhd HBOM].
    split.
    + unfold Load. rewrite readLoop_readCalls, readCalls_Init by done.
      destruct (start_positioned _ Hhd HBOM) as [_ Hstart].
      by rewrite (readCalls_items isPrintTable items _ _ [] fuel Hitems Hstart Hfuel).
    + intros s k.
      assert (Hin : ∀ c, In c calls →
                ∃ m, data ini !! scSection c = Some m
                   ∧ m !! scKey c = Some (scValue c)).
      { intros c. apply (calls_in_store rangeData rangeKeys ini Horder). }
      destruct (Has ini s k) eqn:EHas.
      * apply Has_true_lookup in EHas as (m & v & Hm & Hv).
        apply (applySets_agree ini).
        -- apply List.Forall_forall. intros c (m' & Hm' & Hv')%Hin.
           by apply (Get_lookup ini _ _ m').
        -- by apply (store_in_calls rangeData rangeKeys ini Horder s k v m).
      * assert (Hnone : Forall (λ c, ¬ setsKey s k c) calls).
        { apply List.Forall_forall. intros c (m' & Hm' & Hv')%Hin [<- <-].
          assert (Has ini (scSection c) (scKey c) = true) as Ht.
          { apply Has_true_lookup. by exists m', (scValue c). }
          congruence. }
        rewrite Get_applySets_other, Has_applySets_other by done.
        rewrite (Get_Has_false ini s k EHas).
        unfold Get, Has, NewIni. simpl. by rewrite lookup_empty.
Qed.

(** A store populated by [Set] calls without pathological characters is
    plain. *)
Lemma storePlain_NewIni (isPrintTable : rune → bool) : storePlain isPrintTable NewIni.
Proof.
  intros section m H. unfold NewIni in H. simpl in H.
  by rewrite lookup_empty in H.
Qed.

Lemma storePlain_Set_ (isPrintTable : rune → bool) (ini : Ini) (s k v : gostring) :
  storePlain isPrintTable ini →
  sectionPlain s → keyPlain k → valuePlain isPrintTable v →
  storePlain isPrintTable (Set_ ini s k v).
Proof.
  intros Hini Hs Hk Hv section m. unfold Set_. rewrite data_set_.
  intros [[<- <-]|[Hne Hm]]%lookup_insert_Some.
  - split; [done|]. intros k' v' [[<- <-]|[Hne Hv']]%lookup_insert_Some; [done|].
    destruct (data ini !! s) as [m0|] eqn:E; simpl in Hv'.
    + by apply (proj2 (Hini s m0 E) k' v').
    + by rewrite lookup_empty in Hv'.
  - by apply Hini.
Qed.

Lemma round_trip_witness :
  ∃ out,
    WriteTo (λ _, false) bufferWrite exampleRangeData exampleRangeKeys exampleStore []
    = (out, byteLen out, None)
    ∧ ∀ fuel, (length out + 2 ≤ fuel)%nat →
        ∃ ini', Load fuel out = Some (Some ini', None)
              ∧ ∀ s k, Get ini' s k = Get exampleStore s k
                     ∧ Has ini' s k = Has exampleStore s k.
Proof.
  apply round_trip.
  - repeat apply storePlain_Set_; try apply storePlain_NewIni;
      first [ by (split; [repeat (constructor; [by vm_compute|]); constructor
                         | by vm_compute])
            | repeat (constructor; [by vm_compute|]); constructor ].
  - split.
    + vm_compute. reflexivity.
    + intros section m H. apply elem_of_map_to_list in H.
      vm_compute in H.
      apply elem_of_cons in H as [H|H]; [injection H as -> ->|].
      { vm_compute. apply perm_swap. }
      apply elem_of_cons in H as [H|H]; [injection H as -> ->|].
      { vm_compute. reflexivity. }
      by apply elem_of_nil in H.
Defined.

(** *** The lines written and the store *)

Lemma filter_Permutation_bool {A : Type} (f : A → bool) (l1 l2 : list A) :
  l1 ≡ₚ l2 → List.filter f l1 ≡ₚ List.filter f l2.
Proof.
  induction 1 as [|x l1 l2 _ IH|x y l|l1 l2 l3 _ IH1 _ IH2]; simpl.
  - done.
  - destruct (f x); [by constructor|done].
  - destruct (f x), (f y); try done. apply perm_swap.
  - by etrans.
Qed.

Section Lines.
Variable isPrintTable : rune → bool.
Variable rangeData : list (list Z).
Variable rangeKeys : list Z → list (list Z).
Variable ini : Ini.
Hypothesis Horder : rangeOrder ini rangeData rangeKeys.

Lemma pairLines_range (section : gostring) (m : gmap (list Z) (list Z)) :
  data ini !! section = Some m →
  map (λ k, pairLine isPrintTable k (valueAt ini section k)) (rangeKeys section)
  ≡ₚ pairLinesOf isPrintTable m.
Proof.
  intros Hm. destruct Horder as [_ Hk]. rewrite (Hk section m Hm).
  unfold pairLinesOf.
  change ((map_to_list m).*1) with (map fst (map_to_list m)).
  rewrite map_map.
  erewrite map_ext_in; [reflexivity|].
  intros [k v] Hin. simpl. f_equal.
  apply list_elem_of_In, elem_of_map_to_list in Hin.
  unfold valueAt. rewrite Hm. simpl. by rewrite Hin.
Qed.

Lemma defaultLines_store :
  defaultLines isPrintTable rangeKeys ini
  ≡ₚ pairLinesOf isPrintTable (default ∅ (data ini !! [])).
Proof.
  unfold defaultLines. destruct (data ini !! []) as [m|] eqn:E; simpl.
  - rewrite <- (pairLines_range [] m E). unfold valueAt. by rewrite E.
  - unfold pairLinesOf. by rewrite map_to_list_empty.
Qed.

Lemma sectionLines_store (section : gostring) (m : gmap (list Z) (list Z)) :
  data ini !! section = Some m →
  (m = ∅ ∧ sectionLines isPrintTable rangeKeys ini section = []) ∨
  (m ≠ ∅ ∧ ∃ lines,
     sectionLines isPrintTable rangeKeys ini section = headerLine section :: lines
     ∧ lines ≡ₚ pairLinesOf isPrintTable m).
Proof.
  intros Hm. pose proof (pairLines_range section m Hm) as Hp.
  destruct Horder as [_ Hk]. specialize (Hk section m Hm).
  unfold sectionLines. fold (valueAt ini section).
  destruct (rangeKeys section) as [|k keys] eqn:E.
  - left. split; [|done]. apply Permutation_nil in Hk.
    apply fmap_nil_inv in Hk. by apply map_to_list_empty_iff.
  - right. split.
    + intros ->. rewrite map_to_list_empty in Hk. simpl in Hk.
      symmetry in Hk. by apply Permutation_nil_cons in Hk.
    + by eexists.
Qed.

Lemma namedSections_store :
  namedSections rangeData
  ≡ₚ List.filter (λ s, negb (bool_decide (s = []))) (map_to_list (data ini)).*1.
Proof. destruct Horder as [Hd _]. by apply filter_Permutation_bool. Qed.
End Lines.

(** *** The lines written, character by character *)

Lemma hexDigit_letter (d : Z) :
  0 <= d < 16 → hexDigit d = nth (Z.to_nat d) hexLetters 0.
Proof.
  intros H.
  assert (E : d = 0 ∨ d = 1 ∨ d = 2 ∨ d = 3 ∨ d = 4 ∨ d = 5 ∨ d = 6 ∨ d = 7
              ∨ d = 8 ∨ d = 9 ∨ d = 10 ∨ d = 11 ∨ d = 12 ∨ d = 13 ∨ d = 14
              ∨ d = 15) by lia.
  repeat (destruct E as [->|E]; [by vm_compute|]). subst. by vm_compute.
Qed.

Lemma hexDigits_last (n : nat) (r : Z) :
  hexDigits (S n) r = hexDigits n (r / 16) ++ [hexDigit (r mod 16)].
Proof.
  revert r. induction n as [|n IH]; intros r.
  - cbn [hexDigits app]. do 2 f_equal.
    change (4 * Z.of_nat 0) with 0. rewrite Z.shiftr_0_r.
    change 15 with (Z.ones 4). by rewrite Z.land_ones by lia.
  - change (hexDigits (S (S n)) r)
      with (hexDigit (Z.land (Z.shiftr r (4 * Z.of_nat (S n))) 15)
            :: hexDigits (S n) r).
    rewrite IH.
    change (hexDigits (S n) (r / 16))
      with (hexDigit (Z.land (Z.shiftr (r / 16) (4 * Z.of_nat n)) 15)
            :: hexDigits n (r / 16)).
    cbn [app]. do 3 f_equal.
    replace (4 * Z.of_nat (S n)) with (4 + 4 * Z.of_nat n) by lia.
    rewrite <- Z.shiftr_shiftr by lia. f_equal.
    by rewrite Z.shiftr_div_pow2 by lia.
Qed.

Lemma hexDigits_hexOf (n : nat) (r : Z) : hexDigits n r = hexOf n r.
Proof.
  revert r. induction n as [|n IH]; intros r; [done|].
  rewrite hexDigits_last, IH. cbn [hexOf]. do 2 f_equal.
  apply hexDigit_letter. apply Z.mod_pos_bound. lia.
Qed.

(** [strconv.Quote] follows the quoting convention, character by
    character. *)
Lemma escapedRune_quotedChar (isPrintTable : rune → bool) (c : rune) :
  escapedRune isPrintTable c = quotedChar (IsPrint isPrintTable) c.
Proof.
  assert (Hnamed : ∀ x, In x [34; 92; 7; 8; 12; 10; 13; 9; 11] →
            escapedRune isPrintTable x = quotedChar (IsPrint isPrintTable) x).
  { intros x Hx. simpl in Hx.
    repeat (destruct Hx as [<-|Hx]; [by vm_compute|]). done. }
  destruct (decide (In c [34; 92; 7; 8; 12; 10; 13; 9; 11])) as [Hin|Hout];
    [by apply Hnamed|].
  assert (Hne : c ≠ 34 ∧ c ≠ 92 ∧ c ≠ 7 ∧ c ≠ 8 ∧ c ≠ 12 ∧ c ≠ 10 ∧ c ≠ 13
                ∧ c ≠ 9 ∧ c ≠ 11).
  { simpl in Hout. repeat split; intros ->; apply Hout; tauto. }
  destruct Hne as (H34 & H92 & H7 & H8 & H12 & H10 & H13 & H9 & H11).
  unfold escapedRune, quotedChar, escapeLetter, namedEscapes, tokenQuote,
    tokenBackslash.
  cbn [List.find fst snd].
  rewrite (proj2 (Z.eqb_neq c 34)), (proj2 (Z.eqb_neq c 92)),
    (proj2 (Z.eqb_neq c 7)), (proj2 (Z.eqb_neq c 8)), (proj2 (Z.eqb_neq c 12)),
    (proj2 (Z.eqb_neq c 10)), (proj2 (Z.eqb_neq c 13)), (proj2 (Z.eqb_neq c 9)),
    (proj2 (Z.eqb_neq c 11)) by done.
  rewrite (proj2 (Z.eqb_neq 7 c)), (proj2 (Z.eqb_neq 8 c)),
    (proj2 (Z.eqb_neq 12 c)), (proj2 (Z.eqb_neq 10 c)), (proj2 (Z.eqb_neq 13 c)),
    (proj2 (Z.eqb_neq 9 c)), (proj2 (Z.eqb_neq 11 c)), (proj2 (Z.eqb_neq 92 c)),
    (proj2 (Z.eqb_neq 34 c)) by done.
  cbn [orb fmap option_fmap option_map].
  destruct (IsPrint isPrintTable c); [done|].
  rewrite !hexDigits_hexOf.
  destruct ((c <? 32) || (c =? 127)) eqn:Elow; [done|].
  apply orb_false_iff in Elow as [Hlow%Z.ltb_ge _].
  assert (Ev : negb (ValidRune c)
               = ((55296 <=? c) && (c <=? 57343)) || (1114111 <? c)).
  { unfold ValidRune.
    destruct (Z.leb_spec 0 c), (Z.ltb_spec c 55296), (Z.ltb_spec 57343 c),
      (Z.leb_spec c 1114111), (Z.leb_spec 55296 c), (Z.leb_spec c 57343),
      (Z.ltb_spec 1114111 c); simpl; try done; lia. }
  rewrite Ev. by unfold RuneError.
Qed.

Lemma pairLine_pairText (isPrintTable : rune → bool) (k v : gostring) :
  pairLine isPrintTable k v = pairText (IsPrint isPrintTable) k v.
Proof.
  unfold pairLine, pairText, Quote, quotedValue, tokenEqual, tokenQuote, tokenLF.
  by rewrite (map_ext _ _ (escapedRune_quotedChar isPrintTable) v).
Qed.

Lemma headerLine_headerText (section : gostring) :
  headerLine section = headerText section.
Proof. done. Qed.

Lemma pairLinesOf_pairTextsOf (isPrintTable : rune → bool)
    (m : gmap (list Z) (list Z)) :
  pairLinesOf isPrintTable m = pairTextsOf (IsPrint isPrintTable) m.
Proof.
  unfold pairLinesOf, pairTextsOf. apply map_ext. intros [k v].
  apply pairLine_pairText.
Qed.

(** C9. For every order in which the ranges visit the sections and keys of
    the store, [WriteTo] writes lines one [Write] each, adding up the counts
    returned and stopping at the first error, which it returns ([emit]).
    The lines are first those of the default section, which are, in some
    order, the texts [key="value"] of its pairs ([pairText]: the key, an
    equals sign, the value between double quotes with its characters
    escaped by the quoting convention, a line feed); then those of the
    other sections of the store, each section once: no line for a section
    without keys, and else the text [[section]] ([headerText]: the name
    between brackets and a line feed) followed, in some order, by the texts
    [key="value"] of the pairs of the section.  The texts are spelled out
    without the definitions that [WriteTo] is made of. *)
Theorem WriteTo_contract (isPrintTable : rune → bool) {W E : Type}
    (Write : W → list Z → W * Z * option E) (rangeData : list (list Z))
    (rangeKeys : list Z → list (list Z)) (ini : Ini) (w : W) :
  rangeOrder ini rangeData rangeKeys →
  WriteTo isPrintTable Write rangeData rangeKeys ini w
  = emit Write
      (defaultLines isPrintTable rangeKeys ini
       ++ concat (map (sectionLines isPrintTable rangeKeys ini)
                    (namedSections rangeData))) w 0
  ∧ defaultLines isPrintTable rangeKeys ini
    ≡ₚ pairTextsOf (IsPrint isPrintTable) (default ∅ (data ini !! []))
  ∧ namedSections rangeData
    ≡ₚ List.filter (λ s, negb (bool_decide (s = []))) (map_to_list (data ini)).*1
  ∧ ∀ section m, data ini !! section = Some m →
      (m = ∅ ∧ sectionLines isPrintTable rangeKeys ini section = []) ∨
      (m ≠ ∅ ∧ ∃ lines,
         sectionLines isPrintTable rangeKeys ini section
         = headerText section :: lines
         ∧ lines ≡ₚ pairTextsOf (IsPrint isPrintTable) m).
Proof.
  intros Horder. split; [apply WriteTo_lines|]. split; [|split].
  - rewrite <- pairLinesOf_pairTextsOf.
    by apply (defaultLines_store isPrintTable rangeData).
  - by apply (namedSections_store rangeData rangeKeys).
  - intros section m Hm. rewrite <- pairLinesOf_pairTextsOf.
    destruct (sectionLines_store isPrintTable rangeData rangeKeys ini Horder
                section m Hm) as [Hempty|(Hne & lines & El & Hp)]; [by left|].
    right. split; [done|]. exists lines. by rewrite <- headerLine_headerText.
Qed.

Lemma exampleStore_rangeOrder :
  rangeOrder exampleStore exampleRangeData exampleRangeKeys.
Proof.
  split.
  - vm_compute. reflexivity.
  - intros section m H. apply elem_of_map_to_list in H.
    vm_compute in H.
    apply elem_of_cons in H as [H|H]; [injection H as -> ->|].
    { vm_compute. apply perm_swap. }
    apply elem_of_cons in H as [H|H]; [injection H as -> ->|].
    { vm_compute. reflexivity. }
    by apply elem_of_nil in H.
Qed.

Lemma WriteTo_contract_witness :
  WriteTo (λ _, false) bufferWrite exampleRangeData exampleRangeKeys exampleStore []
  = emit bufferWrite
      (defaultLines (λ _, false) exampleRangeKeys exampleStore
       ++ concat (map (sectionLines (λ _, false) exampleRangeKeys exampleStore)
                    (namedSections exampleRangeData))) [] 0
  ∧ defaultLines (λ _, false) exampleRangeKeys exampleStore
    ≡ₚ pairTextsOf (IsPrint (λ _, false)) (default ∅ (data exampleStore !! [])).
Proof.
  pose proof (WriteTo_contract (λ _, false) bufferWrite exampleRangeData
                exampleRangeKeys exampleStore [] exampleStore_rangeOrder)
    as (H1 & H2 & _).
  exact (conj H1 H2).
Defined.

(** With room for two writes, [WriteTo] on the example store writes the line
    of the default section and the header, and returns the count of these
    and the error of the third write. *)
Example WriteTo_failing_sink :
  WriteTo (λ _, false) limitedWrite exampleRangeData exampleRangeKeys exampleStore
    ([], 2%nat)
  = ((runes "foo=" ++ [tokenQuote] ++ runes "bar" ++ [tokenQuote] ++ LF
      ++ runes "[PHP]" ++ LF, 0%nat), 16, Some tt).
Proof. by vm_compute. Qed.

(** ** The fuel of the scanner's own loops is enough *)

Lemma skipWhitespace_stops (n : nat) (s : Scanner) :
  (length (src s) + 2 ≤ n)%nat →
  isWhitespace (ch (skipWhitespace n s)) = false.
Proof.
  revert s. induction n as [|n IH]; intros s Hn; [lia|].
  cbn [skipWhitespace]. destruct (isWhitespace (ch s)) eqn:E; [|done].
  destruct (src s) as [|c r] eqn:Hsrc.
  - rewrite (next_nil s Hsrc). destruct n as [|n]; [simpl in Hn; lia|]. done.
  - apply IH. rewrite (next_cons s c r Hsrc). simpl in *. lia.
Qed.

Lemma enoughFuel_next (s : Scanner) (n : nat) :
  enoughFuel s n → enoughFuel (next s) n.
Proof.
  intros H. destruct (src s) as [|c r] eqn:Hsrc.
  - rewrite (next_nil s Hsrc). right. split; [done|]. split; [done|].
    destruct H as [H|(_ & _ & H)]; [rewrite Hsrc in H; simpl in H; lia|done].
  - rewrite (next_cons s c r Hsrc). left. simpl.
    destruct H as [H|(_ & H & _)]; [rewrite Hsrc in H; simpl in H; lia|].
    congruence.
Qed.

Lemma enoughFuel_next_S (s : Scanner) (n : nat) :
  (length (src s) + 2 ≤ S n)%nat → enoughFuel (next s) n.
Proof.
  intros H. destruct (src s) as [|c r] eqn:Hsrc.
  - rewrite (next_nil s Hsrc). right. simpl in H.
    split; [done|]. split; [done|lia].
  - rewrite (next_cons s c r Hsrc). left. simpl in *. lia.
Qed.

Lemma enoughFuel_scanDigits (k : nat) (base : Z) (s : Scanner) (n : nat) :
  enoughFuel s n → enoughFuel (scanDigits s base k) n.
Proof.
  revert s. induction k as [|k IH]; intros s H; [done|].
  cbn [scanDigits]. destruct (digitVal (ch s) <? base); [|done].
  by apply IH, enoughFuel_next.
Qed.

Lemma enoughFuel_scanEscape (s : Scanner) (n : nat) :
  (length (src s) + 2 ≤ S n)%nat → enoughFuel (scanEscape s) n.
Proof.
  intros H. apply enoughFuel_next_S in H. unfold scanEscape.
  repeat (match goal with |- context [if ?b then _ else _] => destruct b end);
    first [ done
          | by apply enoughFuel_next
          | by apply enoughFuel_scanDigits
          | by apply enoughFuel_scanDigits, enoughFuel_next ].
Qed.

(** With the fuel that [scanString] gives it, the loop ends because the
    literal ends: at the closing quote, at a line feed or at the end of the
    input. *)
Lemma scanStringLoop_stops (n : nat) (s : Scanner) :
  enoughFuel s n →
  ch (scanStringLoop n s) = tokenQuote
  ∨ ch (scanStringLoop n s) = tokenLF
  ∨ ch (scanStringLoop n s) < 0.
Proof.
  revert s. induction n as [|n IH]; intros s H.
  - destruct H as [H|(_ & _ & H)]; lia.
  - cbn [scanStringLoop].
    destruct (Z.eqb_spec (ch s) tokenQuote) as [Hq|Hq]; [by left|].
    destruct (Z.eqb_spec (ch s) tokenLF) as [HLF|HLF]; [by right; left|].
    destruct (Z.ltb_spec (ch s) 0) as [Hneg|Hpos]; [by right; right|].
    cbn [orb].
    assert (Hlen : (length (src s) + 2 ≤ S n)%nat).
    { destruct H as [H|(HEOF & _)]; [done|]. unfold EOF in HEOF. lia. }
    destruct (ch s =? tokenBackslash).
    + by apply IH, enoughFuel_scanEscape.
    + by apply IH, enoughFuel_next_S.
Qed.

Lemma scanString_stops (s : Scanner) :
  ch (scanString s) = tokenQuote ∨ ch (scanString s) = tokenLF
  ∨ ch (scanString s) < 0.
Proof. unfold scanString. apply scanStringLoop_stops. left. simpl. lia. Qed.

(** * More properties of the package *)

(** ** [Set] and the other keys *)

(** X1. [Set(s,k,v)] changes what [Get] and [Has] answer for the section
    and key it names and for no other. *)
Theorem Set_frame (ini : Ini) (s k v s' k' : gostring) :
  ¬ (s = s' ∧ k = k') →
  Get (Set_ ini s k v) s' k' = Get ini s' k'
  ∧ Has (Set_ ini s k v) s' k' = Has ini s' k'.
Proof.
  intros Hne. unfold Set_. rewrite Get_set_, Has_set_.
  by rewrite !decide_False.
Qed.

Lemma Set_frame_witness :
  Get (Set_ (Set_ NewIni [] (runes "a") (runes "1")) [] (runes "b") (runes "2"))
    [] (runes "a")
  = Get (Set_ NewIni [] (runes "a") (runes "1")) [] (runes "a")
  ∧ Has (Set_ (Set_ NewIni [] (runes "a") (runes "1")) [] (runes "b") (runes "2"))
      [] (runes "a")
    = Has (Set_ NewIni [] (runes "a") (runes "1")) [] (runes "a").
Proof.
  apply Set_frame. intros [_ H]. discriminate H.
Defined.

Lemma Ini_eq (a b : Ini) : data a = data b → a = b.
Proof. destruct a, b. simpl. by intros ->. Qed.

(** X2. A second [Set] of the same section and key replaces the first, and
    two [Set] calls that name different keys give the same store in either
    order. *)
Theorem Set_compose (ini : Ini) (s k v s' k' v' : gostring) :
  Set_ (Set_ ini s k v) s k v' = Set_ ini s k v'
  ∧ (¬ (s = s' ∧ k = k') →
     Set_ (Set_ ini s k v) s' k' v' = Set_ (Set_ ini s' k' v') s k v).
Proof.
  unfold Set_. split.
  - apply Ini_eq. rewrite !data_set_.
    rewrite lookup_insert_eq. simpl. by rewrite !insert_insert_eq.
  - intros Hne. apply Ini_eq. rewrite !data_set_.
    destruct (decide (s = s')) as [<-|Hs].
    + assert (Hk : k ≠ k') by (intros ->; by apply Hne).
      rewrite !lookup_insert_eq, !insert_insert_eq. simpl.
      f_equal. by apply insert_insert_ne.
    + rewrite !lookup_insert_ne by done. by apply insert_insert_ne.
Qed.

Lemma Set_compose_witness :
  Set_ (Set_ NewIni (runes "s") (runes "a") (runes "1")) [] (runes "b") (runes "2")
  = Set_ (Set_ NewIni [] (runes "b") (runes "2")) (runes "s") (runes "a") (runes "1").
Proof.
  apply (proj2 (Set_compose NewIni (runes "s") (runes "a") (runes "1")
                  [] (runes "b") (runes "2"))).
  intros [H _]. discriminate H.
Defined.

(** ** The store keeps no section without keys *)





(** ** [ReadFrom] on a store that holds pairs *)

Lemma applySets_same (calls : list setCall) :
  ∀ (a b : Ini) (s k : gostring),
  Exists (setsKey s k) calls →
  Get (applySets a calls) s k = Get (applySets b calls) s k
  ∧ Has (applySets a calls) s k = true.
Proof.
  induction calls as [|c calls IH]; intros a b s k Hex.
  - by apply Exists_nil in Hex.
  - cbn [applySets foldl].
    fold (applySets (applySet a c) calls). fold (applySets (applySet b c) calls).
    destruct (decide (Exists (setsKey s k) calls)) as [Hlater|Hnone].
    + by apply IH.
    + apply Exists_cons in Hex as [[<- <-]|Hex]; [|done].
      apply not_Exists_Forall in Hnone; [|apply _].
      rewrite !Get_applySets_other, Has_applySets_other by done.
      unfold applySet, Set_. rewrite !Get_set_, Has_set_.
      by rewrite !decide_True.
Qed.

Lemma applySets_Has (calls : list setCall) (ini : Ini) (s k : gostring) :
  Has (applySets ini calls) s k
  = bool_decide (Exists (setsKey s k) calls) || Has ini s k.
Proof.
  destruct (decide (Exists (setsKey s k) calls)) as [Hex|Hnone].
  - rewrite bool_decide_eq_true_2 by done.
    by apply (applySets_same calls ini ini).
  - rewrite bool_decide_eq_false_2 by done.
    apply not_Exists_Forall in Hnone; [|apply _].
    by rewrite Has_applySets_other.
Qed.

Lemma Has_NewIni (s k : gostring) : Has NewIni s k = false.
Proof. unfold Has, NewIni. simpl. by rewrite lookup_empty. Qed.

(** X4. [ReadFrom] never removes a key and, when it returns an error, has
    changed no key but those the failed pass set: whatever it returns, the
    receiver has every key it had, and a key that the input does not set
    keeps its value. *)
Theorem ReadFrom_keeps_keys (fuel : nat) (ini ini' : Ini) (r : gostring) (n : Z)
    (err : option error) :
  ReadFrom fuel ini r = Some (ini', n, err) →
  ∃ calls,
    readCalls fuel (Init r) [] = Some (calls, err)
    ∧ ∀ s k,
        (Has ini s k = true → Has ini' s k = true)
        ∧ (Forall (λ c, ¬ setsKey s k c) calls →
           Get ini' s k = Get ini s k ∧ Has ini' s k = Has ini s k).
Proof.
  unfold ReadFrom. rewrite readLoop_readCalls.
  destruct (readCalls fuel (Init r) []) as [[calls [e|]]|]; simpl; [| |done];
    intros [= <- _ <-]; exists calls; (split; [done|]); intros s k; split;
    first [ apply Has_applySets_mono
          | intros Hnone; by rewrite Get_applySets_other, Has_applySets_other ].
Qed.

Lemma ReadFrom_keeps_keys_witness :
  ∃ ini',
    ReadFrom 10 (Set_ NewIni [] (runes "old") (runes "1")) (runes "k=v")
    = Some (ini', 0, None)
    ∧ Has ini' [] (runes "old") = true.
Proof.
  eexists. split; [by vm_compute|].
  destruct (ReadFrom_keeps_keys 10 (Set_ NewIni [] (runes "old") (runes "1")) _
              (runes "k=v") 0 None eq_refl) as (calls & _ & H).
  apply (proj1 (H [] (runes "old"))). by vm_compute.
Defined.

(** X5. [ReadFrom] on a store that holds pairs merges the input into it:
    when [Load] returns a store for the input, [ReadFrom] returns 0 and no
    error, and the receiver then has the keys of both; a key of the loaded
    store has the loaded value, any other key the value it had. *)
Theorem ReadFrom_merges (fuel : nat) (ini loaded : Ini) (r : gostring) :
  Load fuel r = Some (Some loaded, None) →
  ∃ ini',
    ReadFrom fuel ini r = Some (ini', 0, None)
    ∧ ∀ s k,
        Has ini' s k = Has loaded s k || Has ini s k
        ∧ Get ini' s k = if Has loaded s k then Get loaded s k else Get ini s k.
Proof.
  unfold ReadFrom, Load. rewrite !readLoop_readCalls.
  destruct (readCalls fuel (Init r) []) as [[calls [e|]]|]; simpl; [done| |done].
  intros [= <-]. eexists. split; [done|]. intros s k.
  rewrite !applySets_Has, Has_NewIni, orb_false_r. split; [done|].
  destruct (decide (Exists (setsKey s k) calls)) as [Hex|Hnone].
  - rewrite bool_decide_eq_true_2 by done.
    by apply (applySets_same calls ini NewIni).
  - rewrite bool_decide_eq_false_2 by done.
    apply not_Exists_Forall in Hnone; [|apply _].
    by rewrite Get_applySets_other.
Qed.

Lemma ReadFrom_merges_witness :
  ∃ ini',
    ReadFrom 10 (Set_ NewIni [] (runes "old") (runes "1")) (runes "k=v")
    = Some (ini', 0, None)
    ∧ ∀ s k,
        Has ini' s k
        = Has (Set_ NewIni [] (runes "k") (runes "v")) s k
          || Has (Set_ NewIni [] (runes "old") (runes "1")) s k
        ∧ Get ini' s k
          = if Has (Set_ NewIni [] (runes "k") (runes "v")) s k
            then Get (Set_ NewIni [] (runes "k") (runes "v")) s k
            else Get (Set_ NewIni [] (runes "old") (runes "1")) s k.
Proof.
  apply (ReadFrom_merges 10). by vm_compute.
Defined.

(** ** [readValue] has no error *)

Lemma readValueLoop_Ok (fuel : nat) :
  ∀ (s : Scanner) (buffer : gostring),
  match readValueLoop fuel s buffer with
  | Some (Err _, _) => False
  | _ => True
  end.
Proof.
  induction fuel as [|fuel IH]; intros s buffer; [done|].
  cbn [readValueLoop]. destruct (Scan s) as [token s'].
  destruct (token =? EOF); [done|].
  destruct (token =? TokString); [done|].
  destruct (token =? tokenLF); [done|].
  destruct (token =? tokenCR); [apply IH|].
  destruct (token =? tokenSpace); [|apply IH].
  destruct (Nat.eqb (length buffer) 0); apply IH.
Qed.

(** X6. [readValue] never returns an error, whatever follows the equals
    sign: when it returns, it returns a value. *)
Theorem readValue_never_fails (fuel : nat) (s : Scanner) :
  match readValue fuel s with
  | Some (Err _, _) => False
  | _ => True
  end.
Proof. apply readValueLoop_Ok. Qed.

(** ** The names that reading sets *)

(** [Scan] never returns a tab, which it skips, nor a double quote, which
    starts a string token. *)
Lemma Scan_token (s : Scanner) :
  fst (Scan s) ≠ tokenTab ∧ fst (Scan s) ≠ tokenQuote.
Proof.
  rewrite Scan_unfold.
  set (s0 := snd (Peek s)).
  pose proof (skipWhitespace_stops (2 + length (src s0)) s0 ltac:(lia)) as Hws.
  set (s1 := skipWhitespace (2 + length (src s0)) s0) in *.
  rewrite isWhitespace_tab in Hws. apply Z.eqb_neq in Hws.
  unfold scanToken.
  replace (ch (resetToken s1)) with (ch s1) by (by destruct s1).
  destruct (Z.eqb_spec (ch s1) EOF) as [HEOF|HEOF]; [done|].
  destruct (Z.eqb_spec (ch s1) tokenQuote) as [Hq|Hq]; [done|].
  done.
Qed.

Lemma WriteRune_char (buffer : gostring) (token : rune) (P : rune → Prop) :
  Forall P buffer → P token → P RuneError → Forall P (WriteRune buffer token).
Proof.
  intros Hb Ht He. unfold WriteRune. apply Forall_app. split; [done|].
  constructor; [|done]. by destruct (ValidRune token).
Qed.

Lemma readKeyLoop_clean (fuel : nat) :
  ∀ (s s' : Scanner) (buffer key : gostring),
  Forall cleanKeyChar buffer →
  readKeyLoop fuel s buffer = Some (Ok key, s') → Forall cleanKeyChar key.
Proof.
  induction fuel as [|fuel IH]; intros s s' buffer key Hb; [done|].
  cbn [readKeyLoop]. pose proof (Scan_token s) as [Htab Hq].
  destruct (Scan s) as [token s1]. simpl in Htab, Hq.
  destruct (token =? EOF); [done|].
  destruct (Z.eqb_spec token tokenSpace) as [Hsp|Hsp]; [by apply IH|].
  destruct (Z.eqb_spec token tokenEqual) as [Heq|Heq]; [by intros [= <- _]|].
  destruct (token =? TokString); [done|].
  apply IH. apply WriteRune_char; [done|done|by vm_compute].
Qed.

Lemma readSectionLoop_clean (fuel : nat) :
  ∀ (s s' : Scanner) (buffer section : gostring),
  Forall cleanSectionChar buffer →
  readSectionLoop fuel s buffer = Some (Ok section, s') →
  Forall cleanSectionChar section.
Proof.
  induction fuel as [|fuel IH]; intros s s' buffer section Hb; [done|].
  cbn [readSectionLoop]. pose proof (Scan_token s) as [Htab Hq].
  destruct (Scan s) as [token s1]. simpl in Htab, Hq.
  destruct (Z.eqb_spec token tokenSectionStart) as [Hst|Hst]; [by apply IH|].
  destruct (Z.eqb_spec token tokenSectionStop) as [Hsp|Hsp]; [by intros [= <- _]|].
  destruct (Z.eqb_spec token tokenLF) as [HLF|HLF]; [done|].
  destruct (Z.eqb_spec token tokenCR) as [HCR|HCR]; [done|].
  cbn [orb]. apply IH. apply WriteRune_char; [done|done|by vm_compute].
Qed.

Lemma readCalls_clean (fuel : nat) :
  ∀ (s : Scanner) (cur : gostring) (calls : list setCall) (err : option error),
  Forall cleanSectionChar cur →
  readCalls fuel s cur = Some (calls, err) → Forall cleanCall calls.
Proof.
  induction fuel as [|fuel IH]; intros s cur calls err Hcur; [done|].
  cbn [readCalls]. destruct (Peek s) as [token s0].
  destruct (token =? EOF); [by intros [= <- _]|].
  destruct ((token =? tokenCommentClassic) || (token =? tokenCommentHash)).
  { destruct (readCommentLine fuel s0) as [s1|]; [by apply IH|done]. }
  destruct ((token =? tokenLF) || (token =? tokenCR)); [by apply IH|].
  destruct (token =? tokenSectionStart).
  { destruct (readSection fuel s0) as [[[section|e] s1]|] eqn:ES;
      [|by intros [= <- _]|done].
    apply IH. by apply (readSectionLoop_clean fuel s0 s1 [] section). }
  destruct (readKey fuel s0) as [[[key|e] s1]|] eqn:EK; [|by intros [= <- _]|done].
  destruct (readValue fuel s1) as [[[value|e] s2]|]; [|by intros [= <- _]|done].
  destruct (readCalls fuel s2 cur) as [[calls' err']|] eqn:ER; [|done].
  intros [= <- _]. constructor; [|by apply (IH s2 cur calls' err')].
  split; [|done]. by apply (readKeyLoop_clean fuel s0 s1 [] key).
Qed.

(** X7. Whatever the input, a key that [ReadFrom] or [Load] sets holds no
    space, tab, equals sign or double quote, and the section it is set in
    has a name without brackets, line feed, carriage return, tab or double
    quote: a key of the receiver after [ReadFrom] is a key it had before or
    has such a name. *)
Theorem names_read_are_clean (fuel : nat) (r : gostring) :
  (∀ ini ini' n err s k,
     ReadFrom fuel ini r = Some (ini', n, err) → Has ini' s k = true →
     Has ini s k = true ∨ (Forall cleanKeyChar k ∧ Forall cleanSectionChar s))
  ∧ (∀ ini' s k,
       Load fuel r = Some (Some ini', None) → Has ini' s k = true →
       Forall cleanKeyChar k ∧ Forall cleanSectionChar s).
Proof.
  assert (Hcalls : ∀ calls err ini s k,
            readCalls fuel (Init r) [] = Some (calls, err) →
            Has (applySets ini calls) s k = true →
            Has ini s k = true ∨ (Forall cleanKeyChar k ∧ Forall cleanSectionChar s)).
  { intros calls err ini s k HR. rewrite applySets_Has.
    intros [Hex|Hini]%orb_true_iff; [right|by left].
    apply bool_decide_eq_true in Hex.
    apply List.Exists_exists in Hex as (c & Hin & <- & <-).
    pose proof (readCalls_clean fuel (Init r) [] calls err ltac:(done) HR) as Hclean.
    rewrite List.Forall_forall in Hclean. by apply Hclean. }
  split.
  - intros ini ini' n err s k. unfold ReadFrom. rewrite readLoop_readCalls.
    destruct (readCalls fuel (Init r) []) as [[calls [e|]]|] eqn:ER; simpl;
      [| |done]; intros [= <- _ _] HHas; (eapply Hcalls; [reflexivity|exact HHas]).
  - intros ini' s k. unfold Load. rewrite readLoop_readCalls.
    destruct (readCalls fuel (Init r) []) as [[calls [e|]]|] eqn:ER; simpl;
      [done| |done].
    intros [= <-] HHas.
    destruct (Hcalls calls None NewIni s k eq_refl HHas) as [H|H]; [|done].
    by rewrite Has_NewIni in H.
Qed.

Lemma names_read_are_clean_witness :
  Forall cleanKeyChar (runes "ab") ∧ Forall cleanSectionChar (runes "s").
Proof.
  apply (proj2 (names_read_are_clean 20 (runes "[s]" ++ LF ++ runes "a b=1"))
           (Set_ NewIni (runes "s") (runes "ab") (runes "1"))).
  - by vm_compute.
  - by vm_compute.
Defined.

(** ** String literals with escapes *)

Lemma scanDigits_hex (digits rest : gostring) :
  ∀ (s : Scanner) (p : Position),
  Forall hexChar digits →
  positioned s p (digits ++ rest) →
  positioned (scanDigits s 16 (length digits)) (positionAfter p digits) rest
  ∧ tokBuf (scanDigits s 16 (length digits)) = tokBuf s ++ digits.
Proof.
  induction digits as [|d digits IH]; intros s p Hd H.
  - simpl. by rewrite app_nil_r.
  - inversion Hd as [|? ? [Hpos Hval] Hd']; subst.
    simpl in H. pose proof H as [(Hch & _) _].
    cbn [length scanDigits]. rewrite Hch.
    destruct (Z.ltb_spec (digitVal d) 16) as [_|?]; [|lia].
    destruct (next_positioned s p d _ H) as [Hn Htb]; [unfold EOF; lia|].
    destruct (IH (next s) (advance p d) Hd' Hn) as [Hp Htb'].
    split; [exact Hp|]. rewrite Htb', Htb. by rewrite <- app_assoc.
Qed.

Lemma scanEscape_unit (u : litUnit) (rest : gostring) (s : Scanner) (p : Position) :
  unitOk u → (∀ c, u ≠ UChar c) →
  positioned s p (unitText u ++ rest) →
  positioned (scanEscape s) (positionAfter p (unitText u)) rest
  ∧ tokBuf (scanEscape s) = tokBuf s ++ unitText u.
Proof.
  intros Hu Hnc H. destruct u as [c|c|letter digits]; [by destruct (Hnc c)| |].
  - cbn [unitOk] in Hu. cbn [unitText app] in H.
    destruct (next_positioned s p tokenBackslash _ H) as [H1 Htb1]; [done|].
    pose proof H1 as [(Hch1 & _) _].
    assert (Hc : c ≠ EOF).
    { intros ->. by vm_compute in Hu. }
    destruct (next_positioned (next s) _ c _ H1 Hc) as [H2 Htb2].
    unfold scanEscape. rewrite Hch1.
    change (existsb (Z.eqb c) [97; 98; 102; 110; 114; 116; 118; tokenBackslash; tokenQuote])
      with (existsb (Z.eqb c) simpleEscapes).
    rewrite Hu. split; [exact H2|]. rewrite Htb2, Htb1. by rewrite <- app_assoc.
  - destruct Hu as (Hl & Hlen & Hd). cbn [unitText app] in H.
    destruct (next_positioned s p tokenBackslash _ H) as [H1 Htb1]; [done|].
    pose proof H1 as [(Hch1 & _) _].
    assert (Hc : letter ≠ EOF) by (unfold EOF; lia).
    destruct (next_positioned (next s) _ letter _ H1 Hc) as [H2 Htb2].
    destruct (scanDigits_hex digits rest (next (next s)) _ Hd H2) as [H3 Htb3].
    rewrite Hlen in H3, Htb3.
    assert (E : scanEscape s = scanDigits (next (next s)) 16 (hexLen letter)).
    { unfold scanEscape. rewrite Hch1. unfold hexLen.
      by destruct Hl as [-> | [-> | ->]]. }
    rewrite E. split.
    + cbn [unitText positionAfter foldl].
      fold (positionAfter (advance (advance p tokenBackslash) letter) digits).
      exact H3.
    + rewrite Htb3, Htb2, Htb1. cbn [unitText]. by rewrite <- !app_assoc.
Qed.

Lemma literalText_cons (u : litUnit) (units : list litUnit) :
  literalText (u :: units) = unitText u ++ literalText units.
Proof. reflexivity. Qed.

Lemma scanStringLoop_backslash (fuel : nat) (s : Scanner) :
  ch s = tokenBackslash →
  scanStringLoop (S fuel) s = scanStringLoop fuel (scanEscape s).
Proof. intros H. cbn [scanStringLoop]. by rewrite H. Qed.

Lemma scanStringLoop_units (units : list litUnit) (tail : gostring) :
  ∀ (s : Scanner) (p : Position) (fuel : nat),
  Forall unitOk units → literalEnd tail →
  positioned s p (literalText units ++ tail) →
  (length units < fuel)%nat →
  positioned (scanStringLoop fuel s) (positionAfter p (literalText units)) tail
  ∧ tokBuf (scanStringLoop fuel s) = tokBuf s ++ literalText units.
Proof.
  induction units as [|u units IH]; intros s p fuel Hu Htail H Hfuel.
  - destruct fuel as [|fuel]; [simpl in Hfuel; lia|].
    simpl in H. cbn [scanStringLoop].
    assert (Hstop : (ch s =? tokenQuote) = true
                    ∨ ((ch s =? tokenLF) || (ch s <? 0)) = true).
    { destruct Htail as [->|[rest [-> | ->]]]; destruct H as [(-> & _) _];
        [by right|by left|by right]. }
    rewrite app_nil_r.
    destruct (ch s =? tokenQuote); [done|].
    destruct Hstop as [Hq | ->]; done.
  - destruct fuel as [|fuel]; [simpl in Hfuel; lia|].
    inversion Hu as [|? ? Hu1 Hu']; subst.
    rewrite literalText_cons, <- app_assoc in H.
    assert (Hlt : (length units < fuel)%nat) by (simpl in Hfuel; lia).
    destruct u as [c|c|letter digits].
    + destruct Hu1 as (Hpos & Hq & Hb & HLF).
      simpl in H. pose proof H as [(Hch & _) _].
      cbn [scanStringLoop]. rewrite Hch.
      rewrite (proj2 (Z.eqb_neq c tokenQuote)), (proj2 (Z.eqb_neq c tokenLF)),
        (proj2 (Z.eqb_neq c tokenBackslash)) by done.
      destruct (Z.ltb_spec c 0) as [?|_]; [lia|]. cbn [orb].
      destruct (next_positioned s p c _ H) as [Hn Htb]; [unfold EOF; lia|].
      destruct (IH (next s) (advance p c) fuel Hu' Htail Hn Hlt) as [Hp Htb'].
      split; [exact Hp|]. rewrite Htb', Htb, literalText_cons. simpl.
      by rewrite <- app_assoc.
    + pose proof H as [(Hch & _) _]. simpl in Hch.
      rewrite scanStringLoop_backslash by done.
      destruct (scanEscape_unit (UEscape c) _ s p Hu1 ltac:(done) H) as [He Htb].
      destruct (IH (scanEscape s) _ fuel Hu' Htail He Hlt) as [Hp Htb'].
      split.
      * by rewrite literalText_cons, positionAfter_app.
      * by rewrite Htb', Htb, literalText_cons, <- app_assoc.
    + pose proof H as [(Hch & _) _]. simpl in Hch.
      rewrite scanStringLoop_backslash by done.
      destruct (scanEscape_unit (UHex letter digits) _ s p Hu1 ltac:(done) H)
        as [He Htb].
      destruct (IH (scanEscape s) _ fuel Hu' Htail He Hlt) as [Hp Htb'].
      split.
      * by rewrite literalText_cons, positionAfter_app.
      * by rewrite Htb', Htb, literalText_cons, <- app_assoc.
Qed.

Lemma length_literalText (units : list litUnit) :
  (length units ≤ length (literalText units))%nat.
Proof.
  induction units as [|u units IH]; [done|].
  rewrite literalText_cons, length_app. destruct u; simpl; lia.
Qed.

(** [Scan] on a literal: one string token, whose text is the literal up to
    and with the character that ends it. *)
Lemma Scan_literal (s : Scanner) (p : Position) (units : list litUnit)
    (tail : gostring) :
  Forall unitOk units → literalEnd tail →
  positioned s p (tokenQuote :: literalText units ++ tail) →
  ∃ s', Scan s = (TokString, s')
      ∧ positioned s'
          (positionAfter p (tokenQuote :: literalText units ++ take 1 tail))
          (drop 1 tail)
      ∧ TokenText s' = tokenQuote :: literalText units ++ take 1 tail.
Proof.
  intros Hu Htail H.
  rewrite Scan_unfold, (Peek_id s p _ H) by done. simpl snd.
  pose proof H as [(Hch & Hsrc & _) _].
  cbn [Nat.add skipWhitespace]. rewrite isWhitespace_tab, Hch. simpl (_ =? _).
  cbv iota. unfold scanToken.
  replace (ch (resetToken s)) with tokenQuote by (by destruct s).
  simpl (_ =? _). cbv iota.
  pose proof (resetToken_positioned s p _ H) as H0.
  destruct (next_positioned _ _ _ _ H0) as [H1 Htb1]; [done|].
  unfold scanString.
  destruct (scanStringLoop_units units tail (next (resetToken s)) _
              (2 + length (src (next (resetToken s)))) Hu Htail H1) as [H2 Htb2].
  { pose proof (length_literalText units) as Hlen.
    destruct H1 as [Hl _].
    destruct (literalText units ++ tail) as [|c l] eqn:E; simpl in Hl.
    - apply app_eq_nil in E as [E _]. rewrite E in Hlen. simpl in Hlen. lia.
    - destruct Hl as (_ & -> & _).
      assert (length (c :: l) = length (literalText units ++ tail)) as El
        by (by rewrite E).
      rewrite length_app in El. simpl in El. lia. }
  set (s2 := scanStringLoop (2 + length (src (next (resetToken s))))
               (next (resetToken s))) in *.
  assert (Htb0 : tokBuf (resetToken s) = []) by (by destruct s).
  exists (next s2). split; [reflexivity|].
  cbn [positionAfter foldl].
  fold (positionAfter (advance p tokenQuote) (literalText units ++ take 1 tail)).
  rewrite positionAfter_app.
  destruct Htail as [->|[rest [-> | ->]]].
  - destruct (next_at_EOF s2 _ H2) as [H3 Htb3]. simpl. split.
    + exact H3.
    + unfold TokenText. rewrite Htb3, Htb2, Htb1, Htb0. simpl.
      by rewrite app_nil_r.
  - destruct (next_positioned s2 _ _ _ H2) as [H3 Htb3]; [done|]. split.
    + exact H3.
    + unfold TokenText. rewrite Htb3, Htb2, Htb1, Htb0. simpl.
      by rewrite <- ?app_assoc.
  - destruct (next_positioned s2 _ _ _ H2) as [H3 Htb3]; [done|]. split.
    + exact H3.
    + unfold TokenText. rewrite Htb3, Htb2, Htb1, Htb0. simpl.
      by rewrite <- ?app_assoc.
Qed.

Lemma literalText_head (units : list litUnit) (t : gostring) :
  Forall unitOk units → units ≠ [] →
  ∃ c l, literalText units ++ t = c :: l ∧ c ≠ tokenQuote.
Proof.
  intros Hu Hne. destruct Hu as [|u units Hu1 _]; [done|].
  rewrite literalText_cons.
  destruct u as [c|c|letter digits]; simpl.
  - destruct Hu1 as (_ & Hq & _). by eexists _, _.
  - by eexists _, _.
  - by eexists _, _.
Qed.

(** What [readValue] makes of the text of a string token. *)
Lemma trimQuotes_token (units : list litUnit) (t : gostring) :
  Forall unitOk units →
  (t = [] ∨ t = [tokenQuote] →
   trimQuotes (tokenQuote :: literalText units ++ t)
   = TrimRight (literalText units) [tokenQuote])
  ∧ (t = [tokenLF] →
     trimQuotes (tokenQuote :: literalText units ++ t)
     = literalText units ++ [tokenLF]).
Proof.
  intros Hu. unfold trimQuotes. cbn [TrimLeft]. simpl (inCutset _ tokenQuote).
  cbv iota.
  destruct units as [|u units].
  - split; [intros [-> | ->]|intros ->]; by vm_compute.
  - destruct (literalText_head (u :: units) t Hu ltac:(done)) as (c & l & E & Hc).
    assert (HTL : TrimLeft (literalText (u :: units) ++ t) [tokenQuote]
                  = literalText (u :: units) ++ t).
    { rewrite E. cbn [TrimLeft]. simpl.
      by rewrite (proj2 (Z.eqb_neq c tokenQuote)). }
    rewrite HTL. split.
    + intros [-> | ->]; [by rewrite app_nil_r|].
      by apply TrimRight_snoc_in.
    + intros ->.
      pose proof (TrimRight_app_stop (literalText (u :: units)) [] [tokenQuote]
                    tokenLF eq_refl) as E'.
      exact E'.
Qed.

Lemma readValueLoop_token (pre tabs : gostring) (units : list litUnit)
    (tail : gostring) :
  ∀ (s : Scanner) (p : Position) (buffer : gostring) (fuel : nat),
  Forall (λ c, c = tokenTab) tabs → Forall valueRunChar pre →
  Forall unitOk units → literalEnd tail →
  positioned s p (tabs ++ pre ++ tokenQuote :: literalText units ++ tail) →
  (length pre < fuel)%nat →
  ∃ s', readValueLoop fuel s buffer
        = Some (Ok (trimQuotes (tokenQuote :: literalText units ++ take 1 tail)), s')
      ∧ positioned s'
          (positionAfter p
             (tabs ++ pre ++ tokenQuote :: literalText units ++ take 1 tail))
          (drop 1 tail).
Proof.
  revert tabs. induction pre as [|c pre IH];
    intros tabs s p buffer fuel Htabs Hpre Hu Htail H Hfuel.
  - destruct fuel as [|fuel]; [simpl in Hfuel; lia|].
    cbn [app] in H.
    destruct (Scan_tabs tabs (tokenQuote :: literalText units ++ tail) s p)
      as (s1 & Hs1 & HScan); try done.
    destruct (Scan_literal s1 _ units tail Hu Htail Hs1) as (s' & HS & Hs' & Htext).
    exists s'. split.
    + cbn [readValueLoop]. rewrite HScan, HS. simpl (_ =? _). cbv iota.
      by rewrite Htext.
    + cbn [app]. by rewrite positionAfter_app.
  - inversion Hpre as [|? ? (Hv & HLF & Hq) Hpre']; subst.
    destruct (decide (c = tokenTab)) as [->|Htab].
    + destruct (IH (tabs ++ [tokenTab]) s p buffer fuel) as (s' & HR & Hs'); try done.
      * apply Forall_app. by split; [|constructor].
      * by rewrite <- app_assoc.
      * simpl in Hfuel. lia.
      * exists s'. split; [done|]. by rewrite <- app_assoc in Hs'.
    + destruct fuel as [|fuel]; [simpl in Hfuel; lia|].
      destruct (Scan_tabs tabs (c :: pre ++ tokenQuote :: literalText units ++ tail)
                  s p) as (s1 & Hs1 & HScan); try done.
      { simpl. by apply ValidRune_nonneg. }
      destruct (Scan_simple s1 _ c _ Hs1) as (s2 & HS & Hs2 & _); try done.
      { by apply ValidRune_nonneg. }
      cbn [readValueLoop]. rewrite HScan, HS.
      assert (HnEOF : (c =? EOF) = false).
      { apply Z.eqb_neq. apply ValidRune_nonneg in Hv. unfold EOF. lia. }
      assert (HnStr : (c =? TokString) = false).
      { apply Z.eqb_neq. apply ValidRune_nonneg in Hv. unfold TokString. lia. }
      rewrite HnEOF, HnStr, (proj2 (Z.eqb_neq c tokenLF)) by done.
      assert (Hlt : (length pre < fuel)%nat) by (simpl in Hfuel; lia).
      assert (Hnext : ∀ b, ∃ s',
                readValueLoop fuel s2 b
                = Some (Ok (trimQuotes (tokenQuote :: literalText units ++ take 1 tail)), s')
                ∧ positioned s'
                    (positionAfter p
                       (tabs ++ (c :: pre) ++ tokenQuote :: literalText units
                        ++ take 1 tail))
                    (drop 1 tail)).
      { intros b.
        destruct (IH [] s2 (advance (positionAfter p tabs) c) b fuel)
          as (s' & HR & Hs'); try done.
        exists s'. split; [done|].
        rewrite <- app_comm_cons, positionAfter_step. exact Hs'. }
      destruct (c =? tokenCR); [apply Hnext|].
      destruct (c =? tokenSpace); [|apply Hnext].
      destruct (Nat.eqb (length buffer) 0); apply Hnext.
Qed.

Lemma hexChar_not_quote (d : rune) : hexChar d → d ≠ tokenQuote.
Proof. intros [_ H] ->. by vm_compute in H. Qed.

Lemma unitText_last (u : litUnit) :
  unitOk u → u ≠ UEscape tokenQuote →
  ∃ x c, unitText u = x ++ [c] ∧ c ≠ tokenQuote.
Proof.
  intros Hu Hne. destruct u as [c|c|letter digits].
  - exists [], c. split; [done|]. by destruct Hu as (_ & Hq & _).
  - exists [tokenBackslash], c. split; [done|]. by intros ->.
  - destruct Hu as (Hl & Hlen & Hd).
    destruct digits as [|d0 digits] using rev_ind.
    + unfold hexLen in Hlen. simpl in Hlen.
      by destruct (letter =? 120), (letter =? 117).
    + apply Forall_app in Hd as [_ Hd]. inversion Hd as [|? ? Hd0 _]; subst.
      exists (tokenBackslash :: letter :: digits), d0.
      split; [done|]. by apply hexChar_not_quote.
Qed.

(** The trims on a literal's content: nothing goes unless the content ends
    in an escaped quote, and then just that quote goes. *)
Lemma TrimRight_literal (units : list litUnit) :
  Forall unitOk units →
  (last units ≠ Some (UEscape tokenQuote) →
   TrimRight (literalText units) [tokenQuote] = literalText units)
  ∧ (∀ units', units = units' ++ [UEscape tokenQuote] →
     TrimRight (literalText units) [tokenQuote]
     = literalText units' ++ [tokenBackslash]).
Proof.
  intros Hu. split.
  - destruct units as [|u units] using rev_ind; [done|].
    rewrite last_snoc. intros Hlast.
    apply Forall_app in Hu as [_ Hu]. inversion Hu as [|? ? Hu1 _]; subst.
    destruct (unitText_last u Hu1) as (x & c & E & Hc); [congruence|].
    unfold literalText. rewrite map_app, concat_app. simpl. rewrite app_nil_r, E.
    rewrite app_assoc.
    pose proof (TrimRight_app_stop (concat (map unitText units) ++ x) []
                  [tokenQuote] c) as E'.
    rewrite E'; [done|]. simpl. by rewrite (proj2 (Z.eqb_neq c tokenQuote)).
  - intros units' ->. unfold literalText. rewrite map_app, concat_app. simpl.
    pose proof (TrimRight_snoc_in (concat (map unitText units') ++ [tokenBackslash])
                  [tokenQuote] tokenQuote eq_refl) as E1.
    rewrite <- app_assoc in E1. simpl in E1. rewrite E1.
    by apply (TrimRight_app_stop (concat (map unitText units')) []
                [tokenQuote] tokenBackslash).
Qed.

(** X8. A quoted value.  When a literal follows the equals sign, whatever
    unquoted text stands between them, [readValue] returns the content of
    the literal as it is written, without decoding its escapes, and the
    scanner stands behind the closing quote; the text before the literal is
    dropped.  Only when the content ends in an escaped quote is it not
    whole: that quote is taken with the closing one, its backslash stays. *)
Theorem readValue_literal (s : Scanner) (p : Position) (pre rest : gostring)
    (units : list litUnit) (fuel : nat) :
  Forall valueRunChar pre → Forall unitOk units → (length pre < fuel)%nat →
  positioned s p (pre ++ tokenQuote :: literalText units ++ tokenQuote :: rest) →
  (∃ s', readValue fuel s
         = Some (Ok (TrimRight (literalText units) [tokenQuote]), s')
       ∧ positioned s'
           (positionAfter p (pre ++ tokenQuote :: literalText units ++ [tokenQuote]))
           rest)
  ∧ (last units ≠ Some (UEscape tokenQuote) →
     TrimRight (literalText units) [tokenQuote] = literalText units)
  ∧ (∀ units', units = units' ++ [UEscape tokenQuote] →
     TrimRight (literalText units) [tokenQuote]
     = literalText units' ++ [tokenBackslash]).
Proof.
  intros Hpre Hu Hfuel H. split; [|by apply TrimRight_literal].
  destruct (readValueLoop_token pre [] units (tokenQuote :: rest) s p [] fuel)
    as (s' & HR & Hs'); try done.
  { right. exists rest. by left. }
  exists s'. split; [|exact Hs'].
  unfold readValue. rewrite HR. do 3 f_equal.
  apply (proj1 (trimQuotes_token units [tokenQuote] Hu)). by right.
Qed.

Lemma readValue_literal_witness :
  ∃ s', readValue 10
          (start (runes " x " ++ [tokenQuote] ++ runes "a\" ++ [tokenQuote]
                  ++ runes "b" ++ [tokenQuote] ++ LF))
        = Some (Ok (runes "a\" ++ [tokenQuote] ++ runes "b"), s')
      ∧ positioned s' (mkPosition 1 10) LF.
Proof.
  refine (proj1 (readValue_literal _ (mkPosition 1 1) (runes " x ") LF
                   [UChar 97; UEscape tokenQuote; UChar 98] 10 _ _ _ _)).
  - repeat (constructor; [by vm_compute|]). constructor.
  - repeat (constructor; [by vm_compute|]). constructor.
  - simpl. lia.
  - by apply (start_positioned
                (runes " x " ++ [tokenQuote] ++ runes "a\" ++ [tokenQuote]
                 ++ runes "b" ++ [tokenQuote] ++ LF)).
Defined.

(** X9. A literal that is not closed.  When the line ends before the
    closing quote, the scanner makes the line feed part of the string token
    and [readValue] returns the content with that line feed, the scanner
    standing at the next line; when the input ends before the closing quote,
    [readValue] returns the content (less the quotes it ends with).  In
    neither case is there an error. *)
Theorem readValue_unterminated (s : Scanner) (p : Position) (pre rest : gostring)
    (units : list litUnit) (fuel : nat) :
  Forall valueRunChar pre → Forall unitOk units → (length pre < fuel)%nat →
  (positioned s p (pre ++ tokenQuote :: literalText units ++ tokenLF :: rest) →
   ∃ s', readValue fuel s = Some (Ok (literalText units ++ [tokenLF]), s')
       ∧ positioned s'
           (positionAfter p (pre ++ tokenQuote :: literalText units ++ [tokenLF]))
           rest)
  ∧ (positioned s p (pre ++ tokenQuote :: literalText units) →
     ∃ s', readValue fuel s
           = Some (Ok (TrimRight (literalText units) [tokenQuote]), s')
         ∧ positioned s'
             (positionAfter p (pre ++ tokenQuote :: literalText units)) []).
Proof.
  intros Hpre Hu Hfuel. split; intros H.
  - destruct (readValueLoop_token pre [] units (tokenLF :: rest) s p [] fuel)
      as (s' & HR & Hs'); try done.
    { right. exists rest. by right. }
    exists s'. split; [|exact Hs'].
    unfold readValue. rewrite HR. do 3 f_equal.
    by apply (proj2 (trimQuotes_token units [tokenLF] Hu)).
  - destruct (readValueLoop_token pre [] units [] s p [] fuel)
      as (s' & HR & Hs'); try done.
    { by left. }
    { by rewrite app_nil_r. }
    exists s'. split.
    + unfold readValue. rewrite HR. do 3 f_equal.
      apply (proj1 (trimQuotes_token units [] Hu)). by left.
    + simpl in Hs'. by rewrite app_nil_r in Hs'.
Qed.

Lemma readValue_unterminated_witness :
  ∃ s', readValue 10 (start ([tokenQuote] ++ runes "abc" ++ LF ++ runes "k=v"))
        = Some (Ok (runes "abc" ++ LF), s')
      ∧ positioned s' (mkPosition 2 1) (runes "k=v").
Proof.
  refine (proj1 (readValue_unterminated _ (mkPosition 1 1) [] (runes "k=v")
                   [UChar 97; UChar 98; UChar 99] 10 _ _ _) _).
  - constructor.
  - repeat (constructor; [by vm_compute|]). constructor.
  - simpl. lia.
  - by apply (start_positioned ([tokenQuote] ++ runes "abc" ++ LF ++ runes "k=v")).
Defined.

(** ** Files that are read to the end *)

Lemma readCommentLine_run (text tabs rest : gostring) :
  ∀ (s : Scanner) (p : Position) (fuel : nat),
  Forall (λ c, c = tokenTab) tabs → Forall commentChar text →
  positioned s p (tabs ++ text ++ tokenLF :: rest) →
  (length text < fuel)%nat →
  ∃ s', readCommentLine fuel s = Some s'
      ∧ positioned s' (positionAfter p (tabs ++ text ++ [tokenLF])) rest.
Proof.
  revert tabs. induction text as [|c text IH];
    intros tabs s p fuel Htabs Htext H Hfuel.
  - destruct fuel as [|fuel]; [simpl in Hfuel; lia|]. cbn [app] in H.
    destruct (Scan_tabs tabs (tokenLF :: rest) s p) as (s1 & Hs1 & HScan);
      try done.
    destruct (Scan_simple s1 _ tokenLF rest Hs1) as (s' & HS & Hs' & _); try done.
    exists s'. split.
    + cbn [readCommentLine]. by rewrite HScan, HS.
    + cbn [app]. by rewrite positionAfter_app.
  - inversion Htext as [|? ? (Hc & HLF & Hq) Htext']; subst.
    destruct (decide (c = tokenTab)) as [->|Htab].
    + destruct (IH (tabs ++ [tokenTab]) s p fuel) as (s' & HR & Hs'); try done.
      * apply Forall_app. by split; [|constructor].
      * by rewrite <- app_assoc.
      * simpl in Hfuel. lia.
      * exists s'. split; [done|]. by rewrite <- app_assoc in Hs'.
    + destruct fuel as [|fuel]; [simpl in Hfuel; lia|].
      destruct (Scan_tabs tabs (c :: text ++ tokenLF :: rest) s p)
        as (s1 & Hs1 & HScan); try done.
      destruct (Scan_simple s1 _ c _ Hs1) as (s2 & HS & Hs2 & _); try done.
      destruct (IH [] s2 (advance (positionAfter p tabs) c) fuel)
        as (s' & HR & Hs'); try done.
      { simpl in Hfuel. lia. }
      exists s'. split.
      * cbn [readCommentLine]. rewrite HScan, HS.
        by rewrite (proj2 (Z.eqb_neq c tokenLF)).
      * rewrite <- app_comm_cons, positionAfter_step. exact Hs'.
Qed.

(** The loop takes a text that starts as a key does for a key. *)
Lemma readCalls_key (s : Scanner) (p : Position) (text cur : gostring)
    (fuel : nat) :
  positioned s p text → pairStart (hd EOF text) →
  readCalls (S fuel) s cur
  = match readKey fuel s with
    | None => None
    | Some (Err err, _) => Some ([], Some err)
    | Some (Ok key, s) =>
        match readValue fuel s with
        | None => None
        | Some (Err err, _) => Some ([], Some err)
        | Some (Ok value, s) =>
            match readCalls fuel s cur with
            | None => None
            | Some (calls, err) => Some (mkSetCall cur key value :: calls, err)
            end
        end
    end.
Proof.
  intros H (H0 & H1 & H2 & H3 & H4 & H5).
  assert (Hhd : headOk text) by (by destruct text).
  cbn [readCalls]. rewrite (Peek_id s p text H Hhd).
  set (c0 := hd EOF text) in *.
  rewrite (proj2 (Z.eqb_neq c0 EOF)) by (unfold EOF; lia).
  by rewrite (proj2 (Z.eqb_neq c0 tokenCommentClassic)),
    (proj2 (Z.eqb_neq c0 tokenCommentHash)), (proj2 (Z.eqb_neq c0 tokenLF)),
    (proj2 (Z.eqb_neq c0 tokenCR)), (proj2 (Z.eqb_neq c0 tokenSectionStart)).
Qed.

Lemma hd_key_run (krun rest : gostring) :
  hd EOF (krun ++ tokenEqual :: rest) = hd tokenEqual krun.
Proof. by destruct krun. Qed.

Lemma positioned_text (s : Scanner) (p : Position) (a b rest : gostring) :
  positioned s (positionAfter p a) rest → a = b →
  positioned s (positionAfter p b) rest.
Proof. by intros H <-. Qed.

(** One turn of the loop of [ReadFrom] on an element. *)
Lemma readCalls_element (e : element) (rest : gostring) (s : Scanner)
    (p : Position) (cur : gostring) (fuel : nat) :
  elementOk e →
  (rest = [] ∨ ∃ rest', rest = tokenLF :: rest') ∨ (∀ k v, e ≠ EPair k v) →
  positioned s p (elementText e ++ rest) →
  (length (elementText e) + 1 ≤ fuel)%nat →
  ∃ s',
    positioned s'
      (positionAfter p
         (elementText e ++ match e with EPair _ _ => take 1 rest | _ => [] end))
      (match e with EPair _ _ => drop 1 rest | _ => rest end)
    ∧ readCalls (S fuel) s cur
      = (λ '(calls, err), (callsOfElement cur e ++ calls, err))
          <$> readCalls fuel s' (sectionAfter cur e).
Proof.
  intros Hok Hrest H Hfuel.
  destruct e as [c|c text|run|krun vrun|krun pre units];
    cbn [elementText elementOk callsOfElement sectionAfter app] in *.
  - (* a line feed or a carriage return *)
    destruct (Scan_simple s p c rest H) as (s' & HS & Hs' & _);
      [by destruct Hok as [-> | ->]..|].
    exists s'. split; [exact Hs'|].
    cbn [readCalls]. rewrite (Peek_id s p _ H) by (by destruct Hok as [-> | ->]).
    simpl hd.
    assert (E : (c =? EOF) = false ∧ ((c =? tokenCommentClassic)
                 || (c =? tokenCommentHash)) = false
                ∧ ((c =? tokenLF) || (c =? tokenCR)) = true).
    { by destruct Hok as [-> | ->]. }
    destruct E as (-> & -> & ->). rewrite HS. simpl.
    by destruct (readCalls fuel s' cur) as [[calls err]|].
  - (* a comment *)
    destruct Hok as [Hc Htext].
    rewrite <- app_assoc in H. cbn [app] in H.
    cbn [length] in Hfuel. rewrite length_app in Hfuel. simpl in Hfuel.
    destruct (readCommentLine_run (c :: text) [] rest s p fuel)
      as (s' & HR & Hs'); try done.
    { constructor; [|done]. by destruct Hc as [-> | ->]. }
    { simpl. lia. }
    exists s'. split.
    { apply (positioned_text _ _ _ _ _ Hs'). cbn [app]. by rewrite app_nil_r. }
    cbn [readCalls]. rewrite (Peek_id s p _ H) by (by destruct Hc as [-> | ->]).
    simpl hd.
    assert (E : (c =? EOF) = false ∧ ((c =? tokenCommentClassic)
                 || (c =? tokenCommentHash)) = true).
    { by destruct Hc as [-> | ->]. }
    destruct E as (-> & ->). rewrite HR. simpl.
    by destruct (readCalls fuel s' cur) as [[calls err]|].
  - (* a section header *)
    rewrite <- app_assoc in H. cbn [app] in H.
    cbn [length] in Hfuel. rewrite length_app in Hfuel. simpl in Hfuel.
    destruct (readSectionLoop_run (tokenSectionStart :: run) [] rest
                tokenSectionStop s p [] fuel)
      as (s' & HR & Hs'); try done.
    { constructor; [by vm_compute|done]. }
    { by left. }
    { simpl. lia. }
    exists s'. split.
    { apply (positioned_text _ _ _ _ _ Hs'). cbn [app]. by rewrite app_nil_r. }
    cbn [readCalls]. rewrite (Peek_id s p _ H) by done. simpl hd.
    simpl (_ =? _). cbn [orb]. cbv iota.
    unfold readSection. rewrite HR.
    unfold sectionEnd. simpl (_ =? _). cbv iota.
    cbn [List.filter app]. simpl (keptInSection _). cbv iota.
    by destruct (readCalls fuel s' _) as [[calls err]|].
  - (* a key and an unquoted value *)
    destruct Hok as (Hk & Hstart & Hv).
    destruct Hrest as [Hrest|Hne]; [|by destruct (Hne krun vrun)].
    rewrite <- app_assoc in H. cbn [app] in H.
    rewrite length_app in Hfuel. simpl in Hfuel.
    destruct (readKeyLoop_equal krun [] (vrun ++ rest) s p [] fuel)
      as (s1 & HK & Hs1); [done|done|exact H|lia|].
    fold (readKey fuel s) in HK. cbn [app] in HK, Hs1.
    destruct (readValueLoop_run vrun [] rest s1
                (positionAfter p (krun ++ [tokenEqual])) [] fuel)
      as (s2 & HV & Hs2); [done|done|exact Hrest|exact Hs1|lia|].
    fold (readValue fuel s1) in HV.
    exists s2. split.
    { rewrite <- positionAfter_app in Hs2.
      apply (positioned_text _ _ _ _ _ Hs2).
      by repeat (rewrite <- app_assoc; cbn [app]). }
    rewrite (readCalls_key s p _ cur fuel H) by (by rewrite hd_key_run).
    rewrite HK, HV.
    by destruct (readCalls fuel s2 cur) as [[calls err]|].
  - (* a key and a literal *)
    destruct Hok as (Hk & Hstart & Hpre & Hu).
    repeat (rewrite <- app_assoc in H; cbn [app] in H).
    repeat (rewrite length_app in Hfuel; cbn [length] in Hfuel).
    destruct (readKeyLoop_equal krun []
                (pre ++ tokenQuote :: literalText units ++ tokenQuote :: rest)
                s p [] fuel)
      as (s1 & HK & Hs1); [done|done|exact H|lia|].
    fold (readKey fuel s) in HK. cbn [app] in HK, Hs1.
    destruct (readValueLoop_token pre [] units (tokenQuote :: rest) s1
                (positionAfter p (krun ++ [tokenEqual])) [] fuel)
      as (s2 & HV & Hs2); [done|done|done| |exact Hs1|lia|].
    { right. exists rest. by left. }
    fold (readValue fuel s1) in HV.
    change (take 1 (tokenQuote :: rest)) with [tokenQuote] in HV, Hs2.
    change (drop 1 (tokenQuote :: rest)) with rest in Hs2.
    rewrite (proj1 (trimQuotes_token units [tokenQuote] Hu)) in HV by (by right).
    exists s2. split.
    { rewrite <- positionAfter_app in Hs2.
      apply (positioned_text _ _ _ _ _ Hs2).
      rewrite app_nil_r. by repeat (rewrite <- app_assoc; cbn [app]). }
    rewrite (readCalls_key s p _ cur fuel H) by (by rewrite hd_key_run).
    rewrite HK, HV.
    by destruct (readCalls fuel s2 cur) as [[calls err]|].
Qed.

Lemma length_elementText (e : element) : (1 ≤ length (elementText e))%nat.
Proof. destruct e; simpl; rewrite ?length_app; simpl; lia. Qed.

Lemma readCalls_end (s : Scanner) (p : Position) (cur : gostring) (fuel : nat) :
  positioned s p [] → readCalls (S fuel) s cur = Some ([], None).
Proof. intros H. cbn [readCalls]. by rewrite (Peek_id s p [] H). Qed.

Lemma endOk_tail (e e' : element) (rest : list element) (tail : gostring) :
  endOk (e :: e' :: rest) tail → endOk (e' :: rest) tail.
Proof. done. Qed.

(** The loop of [ReadFrom] on a sequence of elements, and then on what
    follows them. *)
Lemma readCalls_elements_then (n : nat) :
  ∀ (elems : list element) (s : Scanner) (p : Position) (cur : gostring)
    (fuel : nat) (tail : gostring) (callsT : list setCall)
    (errT : option error),
  (length elems ≤ n)%nat → wellFormed elems → endOk elems tail →
  positioned s p (fileText elems ++ tail) →
  (length (fileText elems ++ tail) + 2 ≤ fuel)%nat →
  (∀ fuel' s', positioned s' (positionAfter p (fileText elems)) tail →
     (length tail + 2 ≤ fuel')%nat →
     readCalls fuel' s' (lastSection cur elems) = Some (callsT, errT)) →
  readCalls fuel s cur = Some (callsOf cur elems ++ callsT, errT).
Proof.
  induction n as [|n IH];
    intros elems s p cur fuel tail callsT errT Hn Hwf Hend H Hfuel HK.
  - destruct elems; [|simpl in Hn; lia]. by apply HK.
  - destruct elems as [|e rest]; [by apply HK|].
    destruct Hwf as (Hok & Hends & Hwf).
    unfold fileText in H, Hfuel, HK. cbn [map concat] in H, Hfuel, HK.
    fold (fileText rest) in H, Hfuel, HK.
    rewrite <- app_assoc in H.
    rewrite !length_app in Hfuel.
    pose proof (length_elementText e) as Hlen.
    destruct fuel as [|fuel]; [lia|].
    destruct (readCalls_element e (fileText rest ++ tail) s p cur fuel Hok)
      as (s' & Hs' & HR); [|exact H|lia|].
    { destruct e; try (by right).
      left. destruct Hends as [->|[rest' ->]].
      - unfold endOk in Hend. simpl in Hend. subst. by left.
      - right. by eexists. }
    rewrite HR. cbn [callsOf lastSection foldl] in *.
    fold (lastSection (sectionAfter cur e) rest) in HK.
    simpl in Hn.
    assert (Hgo : ∀ rest0 p0, wellFormed rest0 → (length rest0 ≤ n)%nat →
              endOk rest0 tail →
              positioned s' p0 (fileText rest0 ++ tail) →
              (length (fileText rest0) ≤ length (fileText rest))%nat →
              callsOf (sectionAfter cur e) rest0
              = callsOf (sectionAfter cur e) rest →
              lastSection (sectionAfter cur e) rest0
              = lastSection (sectionAfter cur e) rest →
              positionAfter p0 (fileText rest0)
              = positionAfter p (elementText e ++ fileText rest) →
              (λ '(calls, err), (callsOfElement cur e ++ calls, err))
                <$> readCalls fuel s' (sectionAfter cur e)
              = Some ((callsOfElement cur e
                       ++ callsOf (sectionAfter cur e) rest) ++ callsT, errT)).
    { intros rest0 p0 Hwf0 Hn0 Hend0 Hs0 Hlen0 Ecalls Esec Epos.
      rewrite (IH rest0 s' p0 _ fuel tail callsT errT); try done.
      - by rewrite Ecalls, <- app_assoc.
      - rewrite length_app. lia.
      - intros fuel' s0 Hs0' Hf'. rewrite Esec. apply HK; [|done].
        by rewrite <- Epos. }
    assert (Hother : (∀ k v, e ≠ EPair k v) →
              positioned s' (positionAfter p (elementText e ++ []))
                (fileText rest ++ tail) →
              (λ '(calls, err), (callsOfElement cur e ++ calls, err))
                <$> readCalls fuel s' (sectionAfter cur e)
              = Some ((callsOfElement cur e
                       ++ callsOf (sectionAfter cur e) rest) ++ callsT, errT)).
    { intros Hne Hs0. rewrite app_nil_r in Hs0.
      apply (Hgo rest (positionAfter p (elementText e))); try done.
      - lia.
      - destruct rest as [|e' rest']; [|done].
        unfold endOk in *. simpl in *.
        destruct e; try done; by destruct (Hne krun vrun).
      - by rewrite positionAfter_app. }
    destruct e as [c|c text|run|krun vrun|krun pre units];
      try (by apply Hother).
    destruct Hends as [->|[rest' ->]].
    + unfold endOk in Hend. simpl in Hend. subst tail.
      cbn [fileText map concat app take drop] in Hs'.
      apply (Hgo [] (positionAfter p (elementText (EPair krun vrun) ++ [])));
        try done.
      simpl. lia.
    + destruct Hwf as (_ & _ & Hwf'). simpl in Hn.
      unfold fileText in Hs'. cbn [map concat elementText] in Hs'.
      fold (fileText rest') in Hs'. cbn [app take drop] in Hs'.
      apply (Hgo rest' (positionAfter p
                          (elementText (EPair krun vrun) ++ [tokenLF])));
        try done.
      * lia.
      * destruct rest' as [|e' rest'']; [done|]. exact Hend.
      * unfold fileText. cbn [map concat]. rewrite length_app. lia.
      * unfold fileText at 2. cbn [map concat elementText].
        fold (fileText rest'). rewrite <- positionAfter_app.
        f_equal. by repeat (rewrite <- app_assoc; cbn [app]).
Qed.

Lemma endOk_nil (elems : list element) : endOk elems [].
Proof. unfold endOk. by destruct (last elems) as [[]|]. Qed.

Lemma readCalls_elements (n : nat) :
  ∀ (elems : list element) (s : Scanner) (p : Position) (cur : gostring)
    (fuel : nat),
  (length elems ≤ n)%nat → wellFormed elems →
  positioned s p (fileText elems) →
  (length (fileText elems) + 2 ≤ fuel)%nat →
  readCalls fuel s cur = Some (callsOf cur elems, None).
Proof.
  intros elems s p cur fuel Hn Hwf H Hfuel.
  rewrite (readCalls_elements_then n elems s p cur fuel [] [] None);
    try done.
  - by rewrite app_nil_r.
  - apply endOk_nil.
  - by rewrite app_nil_r.
  - by rewrite app_nil_r.
  - intros fuel' s' Hs' Hf'. destruct fuel' as [|fuel']; [simpl in Hf'; lia|].
    by apply (readCalls_end s' _ _ fuel' Hs').
Qed.

Lemma fileText_head (elems : list element) :
  wellFormed elems → headOk (fileText elems).
Proof.
  destruct elems as [|e rest]; [done|]. intros (Hok & _).
  unfold fileText. cbn [map concat].
  destruct e as [c|c text|run|krun vrun|krun pre units];
    cbn [elementText elementOk] in *.
  - by destruct Hok as [-> | ->].
  - by destruct Hok as [[-> | ->] _].
  - done.
  - destruct Hok as (_ & (H0 & _) & _). by destruct krun.
  - destruct Hok as (_ & (H0 & _) & _). by destruct krun.
Qed.

(** X10. Reading a well-formed file.  For every file made of blank lines,
    comments without a double quote, section headers, keys with unquoted
    values and keys with quoted values, [ReadFrom] returns 0 and no error
    and leaves the receiver as the [Set] calls of the pairs leave it, made
    in the order of the file, each in the section of the last header before
    it: the key is the text before the equals sign without its spaces and
    tabs, the section the text between the brackets without tabs and
    opening brackets, the value the unquoted text without carriage returns,
    tabs and leading spaces, or the content of the literal.  [Load] returns
    the store these calls make of a new one. *)
Theorem ReadFrom_well_formed (elems : list element) (ini : Ini) (fuel : nat) :
  wellFormed elems → hd EOF (fileText elems) ≠ BOM →
  (length (fileText elems) + 2 ≤ fuel)%nat →
  ReadFrom fuel ini (fileText elems)
  = Some (applySets ini (callsOf [] elems), 0, None)
  ∧ Load fuel (fileText elems)
    = Some (Some (applySets NewIni (callsOf [] elems)), None).
Proof.
  intros Hwf HBOM Hfuel.
  pose proof (fileText_head elems Hwf) as Hhd.
  destruct (start_positioned _ Hhd HBOM) as [_ Hstart].
  pose proof (readCalls_elements (length elems) elems _ _ [] fuel
                (le_n _) Hwf Hstart Hfuel) as HR.
  unfold ReadFrom, Load.
  by rewrite !readLoop_readCalls, readCalls_Init, HR.
Qed.

Lemma ReadFrom_well_formed_witness :
  ReadFrom 60 NewIni
    (runes "; c" ++ LF ++ runes "[s]" ++ LF ++ runes "a b = x y" ++ LF
     ++ runes "q=" ++ [tokenQuote] ++ runes "z\n" ++ [tokenQuote] ++ LF
     ++ runes "e=1")
  = Some (Set_ (Set_ (Set_ NewIni (runes "s") (runes "ab") (runes "x y"))
                  (runes "s") (runes "q") (runes "z\n"))
            (runes "s") (runes "e") (runes "1"), 0, None).
Proof.
  refine (proj1 (ReadFrom_well_formed
                   [EComment tokenCommentClassic (runes " c");
                    EHeader (runes "s"); EBlank tokenLF;
                    EPair (runes "a b ") (runes " x y"); EBlank tokenLF;
                    EQuoted (runes "q") [] [UChar 122; UEscape 110];
                    EBlank tokenLF;
                    EPair (runes "e") (runes "1")] NewIni 60 _ _ _)).
  - cbn [wellFormed elementOk lineEnds].
    repeat split;
      try (by repeat (constructor; [by vm_compute|]); constructor);
      try (by vm_compute); try (by left); try (by right; eexists).
  - by vm_compute.
  - vm_compute. lia.
Defined.

(** ** A double quote in a comment *)





(** ** The round trip of any value *)

Lemma readLoop_elements (elems : list element) (ini : Ini) (fuel : nat) :
  wellFormed elems → hd EOF (fileText elems) ≠ BOM →
  (length (fileText elems) + 2 ≤ fuel)%nat →
  readLoop fuel (Init (fileText elems)) [] ini
  = Some (applySets ini (callsOf [] elems), None).
Proof.
  intros Hwf HBOM Hfuel.
  pose proof (fileText_head elems Hwf) as Hhd.
  destruct (start_positioned _ Hhd HBOM) as [_ Hstart].
  pose proof (readCalls_elements (length elems) elems _ _ [] fuel
                (le_n _) Hwf Hstart Hfuel) as HR.
  by rewrite readLoop_readCalls, readCalls_Init, HR.
Qed.

Lemma land_15 (x : Z) : 0 <= Z.land x 15 < 16.
Proof.
  change 15 with (Z.ones 4). rewrite Z.land_ones by lia.
  apply Z.mod_pos_bound. lia.
Qed.

Lemma hexDigit_hexChar (d : Z) : 0 <= d < 16 → hexChar (hexDigit d).
Proof.
  intros H.
  assert (E : d = 0 ∨ d = 1 ∨ d = 2 ∨ d = 3 ∨ d = 4 ∨ d = 5 ∨ d = 6 ∨ d = 7
              ∨ d = 8 ∨ d = 9 ∨ d = 10 ∨ d = 11 ∨ d = 12 ∨ d = 13 ∨ d = 14
              ∨ d = 15) by lia.
  repeat (destruct E as [->|E]; [by vm_compute|]). subst. by vm_compute.
Qed.

Lemma hexDigits_ok (n : nat) (r : rune) :
  length (hexDigits n r) = n ∧ Forall hexChar (hexDigits n r).
Proof.
  induction n as [|n [IH1 IH2]]; [by split|]. cbn [hexDigits length]. split.
  - by rewrite IH1.
  - constructor; [|done]. apply hexDigit_hexChar, land_15.
Qed.

Section AnyValue.
Variable isPrintTable : rune → bool.

(** Whatever [strconv.Quote] writes for a character is a character or an
    escape that the scanner takes as one. *)
Lemma escapedRune_unit (r : rune) :
  ∃ u, escapedRune isPrintTable r = unitText u ∧ unitOk u.
Proof.
  assert (Hhex : ∀ letter n x,
            (letter = 120 ∨ letter = 117 ∨ letter = 85) → n = hexLen letter →
            ∃ u, [tokenBackslash; letter] ++ hexDigits n x = unitText u ∧ unitOk u).
  { intros letter n x Hl Hn. exists (UHex letter (hexDigits n x)).
    split; [done|]. split; [done|]. rewrite <- Hn. apply hexDigits_ok. }
  unfold escapedRune.
  destruct ((r =? tokenQuote) || (r =? tokenBackslash)) eqn:E1.
  { exists (UEscape r). split; [done|].
    apply orb_true_iff in E1 as [->%Z.eqb_eq| ->%Z.eqb_eq]; by vm_compute. }
  apply orb_false_iff in E1 as [Hq%Z.eqb_neq Hb%Z.eqb_neq].
  destruct (IsPrint isPrintTable r) eqn:EP.
  { exists (UChar r). split; [done|]. by apply (valueChar_stringChar isPrintTable). }
  destruct (r =? 7); [by exists (UEscape 97)|].
  destruct (r =? 8); [by exists (UEscape 98)|].
  destruct (r =? 12); [by exists (UEscape 102)|].
  destruct (r =? 10); [by exists (UEscape 110)|].
  destruct (r =? 13); [by exists (UEscape 114)|].
  destruct (r =? 9); [by exists (UEscape 116)|].
  destruct (r =? 11); [by exists (UEscape 118)|].
  destruct ((r <? 32) || (r =? 127)); [apply Hhex; [by left|done]|].
  destruct (negb (ValidRune r)); [apply Hhex; [right; by left|done]|].
  destruct (r <? 65536); apply Hhex; try done; [right; by left|right; by right].
Qed.

Lemma escaped_units (v : gostring) :
  ∃ units, escaped isPrintTable v = literalText units ∧ Forall unitOk units.
Proof.
  induction v as [|r v (units & E & Hu)]; [by exists []|].
  destruct (escapedRune_unit r) as (u & Er & Hr).
  exists (u :: units). split; [|by constructor].
  unfold escaped in *. cbn [map concat]. by rewrite literalText_cons, Er, E.
Qed.

Lemma filter_key_plain (k : gostring) :
  Forall keyChar k → List.filter keptInKey k = k.
Proof.
  induction 1 as [|c k (_ & _ & _ & Hsp & Htab) _ IH]; [done|].
  cbn [List.filter]. unfold keptInKey at 1.
  rewrite (proj2 (Z.eqb_neq c tokenSpace)), (proj2 (Z.eqb_neq c tokenTab)) by done.
  simpl. by rewrite IH.
Qed.

Lemma filter_section_plain (section : gostring) :
  sectionPlain section → List.filter keptInSection section = section.
Proof.
  induction 1 as [|c l (_ & Hst & _ & _ & _ & _ & Htab) _ IH]; [done|].
  cbn [List.filter]. unfold keptInSection at 1.
  rewrite (proj2 (Z.eqb_neq c tokenSectionStart)), (proj2 (Z.eqb_neq c tokenTab))
    by done.
  simpl. by rewrite IH.
Qed.

Lemma keyPlain_start (k : gostring) :
  keyPlain k → Forall keyRunChar k ∧ pairStart (hd tokenEqual k).
Proof.
  intros [Hk (H1 & H2 & H3 & H4 & H5 & _)]. split.
  - eapply Forall_impl; [exact Hk|]. by intros c (? & ? & ? & _).
  - repeat split; try done.
    destruct Hk as [|c k (Hc & _) _]; [done|]. by apply ValidRune_nonneg.
Qed.

(** The lines that [WriteTo] writes are a well-formed file, whatever the
    values: a pair is a key with a literal and a line feed, a header a
    header and a line feed. *)
Lemma items_elements (items : list item) :
  Forall itemNames items →
  ∃ elems, fileText elems = concat (map (itemText isPrintTable) items)
         ∧ wellFormed elems
         ∧ ∀ cur, callsOf cur elems
                  = map (readBackCall isPrintTable) (callsOfItems cur items).
Proof.
  induction 1 as [|i items Hi _ (elems & Etext & Hwf & Hcalls)]; [by exists []|].
  destruct i as [k v|section]; cbn [itemNames] in Hi.
  - destruct (escaped_units v) as (units & Ev & Hu).
    destruct (keyPlain_start k Hi) as [Hrun Hstart].
    exists (EQuoted k [] units :: EBlank tokenLF :: elems). split; [|split].
    + unfold fileText in *. cbn [map concat elementText itemText].
      rewrite Etext. unfold pairLine, Quote. fold (escaped isPrintTable v).
      rewrite Ev. repeat (rewrite <- app_assoc; cbn [app]). done.
    + cbn [wellFormed elementOk lineEnds].
      repeat split; try done; try (by left); apply Hstart.
    + intros cur. cbn [callsOf callsOfElement sectionAfter callsOfItems map app].
      rewrite Hcalls, (filter_key_plain k (proj1 Hi)).
      unfold readBackCall at 2, readBack. cbn [scSection scKey scValue].
      by rewrite Ev.
  - exists (EHeader section :: EBlank tokenLF :: elems). split; [|split].
    + unfold fileText in *. cbn [map concat elementText itemText].
      rewrite Etext. unfold headerLine. repeat (rewrite <- app_assoc; cbn [app]).
      done.
    + cbn [wellFormed elementOk lineEnds]. repeat split; try done; [|by left].
      eapply Forall_impl; [exact Hi|]. by intros c (? & ? & ? & ? & ? & ? & _).
    + intros cur. cbn [callsOf callsOfElement sectionAfter callsOfItems app].
      by rewrite Hcalls, (filter_section_plain section Hi).
Qed.

Lemma items_names_head (items : list item) :
  Forall itemNames items →
  hd EOF (concat (map (itemText isPrintTable) items)) ≠ BOM.
Proof.
  intros [|i items' Hi _]; [done|]. cbn [map concat].
  destruct i as [k v|section]; [|done].
  destruct Hi as [Hk Hstart]. cbn [itemText]. unfold pairLine.
  destruct k as [|c k]; [done|]. simpl in *. apply Hstart.
Qed.

(** Setting the values of a sequence of calls through [f] gives the store
    with its values through [f]. *)
Lemma applySets_mapped (f : gostring → gostring) (calls : list setCall) :
  ∀ (ini1 ini2 : Ini),
  (∀ s k, Has ini1 s k = Has ini2 s k
          ∧ Get ini1 s k = if Has ini2 s k then f (Get ini2 s k) else []) →
  ∀ s k,
    Has (applySets ini1
           (map (λ c, mkSetCall (scSection c) (scKey c) (f (scValue c))) calls)) s k
    = Has (applySets ini2 calls) s k
    ∧ Get (applySets ini1
             (map (λ c, mkSetCall (scSection c) (scKey c) (f (scValue c))) calls))
        s k
      = if Has (applySets ini2 calls) s k
        then f (Get (applySets ini2 calls) s k) else [].
Proof.
  induction calls as [|c calls IH]; intros ini1 ini2 H; [exact H|].
  cbn [map applySets foldl].
  fold (applySets (applySet ini2 c) calls).
  fold (applySets (applySet ini1 (mkSetCall (scSection c) (scKey c) (f (scValue c))))
          (map (λ c, mkSetCall (scSection c) (scKey c) (f (scValue c))) calls)).
  apply IH. intros s k. unfold applySet, Set_. cbn [scSection scKey scValue].
  rewrite !Get_set_, !Has_set_.
  destruct (decide (scSection c = s ∧ scKey c = k)); [done|apply H].
Qed.

End AnyValue.

Section AnyValueStore.
Variable isPrintTable : rune → bool.
Variable rangeData : list (list Z).
Variable rangeKeys : list Z → list (list Z).
Variable ini : Ini.
Hypothesis Horder : rangeOrder ini rangeData rangeKeys.

(** The calls of the items of a store make that store of a new one. *)
Lemma calls_rebuild (s k : gostring) :
  Get (applySets NewIni (callsOfItems [] (itemsOf rangeData rangeKeys ini))) s k
  = Get ini s k
  ∧ Has (applySets NewIni (callsOfItems [] (itemsOf rangeData rangeKeys ini))) s k
    = Has ini s k.
Proof.
  set (calls := callsOfItems [] (itemsOf rangeData rangeKeys ini)).
  assert (Hin : ∀ c, In c calls →
            ∃ m, data ini !! scSection c = Some m
               ∧ m !! scKey c = Some (scValue c)).
  { intros c. apply (calls_in_store rangeData rangeKeys ini Horder). }
  destruct (Has ini s k) eqn:EHas.
  - apply Has_true_lookup in EHas as (m & v & Hm & Hv).
    apply (applySets_agree ini).
    + apply List.Forall_forall. intros c (m' & Hm' & Hv')%Hin.
      by apply (Get_lookup ini _ _ m').
    + by apply (store_in_calls rangeData rangeKeys ini Horder s k v m).
  - assert (Hnone : Forall (λ c, ¬ setsKey s k c) calls).
    { apply List.Forall_forall. intros c (m' & Hm' & Hv')%Hin [<- <-].
      assert (Has ini (scSection c) (scKey c) = true) as Ht.
      { apply Has_true_lookup. by exists m', (scValue c). }
      congruence. }
    rewrite Get_applySets_other, Has_applySets_other by done.
    rewrite (Get_Has_false ini s k EHas).
    unfold Get, Has, NewIni. simpl. by rewrite lookup_empty.
Qed.

Hypothesis Hnames : namesPlain ini.

Lemma itemsOf_names : Forall itemNames (itemsOf rangeData rangeKeys ini).
Proof.
  assert (Hpairs : ∀ section m i, data ini !! section = Some m →
            In i (map (λ k, Pair k (valueAt ini section k)) (rangeKeys section)) →
            itemNames i).
  { intros section m i Hm (k & <- & Hk)%in_map_iff.
    apply (rangeKeys_lookup rangeData rangeKeys ini Horder section k m Hm) in Hk
      as (v & Hv).
    by apply (proj2 (Hnames section m Hm) k v). }
  apply List.Forall_forall. intros i [Hin|Hin]%in_app_or.
  - unfold defaultItems in Hin.
    destruct (data ini !! []) as [m|] eqn:E; [|done].
    by apply (Hpairs [] m).
  - apply in_concat in Hin as (l & Hl & Hin).
    apply in_map_iff in Hl as (sec & <- & Hsec).
    apply (namedSections_lookup rangeData rangeKeys ini Horder) in Hsec
      as (_ & m & Hm).
    unfold sectionItems in Hin.
    destruct (rangeKeys sec) as [|k keys] eqn:E; [done|].
    destruct Hin as [<-|Hin].
    + apply (Hnames sec m Hm).
    + apply (Hpairs sec m); [done|]. by rewrite E.
Qed.

End AnyValueStore.

(** X12. The round trip of any value.  For a store whose section names and
    keys are plain, whatever its values, [WriteTo] into an empty buffer
    succeeds and [Load] on the text written returns a store with the same
    keys; the value it holds under a key is not the value written but its
    quoted form without the quotes around it: [readValue] does not decode
    the escapes that [strconv.Quote] wrote, and its trim takes the quotes
    the text ends with. *)
Theorem round_trip_any_value (isPrintTable : rune → bool)
    (rangeData : list (list Z)) (rangeKeys : list Z → list (list Z)) (ini : Ini) :
  namesPlain ini → rangeOrder ini rangeData rangeKeys →
  ∃ out,
    WriteTo isPrintTable bufferWrite rangeData rangeKeys ini []
    = (out, byteLen out, None)
    ∧ ∀ fuel, (length out + 2 ≤ fuel)%nat →
        ∃ ini', Load fuel out = Some (Some ini', None)
              ∧ ∀ s k, Has ini' s k = Has ini s k
                     ∧ Get ini' s k
                       = TrimRight (concat (map (escapedRune isPrintTable)
                                              (Get ini s k))) [tokenQuote].
Proof.
  intros Hnames Horder.
  set (items := itemsOf rangeData rangeKeys ini).
  exists (concat (map (itemText isPrintTable) items)). split.
  - rewrite WriteTo_lines, emit_bufferWrite. unfold items.
    by rewrite itemsOf_outputLines.
  - intros fuel Hfuel.
    pose proof (itemsOf_names rangeData rangeKeys ini Horder Hnames) as Hitems.
    fold items in Hitems.
    pose proof (items_names_head isPrintTable items Hitems) as HBOM.
    destruct (items_elements isPrintTable items Hitems)
      as (elems & Etext & Hwf & Hcalls).
    rewrite <- Etext in *.
    exists (applySets NewIni (callsOf [] elems)). split.
    + unfold Load. by rewrite (readLoop_elements elems NewIni fuel Hwf HBOM Hfuel).
    + intros s k. rewrite Hcalls.
      destruct (applySets_mapped (readBack isPrintTable) (callsOfItems [] items)
                  NewIni NewIni) with (s := s) (k := k) as [HH HG].
      { intros s' k'. split; [done|].
        unfold Has, Get, NewIni. simpl. by rewrite lookup_empty. }
      destruct (calls_rebuild rangeData rangeKeys ini Horder s k) as [EG EH].
      fold items in EG, EH.
      unfold readBackCall. rewrite HH, HG, EH, EG. split; [done|].
      destruct (Has ini s k) eqn:EHas; [done|].
      by rewrite (Get_Has_false ini s k EHas).
Qed.

Lemma round_trip_any_value_witness :
  ∃ out,
    WriteTo (λ _, false) bufferWrite [[]] (λ _, [runes "k"]) quoteStore []
    = (out, byteLen out, None)
    ∧ ∀ fuel, (length out + 2 ≤ fuel)%nat →
        ∃ ini', Load fuel out = Some (Some ini', None)
              ∧ ∀ s k, Has ini' s k = Has quoteStore s k
                     ∧ Get ini' s k
                       = TrimRight (concat (map (escapedRune (λ _, false))
                                              (Get quoteStore s k))) [tokenQuote].
Proof.
  apply round_trip_any_value.
  - intros section m H. unfold quoteStore, Set_ in H. rewrite data_set_ in H.
    apply lookup_insert_Some in H as [[<- <-]|[_ H]].
    + split; [constructor|]. intros k v Hk.
      apply lookup_insert_Some in Hk as [[<- _]|[_ Hk]].
      * split; [repeat (constructor; [by vm_compute|]); constructor|by vm_compute].
      * simpl in Hk. by rewrite lookup_empty in Hk.
    + simpl in H. by rewrite lookup_empty in H.
  - split.
    + vm_compute. reflexivity.
    + intros section m H. apply elem_of_map_to_list in H.
      vm_compute in H.
      apply elem_of_cons in H as [H|H]; [injection H as -> ->|].
      { vm_compute. reflexivity. }
      by apply elem_of_nil in H.
Defined.

(** The value of the store above, [a] and a double quote, comes back as [a]
    and a backslash. *)
Example quoteStore_read_back :
  ∃ ini', Load 20 (fst (fst (WriteTo (λ _, false) bufferWrite [[]]
                               (λ _, [runes "k"]) quoteStore [])))
          = Some (Some ini', None)
        ∧ Get ini' [] (runes "k") = runes "a\".
Proof. eexists. split; [by vm_compute|]. by vm_compute. Qed.

(** ** Syntax errors and their positions *)

Lemma readCalls_syntaxError (tail text : gostring) (mk : Position → error)
    (s : Scanner) (p : Position) (cur : gostring) (fuel : nat) :
  syntaxError tail text mk → positioned s p tail →
  (length tail + 2 ≤ fuel)%nat →
  readCalls fuel s cur = Some ([], Some (mk (positionAfter p (beforeToken text)))).
Proof.
  intros Herr H Hfuel. destruct fuel as [|fuel]; [lia|].
  destruct Herr as [run Hrun Hstart|run rest Hrun Hstart|run rest c Hrun Hc].
  - rewrite (readCalls_key s p run cur fuel H Hstart).
    destruct (readKeyLoop_error run [] [] s p [] fuel) as (s' & HR);
      [done|done|by left|by rewrite app_nil_r|lia|].
    fold (readKey fuel s) in HR. by rewrite HR.
  - rewrite (readCalls_key s p _ cur fuel H) by (by destruct run).
    rewrite length_app in Hfuel.
    destruct (readKeyLoop_error run [] (tokenQuote :: rest) s p [] fuel)
      as (s' & HR); [done|done|right; by eexists|exact H|lia|].
    fold (readKey fuel s) in HR. by rewrite HR.
  - cbn [length] in Hfuel. rewrite length_app in Hfuel.
    destruct (readSectionLoop_run (tokenSectionStart :: run) [] rest c s p [] fuel)
      as (s' & HR & _); [done| |by right|exact H|simpl; lia|].
    { constructor; [by vm_compute|done]. }
    cbn [readCalls]. rewrite (Peek_id s p _ H) by done. simpl hd.
    simpl (_ =? _). cbn [orb]. cbv iota.
    unfold readSection. rewrite HR. unfold sectionEnd.
    by destruct Hc as [-> | ->].
Qed.

Lemma syntaxError_head (tail text : gostring) (mk : Position → error) :
  syntaxError tail text mk → headOk tail.
Proof.
  intros [run _ (H0 & _)|run rest _ (H0 & _)|run rest c _ _]; [| |done];
    by destruct run.
Qed.

Lemma endOk_last (elems : list element) (tail : gostring) :
  (∀ k v, last elems ≠ Some (EPair k v)) → endOk elems tail.
Proof.
  intros H. unfold endOk. destruct (last elems) as [[]|]; try done.
  by destruct (H krun vrun).
Qed.

(** X13. Syntax errors.  When a well-formed part of a file is followed by a
    key that the end of the input or a double quote ends before any equals
    sign, or by a header that a line ends before its closing bracket,
    [ReadFrom] returns -1 and the error of that place, and the receiver
    holds what the well-formed part set; [Load] returns the same error and
    no store.  The position in the error is counted from the start of the
    file, lines from 1 and columns from 1: it is the position of the
    character or end at which the key or header broke off, or of the first
    of the tabs before it. *)
Theorem ReadFrom_syntax_error (elems : list element) (tail text : gostring)
    (mk : Position → error) (ini : Ini) (fuel : nat) :
  wellFormed elems → (∀ k v, last elems ≠ Some (EPair k v)) →
  syntaxError tail text mk →
  hd EOF (fileText elems ++ tail) ≠ BOM →
  (length (fileText elems ++ tail) + 2 ≤ fuel)%nat →
  ReadFrom fuel ini (fileText elems ++ tail)
  = Some (applySets ini (callsOf [] elems), -1,
          Some (mk (positionAfter (mkPosition 1 1)
                      (fileText elems ++ beforeToken text))))
  ∧ Load fuel (fileText elems ++ tail)
    = Some (None,
            Some (mk (positionAfter (mkPosition 1 1)
                        (fileText elems ++ beforeToken text)))).
Proof.
  intros Hwf Hlast Herr HBOM Hfuel.
  assert (Hhd : headOk (fileText elems ++ tail)).
  { destruct elems as [|e rest]; [by apply (syntaxError_head tail text mk)|].
    pose proof (fileText_head (e :: rest) Hwf) as Hh.
    unfold fileText in *. cbn [map concat] in *.
    pose proof (length_elementText e) as Hlen.
    destruct (elementText e); [simpl in Hlen; lia|done]. }
  destruct (start_positioned _ Hhd HBOM) as [_ Hstart].
  pose proof (readCalls_elements_then (length elems) elems _ _ [] fuel tail []
                (Some (mk (positionAfter (mkPosition 1 1)
                             (fileText elems ++ beforeToken text))))
                (le_n _) Hwf (endOk_last elems tail Hlast) Hstart Hfuel) as HR.
  rewrite app_nil_r in HR.
  assert (HK : ∀ (fuel' : nat) (s' : Scanner),
            positioned s' (positionAfter (mkPosition 1 1) (fileText elems)) tail →
            (length tail + 2 ≤ fuel')%nat →
            readCalls fuel' s' (lastSection [] elems)
            = Some ([], Some (mk (positionAfter (mkPosition 1 1)
                                    (fileText elems ++ beforeToken text))))).
  { intros fuel' s' Hs' Hf'. rewrite positionAfter_app.
    by apply (readCalls_syntaxError tail text mk). }
  specialize (HR HK).
  unfold ReadFrom, Load.
  by rewrite !readLoop_readCalls, readCalls_Init, HR.
Qed.

Lemma ReadFrom_syntax_error_witness :
  ReadFrom 20 NewIni (runes "a=1" ++ LF ++ runes "[x" ++ LF)
  = Some (Set_ NewIni [] (runes "a") (runes "1"), -1,
          Some (ErrSectionNewline (mkPosition 2 3))).
Proof.
  refine (proj1 (ReadFrom_syntax_error
                   [EPair (runes "a") (runes "1"); EBlank tokenLF]
                   (runes "[x" ++ LF) (runes "[x") ErrSectionNewline NewIni 20
                   _ _ _ _ _)).
  - cbn [wellFormed elementOk lineEnds].
    repeat split;
      try (by repeat (constructor; [by vm_compute|]); constructor);
      try (by vm_compute); try (by left); try (by right; eexists).
  - done.
  - apply (HeaderAtNewline (runes "x") [] tokenLF); [|by left].
    repeat (constructor; [by vm_compute|]). constructor.
  - by vm_compute.
  - vm_compute. lia.
Defined.

(** ** A byte order mark *)

(** The first [Peek] on an input that starts with a byte order mark leaves
    the scanner behind the mark, at column 2. *)
Lemma start_BOM (r : gostring) :
  headOk r →
  Peek (Init (BOM :: r)) = (hd EOF r, start (BOM :: r))
  ∧ positioned (start (BOM :: r)) (mkPosition 1 2) r.
Proof.
  intros Hhd. unfold start, Peek. simpl (ch (Init _) =? -2). cbv iota.
  rewrite (next_cons (Init (BOM :: r)) BOM r eq_refl).
  simpl (ch _ =? BOM). cbv iota.
  destruct r as [|c r].
  - by vm_compute.
  - unfold next. cbn [src]. unfold positioned, lookingAt, posInv, Pos.
    simpl in Hhd.
    destruct (c =? tokenLF) eqn:ELF; simpl; rewrite ?ELF; [done|].
    by rewrite (proj2 (Z.eqb_neq c EOF)) by (unfold EOF; lia).
Qed.

(** X14. A byte order mark.  A byte order mark at the very start of the
    input is skipped by the first [Peek]: [ReadFrom] and [Load] read the
    well-formed file that follows it as they read it without the mark.
    Only this one mark is skipped: the file behind it may itself start
    with one, which is then the first character of a key. *)
Theorem ReadFrom_skips_BOM (elems : list element) (ini : Ini) (fuel : nat) :
  wellFormed elems →
  (length (fileText elems) + 2 ≤ fuel)%nat →
  ReadFrom fuel ini (BOM :: fileText elems)
  = Some (applySets ini (callsOf [] elems), 0, None)
  ∧ Load fuel (BOM :: fileText elems)
    = Some (Some (applySets NewIni (callsOf [] elems)), None).
Proof.
  intros Hwf Hfuel.
  pose proof (fileText_head elems Hwf) as Hhd.
  destruct (start_BOM _ Hhd) as [HPeek Hstart].
  assert (HI : readCalls fuel (Init (BOM :: fileText elems)) []
               = readCalls fuel (start (BOM :: fileText elems)) []).
  { destruct fuel as [|fuel]; [done|]. cbn [readCalls].
    by rewrite HPeek, (Peek_id _ _ _ Hstart Hhd). }
  pose proof (readCalls_elements (length elems) elems _ _ [] fuel
                (le_n _) Hwf Hstart Hfuel) as HR.
  unfold ReadFrom, Load.
  by rewrite !readLoop_readCalls, HI, HR.
Qed.

Lemma ReadFrom_skips_BOM_witness :
  ReadFrom 20 NewIni (BOM :: runes "a=1" ++ LF)
  = Some (Set_ NewIni [] (runes "a") (runes "1"), 0, None).
Proof.
  refine (proj1 (ReadFrom_skips_BOM
                   [EPair (runes "a") (runes "1"); EBlank tokenLF] NewIni 20 _ _)).
  - cbn [wellFormed elementOk lineEnds].
    repeat split;
      try (by repeat (constructor; [by vm_compute|]); constructor);
      try (by vm_compute); try (by left); try (by right; eexists).
  - vm_compute. lia.
Defined.

(** ** The tests of the repository, on the model *)

(** [TestIniLoadMostBasicConfiguration] *)
Example test_most_basic :
  (λ '(ini, _, err), (Get ini [] (runes "foo"), err))
    <$> ReadFrom 20 NewIni (runes "foo=bar")
  = Some (runes "bar", None).
Proof. by vm_compute. Qed.

(** [TestIniLoadKeyValueWithString] *)
Example test_key_value_with_string :
  (λ '(ini, _, err), (Get ini [] (runes "foo"), err))
    <$> ReadFrom 20 NewIni (runes "foo=" ++ [tokenQuote] ++ runes "bar" ++ [tokenQuote])
  = Some (runes "bar", None).
Proof. by vm_compute. Qed.

(** [TestIniLoadMultiLineAndComment] *)
Example test_multi_line_and_comment :
  (λ '(ini, _, err), (Get ini [] (runes "foo"), Get ini [] (runes "bar"), err))
    <$> ReadFrom 40 NewIni
          (runes "foo=32.452" ++ LF ++ runes "; hihihihi" ++ LF
           ++ runes "# hohohoho" ++ LF ++ runes "bar=54")
  = Some (runes "32.452", runes "54", None).
Proof. by vm_compute. Qed.

(** [TestIniLoadSections] *)
Example test_sections :
  (λ '(ini, _, err),
     (Get ini [] (runes "foo"), Get ini (runes "foobar") (runes "bar"),
      Get ini [] (runes "bar"), err))
    <$> ReadFrom 40 NewIni
          (runes "foo=32.452" ++ LF ++ runes "; hihihihi" ++ LF
           ++ runes "[foobar]" ++ LF ++ runes "bar=54")
  = Some (runes "32.452", runes "54", [], None).
Proof. by vm_compute. Qed.

(** Lines of [TestIniLoadGitConfig]: spaces around the equals sign, a quoted
    value, and a quoted value with escaped quotes, which stay escaped. *)
Example test_git_config :
  (λ '(ini, _, err),
     (Get ini (runes "user") (runes "name"),
      Get ini (runes "core") (runes "excludesfile"),
      Get ini (runes "alias") (runes "lga"), err))
    <$> ReadFrom 200 NewIni
          (LF ++ runes "[user]" ++ LF
           ++ runes "  name  = Marc Weistroff" ++ LF
           ++ runes "[core]" ++ LF
           ++ runes "  excludesfile=" ++ [tokenQuote] ++ runes "~/.gitignore"
           ++ [tokenQuote] ++ LF
           ++ runes "[alias]" ++ LF
           ++ runes "  lga  = " ++ [tokenQuote]
           ++ runes "!sh -c 'git log --author=\" ++ [tokenQuote]
           ++ runes "$1\" ++ [tokenQuote] ++ runes " -p $2' -" ++ [tokenQuote] ++ LF)
  = Some (runes "Marc Weistroff", runes "~/.gitignore",
          runes "!sh -c 'git log --author=\" ++ [tokenQuote]
          ++ runes "$1\" ++ [tokenQuote] ++ runes " -p $2' -", None).
Proof. by vm_compute. Qed.

(** Lines of [TestLoadPHPIni]: a header, a blank line, a comment, an empty
    value and a section name with a space. *)
Example test_php_ini :
  (λ '(ini, _, err),
     (Get ini (runes "PHP") (runes "engine"),
      Get ini (runes "PHP") (runes "unserialize_callback_func"),
      Has ini (runes "PHP") (runes "unserialize_callback_func"),
      Get ini (runes "CLI Server") (runes "cli_server.color"), err))
    <$> ReadFrom 200 NewIni
          (LF ++ runes "[PHP]" ++ LF ++ LF
           ++ runes "; About php.ini   ;" ++ LF
           ++ runes "engine = On" ++ LF
           ++ runes "unserialize_callback_func =" ++ LF
           ++ runes "[CLI Server]" ++ LF
           ++ runes "cli_server.color = On" ++ LF)
  = Some (runes "On", [], true, runes "On", None).
Proof. by vm_compute. Qed.

(** [TestWriteTo]: what is written for the example store is read back. *)
Example test_write_to :
  let '(out, _, _) :=
    WriteTo (λ _, false) bufferWrite exampleRangeData exampleRangeKeys
      exampleStore [] in
  (λ '(ini, _, err),
     (Get ini [] (runes "foo"), Get ini (runes "PHP") (runes "engine"),
      Get ini (runes "PHP") (runes "a"), err))
    <$> ReadFrom 100 NewIni out
  = Some (runes "bar", runes "On", runes "b c", None).
Proof. by vm_compute. Qed.
